(** * A-Puzzle-A-Day solver: board geometry, piece orientations,
      placement generation, the exact-cover search, the board printer and
      the report of [main] of [apuzzle_solver.py].

    Python integers are modelled by [Z], tuples and lists by [list], sets by
    stdpp's [gset], dictionaries by [gmap] (or by an association list where
    the insertion order is observed), strings by [string]. *)

From stdpp Require Import gmap strings list sorting pretty.

Local Open Scope Z_scope.

(** ** Python built-ins used by the program *)

(** [range(n)]: [0, 1, ..., n-1], empty when [n <= 0]. *)
Definition range (n : Z) : list Z := seqZ 0 n.

(** [enumerate(l)]. *)
Definition enumerate {A} (l : list A) : list (Z * A) :=
  zip (seqZ 0 (Z.of_nat (length l))) l.

(** [max(...)] and [min(...)] over a sequence of integers.  Python raises
    [ValueError] on an empty sequence; the orientation and placement code
    only ever applies them to the coordinates of a piece, which has at least
    one square (lemmas [PIECES_sizes], [rotate_length] and [flip_length]
    below), so the value on the empty list is never observed there.  The solver, whose arguments are not
    fixed tables, uses the failing versions [py_max] and [py_min_by]. *)
Definition max_of (l : list Z) : Z :=
  match l with
  | [] => 0
  | x :: l' => foldl Z.max x l'
  end.

Definition min_of (l : list Z) : Z :=
  match l with
  | [] => 0
  | x :: l' => foldl Z.min x l'
  end.

(** [sorted(...)] on integers, on pairs of integers (tuples compare
    lexicographically) and on strings. *)
Definition pair_le (a b : Z * Z) : Prop :=
  a.1 < b.1 ∨ (a.1 = b.1 ∧ a.2 ≤ b.2).

#[global] Instance pair_le_dec : RelDecision pair_le.
Proof. intros a b. unfold pair_le. apply _. Defined.

Definition string_le (a b : string) : Prop := String.leb a b = true.

#[global] Instance string_le_dec : RelDecision string_le.
Proof. intros a b. unfold string_le. apply _. Defined.

Definition sorted_Z (l : list Z) : list Z := merge_sort Z.le l.
Definition sorted_pairs (l : list (Z * Z)) : list (Z * Z) := merge_sort pair_le l.
Definition sorted_strings (l : list string) : list string := merge_sort string_le l.

(** ** 1. Board *)

Definition Cell : Type := Z * Z.

Definition ROW_WIDTHS : list Z := [6; 6; 7; 7; 7; 7; 3].

(** [ROW_WIDTHS[r]] for [0 <= r < 7].  The program indexes the table only
    with such rows (lemma [anchor_rows_in_range]); outside that range the
    model answers width 0, that is: no cell is valid there. *)
Definition row_width (r : Z) : Z :=
  if bool_decide (0 ≤ r) then default 0 (ROW_WIDTHS !! Z.to_nat r) else 0.

(** The two module-level tables are filled by one double loop. *)
Definition board_tables : list Cell * gmap Cell Z :=
  foldl (fun st '(r, w) =>
           foldl (fun '(cells, m) c =>
                    (cells ++ [(r, c)],
                     <[(r, c) := Z.of_nat (length cells)]> m))
                 st (range w))
        ([], ∅) (enumerate ROW_WIDTHS).

Definition BOARD_CELLS : list Cell := Eval vm_compute in board_tables.1.
Definition CELL_TO_COL : gmap Cell Z := board_tables.2.

(** [BOARD_CELLS[i]]: list indexing ([None] stands for [IndexError];
    a negative index counts from the end, as in Python). *)
Definition py_index {A} (l : list A) (i : Z) : option A :=
  if bool_decide (0 ≤ i) then l !! Z.to_nat i
  else if bool_decide (- Z.of_nat (length l) ≤ i)
       then l !! Z.to_nat (Z.of_nat (length l) + i)
       else None.

(** [CELL_TO_COL[xy]] where the program has already established that [xy]
    is a cell of the board (a [KeyError] otherwise). *)
Definition cell_to_col (xy : Cell) : Z := default 0 (CELL_TO_COL !! xy).

(** A cell is valid iff it lies in one of the seven rows and left of that
    row's width. *)
Definition valid_cell (xy : Cell) : Prop :=
  0 ≤ xy.1 < Z.of_nat (length ROW_WIDTHS) ∧ 0 ≤ xy.2 < row_width xy.1.

#[global] Instance valid_cell_dec xy : Decision (valid_cell xy).
Proof. unfold valid_cell. apply _. Defined.

Definition month_cell (m : Z) : Cell :=
  if bool_decide (m ≤ 6) then (0, m - 1) else (1, m - 7).

Definition day_cell (d : Z) : Cell :=
  if bool_decide (d ≤ 7) then (2, d - 1)
  else if bool_decide (d ≤ 14) then (3, d - 8)
  else if bool_decide (d ≤ 21) then (4, d - 15)
  else if bool_decide (d ≤ 28) then (5, d - 22)
  else (6, d - 29).

(** ** 2. Pieces *)

Definition RawPiece : Type := list (list Z).
Definition CoordSet : Type := list (Z * Z).
Definition Transform : Type := CoordSet * Z * bool.

(** The dictionary [PIECES], in insertion order. *)
Definition PIECES : list (string * RawPiece) :=
  [ ("A", [[1;0];[1;0];[1;0];[1;1]]);
    ("B", [[1;0];[1;0];[1;1];[1;0]]);
    ("C", [[1;0];[1;0];[1;1];[0;1]]);
    ("D", [[1;1];[1;0];[1;1]]);
    ("E", [[1;1];[1;1];[1;1]]);
    ("F", [[1;0];[1;1];[1;1]]);
    ("G", [[1;1;0];[0;1;0];[0;1;1]]);
    ("H", [[1;0;0];[1;0;0];[1;1;1]]) ]%string.

Definition grid_to_coords (g : RawPiece) : CoordSet :=
  '(r, row) ← enumerate g;
  '(c, v) ← enumerate row;
  if bool_decide (v ≠ 0) then [(r, c)] else [].

Definition rotate (cs : CoordSet) : CoordSet :=
  let h := max_of (cs.*1) + 1 in
  (fun '(r, c) => (c, h - 1 - r)) <$> cs.

Definition flip (cs : CoordSet) : CoordSet :=
  let w := max_of (cs.*2) + 1 in
  (fun '(r, c) => (r, w - 1 - c)) <$> cs.

Definition normalize (cs : CoordSet) : CoordSet :=
  let mr := min_of (cs.*1) in
  let mc := min_of (cs.*2) in
  sorted_pairs ((fun '(r, c) => (r - mr, c - mc)) <$> cs).

(** One iteration of the inner loop body of [all_transforms]: the state is
    the pair of the set [seen] and the list [out]. *)
Definition transform_step (cs0 : CoordSet) (flipped : bool)
    (st : gset CoordSet * list Transform) (rot : Z)
    : gset CoordSet * list Transform :=
  let cs := foldl (fun cs _ => rotate cs) cs0 (range (rot / 90)) in
  let ncs := normalize cs in
  if bool_decide (ncs ∉ st.1)
  then ({[ncs]} ∪ st.1, st.2 ++ [(ncs, rot, flipped)])
  else st.

Definition all_transforms (g : RawPiece) : list Transform :=
  let base := grid_to_coords g in
  (foldl (fun st (flipped : bool) =>
            let cs0 := if flipped then flip base else base in
            foldl (transform_step cs0 flipped) st [0; 90; 180; 270])
         (∅, []) [false; true]).2.

Record Placement := mkPlacement {
  piece : string;
  squares : list Z;
  top_left : Cell;
  rotation : Z;
  flipped : bool
}.

(** [Placement.__init__]: the squares are stored sorted. *)
Definition new_Placement (name : string) (sq : list Z) (tl : Cell)
    (rot : Z) (fl : bool) : Placement :=
  mkPlacement name (sorted_Z sq) tl rot fl.

(** The innermost loop of [generate_placements], over the squares of one
    orientation anchored at [(tr, tc)]: [None] is [ok = False] (the loop
    breaks at the first square off the board or excluded), [Some idxs] is
    the completed [cell_idxs]. *)
Fixpoint cell_idxs (excluded : gset Cell) (tr tc : Z) (coords : CoordSet)
    : option (list Z) :=
  match coords with
  | [] => Some []
  | (pr, pc) :: rest =>
      let r := tr + pr in
      let c := tc + pc in
      if bool_decide (row_width r ≤ c) || bool_decide ((r, c) ∈ excluded)
      then None
      else (fun idxs => cell_to_col (r, c) :: idxs)
             <$> cell_idxs excluded tr tc rest
  end.

Definition generate_placements (excluded : gset Cell) : list Placement :=
  let rows := Z.of_nat (length ROW_WIDTHS) in
  '(name, grid) ← PIECES;
  '(coords, rot, fl) ← all_transforms grid;
  let max_r := max_of (coords.*1) in
  let max_c := max_of (coords.*2) in
  tr ← range (rows - max_r);
  tc ← range (row_width tr - max_c);
  match cell_idxs excluded tr tc coords with
  | Some idxs => [new_Placement name idxs (tr, tc) rot fl]
  | None => []
  end.

(** ** 3. Exact cover *)

(** Outcomes of the solver's code: a value, a Python exception, or the
    model's recursion budget used up. *)
Inductive exn := ValueError | KeyError | IndexError.

Inductive res (A : Type) : Type :=
  | Ok (a : A)
  | Raise (e : exn)
  | OutOfFuel.
Arguments Ok {A} a.
Arguments Raise {A} e.
Arguments OutOfFuel {A}.

#[global] Instance res_ret : MRet res := fun A a => Ok a.
#[global] Instance res_bind : MBind res := fun A B f m =>
  match m with
  | Ok a => f a
  | Raise e => Raise e
  | OutOfFuel => OutOfFuel
  end.

Definition or_raise {A} (e : exn) (o : option A) : res A :=
  match o with
  | Some a => Ok a
  | None => Raise e
  end.

Fixpoint res_mapM {A B} (f : A → res B) (l : list A) : res (list B) :=
  match l with
  | [] => Ok []
  | x :: l' => y ← f x; ys ← res_mapM f l'; Ok (y :: ys)
  end.

Fixpoint res_foldl {A B} (f : B → A → res B) (b : B) (l : list A) : res B :=
  match l with
  | [] => Ok b
  | x :: l' => b' ← f b x; res_foldl f b' l'
  end.

(** [max(s)] of a collection that may be empty. *)
Definition py_max (l : list Z) : res Z :=
  match l with
  | [] => Raise ValueError
  | x :: l' => Ok (foldl Z.max x l')
  end.

(** [min(xs, key=...)] once the keys are computed: the first element
    whose key is least. *)
Fixpoint first_least (best : Z) (bk : Z) (l : list (Z * Z)) : Z :=
  match l with
  | [] => best
  | (x, k) :: l' =>
      if bool_decide (k < bk) then first_least x k l' else first_least best bk l'
  end.

Definition py_min_by (key : Z → res Z) (l : list Z) : res Z :=
  match l with
  | [] => Raise ValueError
  | x :: l' =>
      k ← key x;
      ks ← res_mapM key l';
      Ok (first_least x k (zip l' ks))
  end.

(** [placements[r]] *)
Definition placement_at (placements : list Placement) (r : Z) : res Placement :=
  or_raise IndexError (py_index placements r).

(** The mutable variables shared by [choose] and [search]. *)
Record state := mkState {
  sol : list Z;
  used : gset Z;
  tries : Z
}.

Section solver.
(** The order in which Python iterates over a set of integers is not
    fixed by the language; the solver is modelled for an arbitrary one. *)
Variable set_order : gset Z → list Z.

Section closure.
(** The variables of [solve_exact_cover] that the nested functions
    close over. *)
Variable placements : list Placement.
Variable board_cols : gset Z.
Variable piece_cols : gmap string Z.
Variable universe : gset Z.
Variable col_to_rows : gmap Z (list Z).

(** [(set(pl.squares) & board_cols) | {piece_cols[pl.piece]}] *)
Definition cols_of (pl : Placement) : res (gset Z) :=
  pc ← or_raise KeyError (piece_cols !! piece pl);
  Ok ((list_to_set (squares pl) ∩ board_cols) ∪ {[pc]}).

Definition row_cols (row : Z) : res (gset Z) :=
  pl ← placement_at placements row;
  cols_of pl.

(** The key function of [choose]. *)
Definition slack (used : gset Z) (c : Z) : res Z :=
  rows ← or_raise KeyError (col_to_rows !! c);
  pls ← res_mapM (placement_at placements) rows;
  Ok (Z.of_nat (length
        (filter (fun pl : Placement =>
                   (list_to_set (squares pl) : gset Z) ∩ used = ∅) pls))).

Definition choose (used : gset Z) : res Z :=
  py_min_by (slack used) (set_order (universe ∖ used)).

(** [sol.pop()] *)
Definition pop (l : list Z) : res (list Z) :=
  match l with
  | [] => Raise IndexError
  | _ => Ok (removelast l)
  end.

(** The [for row in col_to_rows[col]] loop of [search]; [rec] is the
    recursive call. *)
Fixpoint search_rows (rec : state → res (bool * state))
    (rows : list Z) (st : state) : res (bool * state) :=
  match rows with
  | [] => Ok (false, st)
  | row :: rest =>
      let st1 := mkState (sol st) (used st) (tries st + 1) in
      rc ← row_cols row;
      if bool_decide (rc ∩ used st1 ≠ ∅) then search_rows rec rest st1
      else
        let st2 := mkState (sol st1 ++ [row]) (used st1 ∪ rc) (tries st1) in
        '(found, st3) ← rec st2;
        if (found : bool) then Ok (true, st3)
        else
          s ← pop (sol st3);
          search_rows rec rest (mkState s (used st3 ∖ rc) (tries st3))
  end.

(** [search()]; [fuel] bounds the number of nested calls. *)
Fixpoint search (fuel : nat) (st : state) : res (bool * state) :=
  match fuel with
  | O => OutOfFuel
  | S fuel' =>
      if bool_decide (used st = universe) then Ok (true, st)
      else
        col ← choose (used st);
        rows ← or_raise KeyError (col_to_rows !! col);
        search_rows (search fuel') rows st
  end.
End closure.

Definition board_cols_of (excluded : gset Cell) : gset Z :=
  list_to_set (cell_to_col <$> filter (fun xy => xy ∉ excluded) BOARD_CELLS).

Definition piece_cols_of (mx : Z) : gmap string Z :=
  foldl (fun (m : gmap string Z) '(i, p) => <[p := mx + 1 + i]> m) ∅
        (enumerate (sorted_strings (PIECES.*1))).

Definition universe_of (board_cols : gset Z) (piece_cols : gmap string Z)
    : gset Z :=
  board_cols ∪ list_to_set ((map_to_list piece_cols).*2).

(** The loop that fills [col_to_rows].  [col_to_rows[c]] exists for
    every [c] of [cols], which is a subset of the universe. *)
Definition col_to_rows_of (placements : list Placement)
    (board_cols : gset Z) (piece_cols : gmap string Z) (universe : gset Z)
    : res (gmap Z (list Z)) :=
  res_foldl (fun (m : gmap Z (list Z)) '(idx, pl) =>
               cols ← cols_of board_cols piece_cols pl;
               Ok (set_fold (fun c (m : gmap Z (list Z)) =>
                               alter (fun l => l ++ [idx]) c m) m cols))
            (gset_to_gmap [] universe) (enumerate placements).

Definition solve_exact_cover (fuel : nat) (placements : list Placement)
    (excluded : gset Cell) : res (option (list Placement) * Z) :=
  let board_cols := board_cols_of excluded in
  mx ← py_max (elements board_cols);
  let piece_cols := piece_cols_of mx in
  let universe := universe_of board_cols piece_cols in
  col_to_rows ← col_to_rows_of placements board_cols piece_cols universe;
  '(found, st) ← search placements board_cols piece_cols universe
                        col_to_rows fuel (mkState [] ∅ 0);
  if (found : bool)
  then sols ← res_mapM (placement_at placements) (sol st);
       Ok (Some sols, tries st)
  else Ok (None, tries st).
End solver.

(** One iteration order, used for the concrete runs: increasing.  (CPython
    iterates a set of small non-negative integers in increasing order as
    long as its hash table is larger than every element.) *)
Definition ascending (s : gset Z) : list Z := sorted_Z (elements s).

(** ** 4. Visualiser *)

Definition MONTHS : list string :=
  [ "January"; "February"; "March"; "April"; "May"; "June";
    "July"; "August"; "September"; "October"; "November"; "December" ]%string.

(** [l[i] = v] on a list: a negative index counts from the end, an index
    out of range is an [IndexError] ([None]). *)
Definition py_set {A} (l : list A) (i : Z) (v : A) : option (list A) :=
  if bool_decide (0 ≤ i)
  then if bool_decide (i < Z.of_nat (length l))
       then Some (<[Z.to_nat i := v]> l) else None
  else if bool_decide (- Z.of_nat (length l) ≤ i)
       then Some (<[Z.to_nat (Z.of_nat (length l) + i) := v]> l)
       else None.

(** [[["   " for _ in range(w)] for w in ROW_WIDTHS]] *)
Definition blank_board : list (list string) :=
  (fun w => (fun _ => "   "%string) <$> range w) <$> ROW_WIDTHS.

(** [board[r][c] = s]: the row object [board[r]] is updated in place. *)
Definition set_cell (board : list (list string)) (r c : Z) (s : string) : res (list (list string)) :=
  row ← or_raise IndexError (py_index board r);
  row' ← or_raise IndexError (py_set row c s);
  or_raise IndexError (py_set board r row').

(** [f" {pl.piece} "] *)
Definition label (pl : Placement) : string := (" " +:+ piece pl +:+ " ")%string.

(** The inner loop of [show_board], over the squares of one placement. *)
Definition paint (board : list (list string)) (pl : Placement) : res (list (list string)) :=
  res_foldl (fun (b : list (list string)) (idx : Z) =>
               '(r, c) ← or_raise IndexError (py_index BOARD_CELLS idx);
               set_cell b r c (label pl))
            board (squares pl).

(** [s.rjust(w)] *)
Definition rjust (w : nat) (s : string) : string :=
  Nat.iter (w - String.length s) (fun t => " " +:+ t)%string s.

(** [str(n)] of an integer is stdpp's [pretty]: the decimal digits, after
    a minus sign for a negative number.  The board as [show_board] has it
    before printing. *)
Definition board_of (solution : list Placement) (month day : Z) : res (list (list string)) :=
  b ← res_foldl paint blank_board solution;
  name ← or_raise IndexError (py_index MONTHS (month - 1));
  b ← set_cell b (month_cell month).1 (month_cell month).2
               (String.substring 0 3 name);
  set_cell b (day_cell day).1 (day_cell day).2 (rjust 3 (pretty day)).

(** The lines that [show_board] prints. *)
Definition show_board (solution : list Placement) (month day : Z)
    : res (list string) :=
  b ← board_of solution month day;
  Ok (""%string :: "Solution layout:"%string :: (String.concat " " <$> b)).

(** ** 5. Main *)

(** One dictionary of the structured answer. *)
Record entry := mkEntry {
  e_piece : string;
  e_row : Z;
  e_col : Z;
  e_rotation : Z;
  e_flipped : bool
}.

Definition entry_of (p : Placement) : entry :=
  mkEntry (piece p) (top_left p).1 (top_left p).2 (rotation p) (flipped p).

(** [sorted(solution, key=lambda x: x.piece)]: Python's sort is stable and
    compares keys with [<] only. *)
Definition string_lt (a b : string) : Prop := String.ltb a b = true.

#[global] Instance string_lt_dec : RelDecision string_lt.
Proof. intros a b. unfold string_lt. apply _. Defined.

Fixpoint insert_by_piece (p : Placement) (l : list Placement) : list Placement :=
  match l with
  | [] => [p]
  | q :: l' =>
      if bool_decide (string_lt (piece q) (piece p))
      then q :: insert_by_piece p l'
      else p :: l
  end.

Definition sorted_by_piece (l : list Placement) : list Placement :=
  foldr insert_by_piece [] l.

(** What [main] prints once the date is parsed, without the run time:
    either "No solution." and the tries, or the structured answer, the
    lines of the board and the tries. *)
Inductive report :=
  | NoSolution (tries : Z)
  | Solution (structured : list entry) (layout : list string) (tries : Z).

Definition main_body (set_order : gset Z → list Z) (fuel : nat)
    (month day : Z) : res report :=
  let exposed : gset Cell := {[month_cell month; day_cell day]} in
  let placements := generate_placements exposed in
  '(solution, tries) ← solve_exact_cover set_order fuel placements exposed;
  match solution with
  | None => Ok (NoSolution tries)
  | Some sol =>
      let structured := entry_of <$> sorted_by_piece sol in
      layout ← show_board sol month day;
      Ok (Solution structured layout tries)
  end.

(** ** Reference definitions for the orientation generator *)

(** The candidate produced for one (flip, rotation) combination. *)
Definition candidate (base : CoordSet) (fr : bool * Z) : Transform :=
  let '(fl, rot) := fr in
  (normalize (foldl (fun cs _ => rotate cs)
                    (if fl then flip base else base) (range (rot / 90))),
   rot, fl).

(** The eight combinations in enumeration order: flip outer, rotation
    inner. *)
Definition combinations : list (bool * Z) :=
  fl ← [false; true]; rot ← [0; 90; 180; 270]; [(fl, rot)].

Definition candidates (g : RawPiece) : list Transform :=
  candidate (grid_to_coords g) <$> combinations.

(** The sublist of first occurrences: a candidate is kept iff its
    coordinate set is not that of an earlier candidate ([prev] holds the
    coordinate sets met so far). *)
Fixpoint first_seen (prev : list CoordSet) (l : list Transform)
    : list Transform :=
  match l with
  | [] => []
  | t :: l' =>
      (if bool_decide (t.1.1 ∈ prev) then [] else [t])
        ++ first_seen (t.1.1 :: prev) l'
  end.

(** The body of the inner loop only looks at the candidate. *)
Definition emit (st : gset CoordSet * list Transform) (t : Transform)
    : gset CoordSet * list Transform :=
  if bool_decide (t.1.1 ∉ st.1) then ({[t.1.1]} ∪ st.1, st.2 ++ [t]) else st.

(** Every emitted coordinate set of the eight pieces is already in normal
    form, has non-negative coordinates without repetition and as many
    squares as the base shape. *)
Definition orientation_ok (g : RawPiece) (t : Transform) : Prop :=
  normalize t.1.1 = t.1.1
  ∧ NoDup t.1.1
  ∧ length t.1.1 = length (grid_to_coords g)
  ∧ Forall (fun rc : Z * Z => 0 ≤ rc.1 ≤ max_of (t.1.1.*1)
                              ∧ 0 ≤ rc.2 ≤ max_of (t.1.1.*2)) t.1.1.

#[global] Instance orientation_ok_dec g t : Decision (orientation_ok g t).
Proof. unfold orientation_ok. apply _. Defined.

(** ** Reference definitions for the solver *)

#[global] Instance Placement_eq_dec : EqDecision Placement.
Proof. solve_decision. Defined.

(** The synthetic columns, one per piece tag. *)
Definition piece_col_set (piece_cols : gmap string Z) : gset Z :=
  list_to_set ((map_to_list piece_cols).*2).

(** [tiling rows U]: the rows were pushed one after the other, each with
    columns disjoint from those already covered, and [U] is the set of
    columns they cover together. *)
Inductive tiling (placements : list Placement) (board_cols : gset Z)
    (piece_cols : gmap string Z) : list Z → gset Z → Prop :=
  | tiling_nil : tiling placements board_cols piece_cols [] ∅
  | tiling_snoc rows U row rc :
      tiling placements board_cols piece_cols rows U →
      row_cols placements board_cols piece_cols row = Ok rc →
      rc ## U →
      tiling placements board_cols piece_cols (rows ++ [row]) (U ∪ rc).

(** A call that reports failure leaves [sol] and [used] as it found them. *)
Definition restores (rec : state → res (bool * state)) : Prop :=
  ∀ st st', rec st = Ok (false, st') → sol st' = sol st ∧ used st' = used st.

(** A call that reports success has covered the universe by a tiling. *)
Definition covers (placements : list Placement) (board_cols : gset Z)
    (piece_cols : gmap string Z) (universe : gset Z)
    (rec : state → res (bool * state)) : Prop :=
  ∀ st st',
    tiling placements board_cols piece_cols (sol st) (used st) →
    rec st = Ok (true, st') →
    tiling placements board_cols piece_cols (sol st') (used st')
    ∧ used st' = universe.

(** On success nothing is undone: [sol] only grows and [used] only gains
    columns. *)
Definition keeps (rec : state → res (bool * state)) : Prop :=
  ∀ st st', rec st = Ok (true, st') →
            sol st `prefix_of` sol st' ∧ used st ⊆ used st'.

(** An outcome other than the exhausted budget: the code itself finished,
    with a value or with an exception. *)
Definition finishes {A} (m : res A) : Prop := m ≠ OutOfFuel.

(** The number of piece columns not yet used: each nested call of
    [search] is entered with one more of them used. *)
Definition pieces_left (piece_cols : gmap string Z) (used : gset Z) : nat :=
  size (piece_col_set piece_cols ∖ used).

(** A row identifier is usable when [placements[r]] exists and its piece
    has a column. *)
Definition row_ok (placements : list Placement) (piece_cols : gmap string Z)
    (r : Z) : Prop :=
  ∃ pl, placement_at placements r = Ok pl ∧ is_Some (piece_cols !! piece pl).

(** The index [col_to_rows] has an entry for every column of the universe
    and lists usable rows only. *)
Definition index_ok (placements : list Placement) (piece_cols : gmap string Z)
    (universe : gset Z) (col_to_rows : gmap Z (list Z)) : Prop :=
  (∀ c, c ∈ universe → is_Some (col_to_rows !! c))
  ∧ (∀ c rows, col_to_rows !! c = Some rows →
               Forall (row_ok placements piece_cols) rows).

(** A call that reports success has used every column of the universe. *)
Definition fills (universe : gset Z) (rec : state → res (bool * state)) : Prop :=
  ∀ st st', rec st = Ok (true, st') → used st' = universe.

(** The rows of a column that do not conflict with [used]: none of their
    columns, board columns and piece column alike, is used.  This is the
    test of the loop in [search]. *)
Definition viable (placements : list Placement) (board_cols : gset Z)
    (piece_cols : gmap string Z) (used : gset Z) (row : Z) : bool :=
  match row_cols placements board_cols piece_cols row with
  | Ok rc => bool_decide (rc ∩ used = ∅)
  | _ => false
  end.

Definition viable_rows (placements : list Placement) (board_cols : gset Z)
    (piece_cols : gmap string Z) (col_to_rows : gmap Z (list Z))
    (used : gset Z) (c : Z) : list Z :=
  match col_to_rows !! c with
  | Some rows =>
      filter (fun r => Is_true (viable placements board_cols piece_cols used r)) rows
  | None => []
  end.

(** The test [if row_cols & used: continue] of the loop in [search]. *)
Definition conflicts (placements : list Placement) (board_cols : gset Z)
    (piece_cols : gmap string Z) (used : gset Z) (row : Z) : bool :=
  match row_cols placements board_cols piece_cols row with
  | Ok rc => bool_decide (rc ∩ used ≠ ∅)
  | _ => false
  end.

(** [first_call st row st2]: [search], entered in state [st], skips the
    candidates before [row] because they conflict, pushes [row] and calls
    itself in state [st2]. *)
Definition first_call (set_order : gset Z → list Z)
    (placements : list Placement) (board_cols : gset Z)
    (piece_cols : gmap string Z) (universe : gset Z)
    (col_to_rows : gmap Z (list Z)) (st : state) (row : Z) (st2 : state)
    : Prop :=
  used st ≠ universe
  ∧ ∃ col pre post rc,
      choose set_order placements universe col_to_rows (used st) = Ok col
      ∧ col_to_rows !! col = Some (pre ++ row :: post)
      ∧ Forall (fun r => conflicts placements board_cols piece_cols (used st) r
                         = true) pre
      ∧ row_cols placements board_cols piece_cols row = Ok rc
      ∧ rc ∩ used st = ∅
      ∧ st2 = mkState (sol st ++ [row]) (used st ∪ rc)
                      (tries st + Z.of_nat (length pre) + 1).

(** The instance of 5 May, used for the concrete runs. *)
Definition may5 : gset Cell := {[month_cell 5; day_cell 5]}.
Definition may5_placements : list Placement :=
  Eval vm_compute in generate_placements may5.
Definition may5_board_cols : gset Z := Eval vm_compute in board_cols_of may5.
Definition may5_piece_cols : gmap string Z := Eval vm_compute in piece_cols_of 42.
Definition may5_universe : gset Z :=
  Eval vm_compute in universe_of may5_board_cols may5_piece_cols.
Definition may5_col_to_rows : gmap Z (list Z) :=
  Eval vm_compute in
    match col_to_rows_of may5_placements may5_board_cols may5_piece_cols
            may5_universe with
    | Ok m => m
    | _ => ∅
    end.

(** The state after pushing the given rows, one after the other. *)
Definition may5_push (st : state) (row : Z) : state :=
  match row_cols may5_placements may5_board_cols may5_piece_cols row with
  | Ok rc => mkState (sol st ++ [row]) (used st ∪ rc) (tries st)
  | _ => st
  end.

Definition may5_state (rows : list Z) (n : Z) : state :=
  let st := foldl may5_push (mkState [] ∅ 0) rows in
  mkState (sol st) (used st) n.

(** The instance of 24 May and the solution found for it. *)
Definition may24 : gset Cell := {[month_cell 5; day_cell 24]}.
Definition may24_solution :=
  Eval vm_compute in
    match solve_exact_cover ascending 9 (generate_placements may24) may24 with
    | Ok (Some pls, _) => pls
    | _ => []
    end.

Definition may5_search (set_order : gset Z → list Z) :=
  search set_order may5_placements may5_board_cols may5_piece_cols
    may5_universe may5_col_to_rows.
Definition may5_choose (set_order : gset Z → list Z) :=
  choose set_order may5_placements may5_universe may5_col_to_rows.
Definition may5_first_call (set_order : gset Z → list Z) :=
  first_call set_order may5_placements may5_board_cols may5_piece_cols
    may5_universe may5_col_to_rows.
Definition may5_viable_rows :=
  viable_rows may5_placements may5_board_cols may5_piece_cols may5_col_to_rows.

(** ** Reference definitions for the visualiser *)

(** The content of a cell of the board. *)
Definition cell_at (b : list (list string)) (xy : Cell) : option string :=
  row ← py_index b xy.1; py_index row xy.2.

(** The board has the seven rows of the puzzle, with their widths. *)
Definition well_shaped (b : list (list string)) : Prop :=
  length <$> b = Z.to_nat <$> ROW_WIDTHS.

(** Every square of the placement is the column of a valid cell. *)
Definition on_board (p : Placement) : Prop :=
  Forall (fun idx => ∃ xy, valid_cell xy ∧ idx = cell_to_col xy) (squares p).

(** ** Reference definitions for the exhaustiveness of the search *)

(** [completion used R]: the rows of [R] (positions in the placement
    list) have pairwise disjoint column sets, none of which meets [used],
    and together they cover every column of the universe that is not in
    [used]. *)
Definition completion (placements : list Placement) (board_cols : gset Z)
    (piece_cols : gmap string Z) (universe : gset Z) (used : gset Z)
    (R : gset Z) : Prop :=
  (∀ r, r ∈ R →
     0 ≤ r ∧ ∃ rc, row_cols placements board_cols piece_cols r = Ok rc
                   ∧ rc ## used)
  ∧ (∀ r1 r2 rc1 rc2, r1 ∈ R → r2 ∈ R → r1 ≠ r2 →
       row_cols placements board_cols piece_cols r1 = Ok rc1 →
       row_cols placements board_cols piece_cols r2 = Ok rc2 →
       rc1 ## rc2)
  ∧ (∀ c, c ∈ universe → c ∉ used →
       ∃ r rc, r ∈ R ∧ row_cols placements board_cols piece_cols r = Ok rc
               ∧ c ∈ rc).

(** An exact cover of the universe built for [excluded] by rows of the
    placement list. *)
Definition exact_cover (placements : list Placement) (excluded : gset Cell)
    (R : gset Z) : Prop :=
  ∃ mx, py_max (elements (board_cols_of excluded)) = Ok mx
        ∧ completion placements (board_cols_of excluded) (piece_cols_of mx)
            (universe_of (board_cols_of excluded) (piece_cols_of mx)) ∅ R.

(** The index lists, under every column of the universe, every row that
    has that column. *)
Definition index_complete (placements : list Placement) (board_cols : gset Z)
    (piece_cols : gmap string Z) (universe : gset Z)
    (col_to_rows : gmap Z (list Z)) : Prop :=
  ∀ r rc c, 0 ≤ r →
    row_cols placements board_cols piece_cols r = Ok rc →
    c ∈ rc → c ∈ universe →
    ∃ rows, col_to_rows !! c = Some rows ∧ r ∈ rows.

(** A call that reports failure was entered in a state that no set of
    rows completes. *)
Definition exhaustive (placements : list Placement) (board_cols : gset Z)
    (piece_cols : gmap string Z) (universe : gset Z)
    (rec : state → res (bool * state)) : Prop :=
  ∀ st st', rec st = Ok (false, st') →
            ∀ R, ¬ completion placements board_cols piece_cols universe
                     (used st) R.

(** Across a call, [tries] grows at least by the number of rows that the
    call leaves pushed. *)
Definition counts (rec : state → res (bool * state)) : Prop :=
  ∀ st b st', rec st = Ok (b, st') →
    Z.of_nat (length (sol st')) - Z.of_nat (length (sol st))
      ≤ tries st' - tries st
    ∧ tries st ≤ tries st'.

(** The rows on [sol] are rows of the index. *)
Definition pushes_from (P : Z → Prop) (rec : state → res (bool * state)) : Prop :=
  ∀ st b st', Forall P (sol st) → rec st = Ok (b, st') → Forall P (sol st').

(** A second iteration order for sets: decreasing. *)
Definition descending (s : gset Z) : list Z := reverse (ascending s).

(** The generated placements of 24 May in which the piece is neither
    flipped nor turned by a quarter: a list that has rows for every
    column but no exact cover. *)
Definition may24_upright : list Placement :=
  filter (fun p => flipped p = false ∧ (rotation p = 0 ∨ rotation p = 180))
         (generate_placements may24).

(** The solution found when the placement list is [may24_solution]
    itself. *)
Definition may24_reordered :=
  Eval vm_compute in
    match solve_exact_cover ascending 9 may24_solution may24 with
    | Ok (Some pls, _) => pls
    | _ => []
    end.

(** ** Reference definitions for the placement generator *)

(** The cell with index [idx], [BOARD_CELLS[idx]], is not excluded. *)
Definition off_excluded (excluded : gset Cell) (idx : Z) : Prop :=
  match py_index BOARD_CELLS idx with
  | Some xy => xy ∉ excluded
  | None => True
  end.

#[global] Instance off_excluded_dec excluded idx :
  Decision (off_excluded excluded idx).
Proof. unfold off_excluded. destruct (py_index BOARD_CELLS idx); apply _. Defined.

(** No square of the placement is the index of an excluded cell. *)
Definition avoids (excluded : gset Cell) (p : Placement) : Prop :=
  Forall (off_excluded excluded) (squares p).

#[global] Instance avoids_dec excluded p : Decision (avoids excluded p).
Proof. unfold avoids. apply _. Defined.

(** ** Reference definitions for the symmetries of a shape *)

(** The coordinates moved by [(dr, dc)]. *)
Definition translate (dr dc : Z) (cs : CoordSet) : CoordSet :=
  (fun '(r, c) => (r + dr, c + dc)) <$> cs.

(** [k] quarter turns. *)
Definition turns (k : nat) (cs : CoordSet) : CoordSet := Nat.iter k rotate cs.

(** Two coordinate tuples have the same normal form: the same squares up
    to a translation and the order of the tuple. *)
Definition same_shape (cs cs' : CoordSet) : Prop := normalize cs = normalize cs'.

(** * Properties *)

(** ** Board geometry *)

Lemma elem_of_range (x n : Z) : x ∈ range n ↔ 0 ≤ x < n.
Proof. unfold range. rewrite elem_of_seqZ. lia. Qed.

(** Case analysis on an integer known to lie in a short literal range. *)
Ltac cases_in_range H :=
  match type of H with
  | ?x ∈ range ?n =>
      let l := eval vm_compute in (range n) in
      change (x ∈ l) in H;
      repeat (apply elem_of_cons in H as [-> | H]);
      [ .. | by apply elem_of_nil in H ]
  end.

Lemma BOARD_CELLS_length : length BOARD_CELLS = 43%nat.
Proof. reflexivity. Qed.

Lemma BOARD_CELLS_valid : Forall valid_cell BOARD_CELLS.
Proof. apply (bool_decide_unpack _). vm_compute. exact I. Qed.

Lemma valid_cell_board (xy : Cell) : valid_cell xy ↔ xy ∈ BOARD_CELLS.
Proof.
  split.
  - destruct xy as [r c]. intros [Hr Hc]. simpl in Hr, Hc.
    assert (Hr' : r ∈ range 7) by (apply elem_of_range; simpl in Hr; lia).
    cases_in_range Hr'; vm_compute row_width in Hc;
      (assert (Hc' : c ∈ range 7) by (apply elem_of_range; lia));
      cases_in_range Hc'; try lia;
      apply (bool_decide_unpack _); vm_compute; exact I.
  - intros Hin. exact (proj1 (Forall_forall _ _) BOARD_CELLS_valid _ Hin).
Qed.

(** Every cell of the board is sent to its position in [BOARD_CELLS]. *)
Lemma board_tables_inverse :
  Forall (fun '(i, xy) => CELL_TO_COL !! xy = Some i) (enumerate BOARD_CELLS).
Proof. apply (bool_decide_unpack _). vm_compute. exact I. Qed.

Lemma enumerate_lookup {A} (l : list A) (i : Z) (x : A) :
  (i, x) ∈ enumerate l ↔ 0 ≤ i ∧ l !! Z.to_nat i = Some x.
Proof.
  unfold enumerate. rewrite list_elem_of_lookup. split.
  - intros [k Hk]. apply lookup_zip_with_Some in Hk as (a & b & Heq & Ha & Hb).
    inversion Heq; subst. apply lookup_seqZ in Ha as [-> _].
    split; [lia|]. by replace (Z.to_nat (0 + Z.of_nat k)) with k by lia.
  - intros [Hi Hx]. exists (Z.to_nat i).
    apply lookup_zip_with_Some. exists i, x. split_and!; [done| |done].
    apply lookup_seqZ. apply lookup_lt_Some in Hx. lia.
Qed.

Lemma CELL_TO_COL_dom (xy : Cell) : is_Some (CELL_TO_COL !! xy) ↔ xy ∈ BOARD_CELLS.
Proof.
  rewrite <- elem_of_dom.
  assert (Hd : dom CELL_TO_COL = list_to_set BOARD_CELLS).
  { apply (bool_decide_unpack _). vm_compute. exact I. }
  rewrite Hd. apply elem_of_list_to_set.
Qed.

Lemma CELL_TO_COL_index (xy : Cell) (i : Z) :
  CELL_TO_COL !! xy = Some i ↔ 0 ≤ i ∧ py_index BOARD_CELLS i = Some xy.
Proof.
  split.
  - intros Hi.
    assert (Hin : xy ∈ BOARD_CELLS) by (apply CELL_TO_COL_dom; eauto).
    apply list_elem_of_lookup in Hin as [k Hk].
    assert (He : (Z.of_nat k, xy) ∈ enumerate BOARD_CELLS).
    { apply enumerate_lookup. split; [lia|]. by rewrite Nat2Z.id. }
    pose proof (proj1 (Forall_forall _ _) board_tables_inverse _ He) as Hk'.
    simpl in Hk'. rewrite Hk' in Hi. inversion Hi; subst.
    split; [lia|].
    unfold py_index. rewrite bool_decide_true by lia. by rewrite Nat2Z.id.
  - unfold py_index. intros [Hpos Hi].
    rewrite bool_decide_true in Hi by done.
    assert (He : (i, xy) ∈ enumerate BOARD_CELLS) by by apply enumerate_lookup.
    exact (proj1 (Forall_forall _ _) board_tables_inverse _ He).
Qed.

Lemma py_index_range {A} (l : list A) (i : Z) :
  0 ≤ i < Z.of_nat (length l) → is_Some (py_index l i).
Proof.
  intros Hi. unfold py_index. rewrite bool_decide_true by lia.
  apply lookup_lt_is_Some. lia.
Qed.

(** C9.  The two board tables are mutually inverse: every valid cell
    [(r, c)] (that is, [c < ROW_WIDTHS[r]]) has a column index, and
    [BOARD_CELLS] at that index is the cell again; every index [i] with
    [0 <= i < 43] holds a cell whose entry in [CELL_TO_COL] is [i]; and
    [CELL_TO_COL] is defined exactly on the valid cells. *)
Theorem board_index_bijection :
  (∀ xy : Cell, valid_cell xy →
     ∃ i, CELL_TO_COL !! xy = Some i ∧ py_index BOARD_CELLS i = Some xy)
  ∧ (∀ i : Z, 0 ≤ i < 43 →
     ∃ xy, py_index BOARD_CELLS i = Some xy ∧ CELL_TO_COL !! xy = Some i)
  ∧ (∀ xy : Cell, is_Some (CELL_TO_COL !! xy) ↔ valid_cell xy).
Proof.
  split_and!.
  - intros xy Hv. apply valid_cell_board, CELL_TO_COL_dom in Hv as [i Hi].
    exists i. split; [done|]. by apply CELL_TO_COL_index in Hi as [_ ?].
  - intros i Hi.
    destruct (py_index_range BOARD_CELLS i) as [xy Hxy];
      [by rewrite BOARD_CELLS_length|].
    exists xy. split; [done|]. apply CELL_TO_COL_index. split; [lia|done].
  - intros xy. by rewrite CELL_TO_COL_dom, valid_cell_board.
Qed.

Lemma cell_to_col_spec (xy : Cell) :
  valid_cell xy →
  CELL_TO_COL !! xy = Some (cell_to_col xy)
  ∧ 0 ≤ cell_to_col xy < 43
  ∧ py_index BOARD_CELLS (cell_to_col xy) = Some xy.
Proof.
  intros Hv. apply valid_cell_board, CELL_TO_COL_dom in Hv as [i Hi].
  unfold cell_to_col. rewrite Hi. simpl.
  apply CELL_TO_COL_index in Hi as [Hpos Hidx].
  split; [done|]. split; [|done].
  unfold py_index in Hidx. rewrite bool_decide_true in Hidx by done.
  apply lookup_lt_Some in Hidx. rewrite BOARD_CELLS_length in Hidx. lia.
Qed.

Lemma cell_to_col_inj (a b : Cell) :
  valid_cell a → valid_cell b → cell_to_col a = cell_to_col b → a = b.
Proof.
  intros Ha Hb Heq.
  apply cell_to_col_spec in Ha as (_ & _ & Ha).
  apply cell_to_col_spec in Hb as (_ & _ & Hb).
  rewrite Heq in Ha. congruence.
Qed.

(** C10.  For a month [1..12] and a day [1..31], [month_cell] and
    [day_cell] are valid board cells, the month cell lies in rows 0-1 and
    the day cell in rows 2-6, so that the two cells are distinct. *)
Theorem date_cells_valid_distinct (m d : Z) :
  1 ≤ m ≤ 12 → 1 ≤ d ≤ 31 →
  valid_cell (month_cell m) ∧ valid_cell (day_cell d)
  ∧ 0 ≤ (month_cell m).1 ≤ 1 ∧ 2 ≤ (day_cell d).1 ≤ 6
  ∧ month_cell m ≠ day_cell d.
Proof.
  intros Hm Hd. unfold month_cell, day_cell, valid_cell.
  repeat case_bool_decide; simpl;
    repeat match goal with
           | |- context [row_width ?r] =>
               let w := eval vm_compute in (row_width r) in
               change (row_width r) with w
           end;
    split_and!; try lia; intros [=]; lia.
Qed.

Lemma date_cells_valid_distinct_witness :
  valid_cell (month_cell 7) ∧ valid_cell (day_cell 6)
  ∧ 0 ≤ (month_cell 7).1 ≤ 1 ∧ 2 ≤ (day_cell 6).1 ≤ 6
  ∧ month_cell 7 ≠ day_cell 6.
Proof. apply (date_cells_valid_distinct 7 6); lia. Defined.

(** ** Orientation generator *)

Lemma transform_step_emit (base : CoordSet) (fl : bool)
    (st : gset CoordSet * list Transform) (rot : Z) :
  transform_step (if fl then flip base else base) fl st rot
  = emit st (candidate base (fl, rot)).
Proof. done. Qed.

Lemma all_transforms_emit (g : RawPiece) :
  all_transforms g = (foldl emit (∅, []) (candidates g)).2.
Proof.
  unfold all_transforms, candidates.
  change combinations with
    [(false, 0); (false, 90); (false, 180); (false, 270);
     (true, 0); (true, 90); (true, 180); (true, 270)].
  cbn [foldl fmap list_fmap].
  generalize (grid_to_coords g). intros base.
  rewrite <- !(transform_step_emit base true).
  rewrite <- !(transform_step_emit base false).
  done.
Qed.

Lemma foldl_emit (l : list Transform) :
  ∀ (seen : gset CoordSet) (out : list Transform) (prev : list CoordSet),
    (∀ k, k ∈ seen ↔ k ∈ prev) →
    (foldl emit (seen, out) l).2 = out ++ first_seen prev l.
Proof.
  induction l as [|t l IH]; intros seen out prev Hseen; simpl.
  - by rewrite app_nil_r.
  - unfold emit at 2. simpl.
    destruct (decide (t.1.1 ∈ prev)) as [Hin|Hnin].
    + rewrite bool_decide_false by (rewrite Hseen; tauto).
      rewrite (bool_decide_true (t.1.1 ∈ prev)) by done. simpl.
      apply IH. intros k. rewrite Hseen, elem_of_cons.
      split; [tauto|]. by intros [->|?].
    + rewrite bool_decide_true by (rewrite Hseen; tauto).
      rewrite (bool_decide_false (t.1.1 ∈ prev)) by done. simpl.
      rewrite (IH _ _ (t.1.1 :: prev)).
      * by rewrite <- app_assoc.
      * intros k. rewrite elem_of_union, elem_of_singleton, Hseen, elem_of_cons.
        tauto.
Qed.

Lemma all_transforms_first_seen (g : RawPiece) :
  all_transforms g = first_seen [] (candidates g).
Proof.
  rewrite all_transforms_emit.
  rewrite (foldl_emit _ ∅ [] []); [done|].
  intros k. rewrite elem_of_nil. set_solver.
Qed.




Lemma orientations_ok :
  Forall (fun ng : string * RawPiece =>
            Forall (orientation_ok ng.2) (all_transforms ng.2)) PIECES.
Proof. apply (bool_decide_unpack _). vm_compute. exact I. Qed.

Lemma orientation_ok_in (name : string) (g : RawPiece) (t : Transform) :
  (name, g) ∈ PIECES → t ∈ all_transforms g → orientation_ok g t.
Proof.
  intros Hg Ht.
  pose proof (proj1 (Forall_forall _ _) orientations_ok _ Hg) as Hall.
  exact (proj1 (Forall_forall _ _) Hall _ Ht).
Qed.



(** ** Placement generator *)

Lemma generate_placements_elem (excluded : gset Cell) (p : Placement) :
  p ∈ generate_placements excluded ↔
  ∃ name grid coords rot fl tr tc idxs,
    (name, grid) ∈ PIECES
    ∧ (coords, rot, fl) ∈ all_transforms grid
    ∧ tr ∈ range (7 - max_of (coords.*1))
    ∧ tc ∈ range (row_width tr - max_of (coords.*2))
    ∧ cell_idxs excluded tr tc coords = Some idxs
    ∧ p = new_Placement name idxs (tr, tc) rot fl.
Proof.
  unfold generate_placements. rewrite list_elem_of_bind. split.
  - intros ([name grid] & Hp & Hng).
    apply list_elem_of_bind in Hp as ([[coords rot] fl] & Hp & Ht).
    apply list_elem_of_bind in Hp as (tr & Hp & Htr).
    apply list_elem_of_bind in Hp as (tc & Hp & Htc).
    destruct (cell_idxs excluded tr tc coords) as [idxs|] eqn:Hidx;
      [|by apply elem_of_nil in Hp].
    apply list_elem_of_singleton in Hp.
    exists name, grid, coords, rot, fl, tr, tc, idxs. done.
  - intros (name & grid & coords & rot & fl & tr & tc & idxs
            & Hng & Ht & Htr & Htc & Hidx & ->).
    exists (name, grid). split; [|done].
    apply list_elem_of_bind. exists (coords, rot, fl). split; [|done].
    apply list_elem_of_bind. exists tr. split; [|done].
    apply list_elem_of_bind. exists tc. split; [|done].
    rewrite Hidx. by apply list_elem_of_singleton.
Qed.

Lemma cell_idxs_Some (excluded : gset Cell) (tr tc : Z) (coords : CoordSet)
    (idxs : list Z) :
  cell_idxs excluded tr tc coords = Some idxs ↔
  Forall (fun rc : Z * Z => tc + rc.2 < row_width (tr + rc.1)
                            ∧ (tr + rc.1, tc + rc.2) ∉ excluded) coords
  ∧ idxs = (fun rc : Z * Z => cell_to_col (tr + rc.1, tc + rc.2)) <$> coords.
Proof.
  revert idxs. induction coords as [|[pr pc] rest IH]; intros idxs; simpl.
  - split; [by intros [= <-]|by intros [_ ->]].
  - destruct (bool_decide (row_width (tr + pr) ≤ tc + pc)) eqn:Hw; simpl.
    { apply bool_decide_eq_true in Hw. split; [done|].
      intros [Hall _]. apply Forall_cons in Hall as [[Hlt _] _]. simpl in Hlt. lia. }
    apply bool_decide_eq_false in Hw.
    destruct (bool_decide ((tr + pr, tc + pc) ∈ excluded)) eqn:Hex; simpl.
    { apply bool_decide_eq_true in Hex. split; [done|].
      intros [Hall _]. by apply Forall_cons in Hall as [[_ Hn] _]. }
    apply bool_decide_eq_false in Hex.
    destruct (cell_idxs excluded tr tc rest) as [idxs'|] eqn:Hrest; simpl.
    + destruct (IH idxs') as [IH1 _]. destruct (IH1 eq_refl) as [Hall ->].
      split.
      * intros [= <-]. split; [|done]. constructor; [|done]. simpl. split; [lia|done].
      * by intros [_ ->].
    + split; [done|]. intros [Hall ->]. apply Forall_cons in Hall as [_ Hall].
      destruct (IH ((fun rc : Z * Z => cell_to_col (tr + rc.1, tc + rc.2)) <$> rest))
        as [_ IH2].
      by specialize (IH2 (conj Hall eq_refl)).
Qed.

Lemma rotate_length (cs : CoordSet) : length (rotate cs) = length cs.
Proof. unfold rotate. by rewrite length_fmap. Qed.

Lemma flip_length (cs : CoordSet) : length (flip cs) = length cs.
Proof. unfold flip. by rewrite length_fmap. Qed.

Lemma PIECES_sizes :
  Forall (fun ng : string * RawPiece =>
            length (grid_to_coords ng.2)
            = if decide (ng.1 = "E"%string) then 6%nat else 5%nat) PIECES.
Proof. apply (bool_decide_unpack _). vm_compute. exact I. Qed.

(** Every row index the generator reads from [ROW_WIDTHS], and every cell
    it looks up in [CELL_TO_COL], is one of the board. *)
Lemma anchor_rows_in_range (name : string) (grid : RawPiece) (t : Transform)
    (tr tc : Z) (rc : Z * Z) :
  (name, grid) ∈ PIECES → t ∈ all_transforms grid →
  tr ∈ range (7 - max_of (t.1.1.*1)) →
  tc ∈ range (row_width tr - max_of (t.1.1.*2)) →
  rc ∈ t.1.1 →
  0 ≤ tr < 7 ∧ 0 ≤ tr + rc.1 < 7 ∧ 0 ≤ tc + rc.2.
Proof.
  intros Hng Ht Htr Htc Hrc.
  destruct (orientation_ok_in name grid t Hng Ht) as (_ & _ & _ & Hall).
  pose proof (proj1 (Forall_forall _ _) Hall _ Hrc) as [Hr Hc].
  apply elem_of_range in Htr, Htc. lia.
Qed.

(** The board cells under a generated placement. *)
Lemma placement_cells (excluded : gset Cell) (p : Placement) :
  p ∈ generate_placements excluded →
  ∃ grid cells,
    (piece p, grid) ∈ PIECES
    ∧ squares p ≡ₚ cell_to_col <$> cells
    ∧ NoDup cells
    ∧ length cells = length (grid_to_coords grid)
    ∧ Forall (fun xy => valid_cell xy ∧ xy ∉ excluded) cells.
Proof.
  intros Hp. apply generate_placements_elem in Hp
    as (name & grid & coords & rot & fl & tr & tc & idxs
        & Hng & Ht & Htr & Htc & Hidx & ->).
  apply cell_idxs_Some in Hidx as [Hall ->].
  destruct (orientation_ok_in name grid _ Hng Ht) as (_ & Hnd & Hlen & _).
  simpl in Hnd, Hlen.
  exists grid, ((fun rc : Z * Z => (tr + rc.1, tc + rc.2)) <$> coords).
  split_and!.
  - done.
  - simpl. unfold sorted_Z. rewrite merge_sort_Permutation.
    by rewrite <- list_fmap_compose.
  - apply NoDup_fmap_2; [|done]. intros [] [] [=]. f_equal; lia.
  - by rewrite length_fmap.
  - apply Forall_fmap, Forall_forall. intros rc Hrc. simpl.
    pose proof (proj1 (Forall_forall _ _) Hall _ Hrc) as [Hw Hex].
    destruct (anchor_rows_in_range name grid _ tr tc rc Hng Ht Htr Htc Hrc)
      as (_ & Hr & Hc).
    split; [|done]. split; simpl; [done|lia].
Qed.

(** C5.  Every placement emitted by [generate_placements] (for any
    excluded set, in particular one of two distinct valid cells) occupies
    only valid board cells outside the excluded set; its column indices
    are pairwise distinct and as many as the filled cells of the piece's
    base shape: 6 for piece E and 5 for every other piece. *)
Theorem generate_placements_legal (excluded : gset Cell) (p : Placement) :
  p ∈ generate_placements excluded →
  (∀ idx, idx ∈ squares p →
     ∃ xy, py_index BOARD_CELLS idx = Some xy ∧ valid_cell xy ∧ xy ∉ excluded)
  ∧ NoDup (squares p)
  ∧ (∃ grid, (piece p, grid) ∈ PIECES
             ∧ length (squares p) = length (grid_to_coords grid))
  ∧ length (squares p) = if decide (piece p = "E"%string) then 6%nat else 5%nat.
Proof.
  intros Hp.
  destruct (placement_cells excluded p Hp)
    as (grid & cells & Hng & Hperm & Hnd & Hlen & Hall).
  rewrite Forall_forall in Hall.
  split_and!.
  - intros idx Hidx. rewrite Hperm in Hidx.
    apply list_elem_of_fmap in Hidx as (xy & -> & Hxy).
    destruct (Hall xy Hxy) as [Hv Hex].
    exists xy. split_and!; [|done|done]. by apply cell_to_col_spec.
  - rewrite Hperm. apply NoDup_fmap_2_strong; [|done].
    intros a b Ha Hb Heq.
    apply cell_to_col_inj in Heq; [done|by apply Hall..].
  - exists grid. split; [done|]. by rewrite Hperm, length_fmap.
  - rewrite Hperm, length_fmap, Hlen.
    exact (proj1 (Forall_forall _ _) PIECES_sizes _ Hng).
Qed.

Lemma generate_placements_legal_witness :
  let excluded : gset Cell := {[month_cell 7; day_cell 6]} in
  let p := mkPlacement "A" [1; 7; 13; 20; 21] (0, 1) 0 false in
  (∀ idx, idx ∈ squares p →
     ∃ xy, py_index BOARD_CELLS idx = Some xy ∧ valid_cell xy ∧ xy ∉ excluded)
  ∧ NoDup (squares p)
  ∧ (∃ grid, (piece p, grid) ∈ PIECES
             ∧ length (squares p) = length (grid_to_coords grid))
  ∧ length (squares p) = if decide (piece p = "E"%string) then 6%nat else 5%nat.
Proof.
  apply (generate_placements_legal {[month_cell 7; day_cell 6]}
           (mkPlacement "A" [1; 7; 13; 20; 21] (0, 1) 0 false)).
  apply (bool_decide_unpack _). vm_compute. exact I.
Defined.

(** What the generator does emit: every placement all of whose squares
    are on the board and not excluded, provided the bounding box of the
    orientation fits below the last row and inside the width of the
    anchor row [tr]. *)
Lemma generate_placements_complete (excluded : gset Cell) (name : string)
    (grid : RawPiece) (coords : CoordSet) (rot : Z) (fl : bool) (tr tc : Z) :
  (name, grid) ∈ PIECES → (coords, rot, fl) ∈ all_transforms grid →
  0 ≤ tr → tr + max_of (coords.*1) < Z.of_nat (length ROW_WIDTHS) →
  0 ≤ tc → tc + max_of (coords.*2) < row_width tr →
  Forall (fun rc : Z * Z => valid_cell (tr + rc.1, tc + rc.2)
                            ∧ (tr + rc.1, tc + rc.2) ∉ excluded) coords →
  new_Placement name
    ((fun rc : Z * Z => cell_to_col (tr + rc.1, tc + rc.2)) <$> coords)
    (tr, tc) rot fl ∈ generate_placements excluded.
Proof.
  intros Hng Ht Htr0 Htr Htc0 Htc Hall.
  apply generate_placements_elem.
  exists name, grid, coords, rot, fl, tr, tc,
    ((fun rc : Z * Z => cell_to_col (tr + rc.1, tc + rc.2)) <$> coords).
  split_and!; try done.
  - apply elem_of_range. simpl in Htr. lia.
  - apply elem_of_range. lia.
  - apply cell_idxs_Some. split; [|done].
    eapply Forall_impl; [exact Hall|]. intros rc [[_ Hc] Hex]. simpl in Hc.
    split; [lia|done].
Qed.

(** C2.  The claimed completeness fails at the anchors of the two
    six-wide top rows: piece H in its base orientation anchored at row 0,
    column 4 has its bounding box within the seven rows and all five
    squares on valid, non-excluded cells (the bottom bar lies in row 2,
    which is seven wide), yet [generate_placements] emits no placement of
    H there, because the anchor column only ranges over
    [ROW_WIDTHS[tr] - max_c]. *)
Theorem generate_placements_misses_anchor :
  let excluded : gset Cell := {[month_cell 1; day_cell 1]} in
  let coords : CoordSet := [(0, 0); (1, 0); (2, 0); (2, 1); (2, 2)] in
  (∃ grid, ("H"%string, grid) ∈ PIECES ∧ (coords, 0, false) ∈ all_transforms grid)
  ∧ 0 + max_of (coords.*1) < Z.of_nat (length ROW_WIDTHS)
  ∧ Forall (fun rc : Z * Z => valid_cell (0 + rc.1, 4 + rc.2)
                              ∧ (0 + rc.1, 4 + rc.2) ∉ excluded) coords
  ∧ Forall (fun p : Placement =>
              ¬ (piece p = "H"%string ∧ top_left p = (0, 4)
                 ∧ rotation p = 0 ∧ flipped p = false))
           (generate_placements excluded)
  ∧ Forall (fun p : Placement => squares p ≠ [4; 10; 16; 17; 18])
           (generate_placements excluded).
Proof.
  split_and!.
  - exists [[1;0;0];[1;0;0];[1;1;1]].
    split; apply (bool_decide_unpack _); vm_compute; exact I.
  - vm_compute. done.
  - apply (bool_decide_unpack _). vm_compute. exact I.
  - apply (bool_decide_unpack _). vm_compute. exact I.
  - apply (bool_decide_unpack _). vm_compute. exact I.
Qed.

(** ** Exact-cover search *)

Lemma res_bind_Ok {A B} (m : res A) (f : A → res B) (b : B) :
  m ≫= f = Ok b ↔ ∃ a, m = Ok a ∧ f a = Ok b.
Proof.
  destruct m; simpl; split; try done.
  - eauto.
  - by intros (a' & [= ->] & ?).
  - by intros (a' & ? & ?).
  - by intros (a' & ? & ?).
Qed.

Lemma pop_snoc (l : list Z) (x : Z) : pop (l ++ [x]) = Ok l.
Proof.
  unfold pop. destruct (l ++ [x]) eqn:E.
  - by destruct l.
  - by rewrite <- E, removelast_last.
Qed.

Section search_properties.
Variable set_order : gset Z → list Z.
Variable placements : list Placement.
Variable board_cols : gset Z.
Variable piece_cols : gmap string Z.
Variable universe : gset Z.
Variable col_to_rows : gmap Z (list Z).

Local Abbreviation search_here :=
  (search set_order placements board_cols piece_cols universe col_to_rows).
Local Abbreviation search_rows_here := (search_rows placements board_cols piece_cols).
Local Abbreviation row_cols_here := (row_cols placements board_cols piece_cols).
Local Abbreviation tiling_here := (tiling placements board_cols piece_cols).

Lemma search_rows_restores (rec : state → res (bool * state)) (rows : list Z) :
  restores rec → restores (search_rows_here rec rows).
Proof.
  intros Hrec. induction rows as [|row rest IH]; intros st st' Hrun.
  - simpl in Hrun. by injection Hrun as <-.
  - simpl in Hrun.
    apply res_bind_Ok in Hrun as (rc & Hrc & Hrun).
    case_bool_decide as Hconf.
    + apply IH in Hrun. simpl in Hrun. done.
    + apply res_bind_Ok in Hrun as ([found st3] & Hcall & Hrun).
      destruct found; [done|].
      apply Hrec in Hcall as [Hsol Hused]. simpl in Hsol, Hused.
      rewrite Hsol, pop_snoc in Hrun. simpl in Hrun.
      apply IH in Hrun as [-> ->]. simpl. split; [done|].
      rewrite Hused.
      assert (rc ∩ used st = ∅) by (by destruct (decide (rc ∩ used st = ∅))).
      set_solver.
Qed.

Lemma search_restores (fuel : nat) : restores (search_here fuel).
Proof.
  induction fuel as [|fuel IH]; intros st st' Hrun; simpl in Hrun; [done|].
  case_bool_decide; [done|].
  apply res_bind_Ok in Hrun as (col & _ & Hrun).
  apply res_bind_Ok in Hrun as (rows & _ & Hrun).
  by apply (search_rows_restores _ _ IH) in Hrun.
Qed.

Local Abbreviation covers_here :=
  (covers placements board_cols piece_cols universe).

Lemma search_rows_covers (rec : state → res (bool * state)) (rows : list Z) :
  restores rec → covers_here rec → covers_here (search_rows_here rec rows).
Proof.
  intros Hres Hrec. induction rows as [|row rest IH]; intros st st' Hinv Hrun.
  - done.
  - simpl in Hrun.
    apply res_bind_Ok in Hrun as (rc & Hrc & Hrun).
    case_bool_decide as Hconf.
    + by apply IH in Hrun.
    + assert (Hdisj : rc ∩ used st = ∅)
        by (by destruct (decide (rc ∩ used st = ∅))).
      apply res_bind_Ok in Hrun as ([found st3] & Hcall & Hrun).
      destruct found.
      * injection Hrun as <-. apply Hrec in Hcall; [done|]. simpl.
        apply tiling_snoc; [done|done|set_solver].
      * apply Hres in Hcall as [Hsol Hused]. simpl in Hsol, Hused.
        rewrite Hsol, pop_snoc in Hrun. simpl in Hrun.
        apply IH in Hrun; [done|]. simpl. rewrite Hused.
        by replace ((used st ∪ rc) ∖ rc) with (used st) by set_solver.
Qed.

Lemma search_covers (fuel : nat) : covers_here (search_here fuel).
Proof.
  induction fuel as [|fuel IH]; intros st st' Hinv Hrun; simpl in Hrun; [done|].
  case_bool_decide as Hfull.
  - by injection Hrun as <-.
  - apply res_bind_Ok in Hrun as (col & _ & Hrun).
    apply res_bind_Ok in Hrun as (rows & _ & Hrun).
    by apply (search_rows_covers _ _ (search_restores fuel) IH) in Hrun.
Qed.

Lemma search_rows_keeps (rec : state → res (bool * state)) (rows : list Z) :
  restores rec → keeps rec → keeps (search_rows_here rec rows).
Proof.
  intros Hres Hrec. induction rows as [|row rest IH]; intros st st' Hrun.
  - done.
  - simpl in Hrun.
    apply res_bind_Ok in Hrun as (rc & Hrc & Hrun).
    case_bool_decide as Hconf.
    + by apply IH in Hrun.
    + assert (Hdisj : rc ∩ used st = ∅)
        by (by destruct (decide (rc ∩ used st = ∅))).
      apply res_bind_Ok in Hrun as ([found st3] & Hcall & Hrun).
      destruct found.
      * injection Hrun as <-. apply Hrec in Hcall as [Hp Hu]. simpl in Hp, Hu.
        split; [|set_solver].
        etrans; [|exact Hp]. by apply prefix_app_r.
      * apply Hres in Hcall as [Hsol Hused]. simpl in Hsol, Hused.
        rewrite Hsol, pop_snoc in Hrun. simpl in Hrun.
        apply IH in Hrun. simpl in Hrun. rewrite Hused in Hrun.
        by replace ((used st ∪ rc) ∖ rc) with (used st) in Hrun by set_solver.
Qed.

Lemma search_keeps (fuel : nat) : keeps (search_here fuel).
Proof.
  induction fuel as [|fuel IH]; intros st st' Hrun; simpl in Hrun; [done|].
  case_bool_decide as Hfull.
  - by injection Hrun as <-.
  - apply res_bind_Ok in Hrun as (col & _ & Hrun).
    apply res_bind_Ok in Hrun as (rows & _ & Hrun).
    by apply (search_rows_keeps _ _ (search_restores fuel) IH) in Hrun.
Qed.

End search_properties.
Lemma res_mapM_Ok {A B} (f : A → res B) (l : list A) (l' : list B) :
  res_mapM f l = Ok l' ↔ Forall2 (fun x y => f x = Ok y) l l'.
Proof.
  revert l'. induction l as [|x l IH]; intros l'; simpl.
  - split; [intros [= <-]; constructor|by intros ->%Forall2_nil_inv_l].
  - rewrite res_bind_Ok. split.
    + intros (y & Hy & Hrest). apply res_bind_Ok in Hrest as (ys & Hys & [= <-]).
      constructor; [done|by apply IH].
    + intros (y & ys & Hy & Hys & ->)%Forall2_cons_inv_l.
      exists y. split; [done|]. apply res_bind_Ok. exists ys.
      split; [by apply IH|done].
Qed.

Lemma row_cols_Ok (placements : list Placement) (board_cols : gset Z)
    (piece_cols : gmap string Z) (row : Z) (rc : gset Z) :
  row_cols placements board_cols piece_cols row = Ok rc ↔
  ∃ pl pc, placement_at placements row = Ok pl
           ∧ piece_cols !! piece pl = Some pc
           ∧ rc = (list_to_set (squares pl) ∩ board_cols) ∪ {[pc]}.
Proof.
  unfold row_cols, cols_of. rewrite res_bind_Ok. split.
  - intros (pl & Hpl & Hc). apply res_bind_Ok in Hc as (pc & Hpc & [= <-]).
    exists pl, pc. split_and!; [done| |done].
    by destruct (piece_cols !! piece pl); simplify_eq/=.
  - intros (pl & pc & Hpl & Hpc & ->). exists pl. split; [done|].
    by rewrite Hpc.
Qed.

Lemma placement_at_elem (placements : list Placement) (r : Z) (pl : Placement) :
  placement_at placements r = Ok pl → pl ∈ placements.
Proof.
  unfold placement_at. destruct (py_index placements r) as [pl'|] eqn:E; [|done].
  intros [= <-]. unfold py_index in E.
  repeat case_bool_decide; try done; by eapply list_elem_of_lookup_2.
Qed.

Section tiling_properties.
Variable placements : list Placement.
Variable board_cols : gset Z.
Variable piece_cols : gmap string Z.

Local Abbreviation tiling_here := (tiling placements board_cols piece_cols).

(** What a tiling says about the placements behind its rows. *)
Lemma tiling_facts (rows : list Z) (U : gset Z) :
  tiling_here rows U →
  ∃ pls : list Placement,
    res_mapM (placement_at placements) rows = Ok pls
    ∧ NoDup (piece <$> pls)
    ∧ (∀ pl, pl ∈ pls →
         ∃ pc, piece_cols !! piece pl = Some pc ∧ pc ∈ U
               ∧ list_to_set (squares pl) ∩ board_cols ⊆ U)
    ∧ (∀ c, c ∈ U →
         ∃ pl, pl ∈ pls ∧ (piece_cols !! piece pl = Some c
                           ∨ (c ∈ squares pl ∧ c ∈ board_cols)))
    ∧ (∀ i j p q, i ≠ j → pls !! i = Some p → pls !! j = Some q →
         list_to_set (squares p) ∩ board_cols
           ## (list_to_set (squares q) ∩ board_cols : gset Z)).
Proof.
  induction 1 as [|rows U row rc Htil (pls & Hpls & Hnd & Hin & Hcov & Hdisj) Hrc Hfresh].
  - exists []. split_and!; [done|constructor|..].
    + by intros pl ?%elem_of_nil.
    + by intros c ?%not_elem_of_empty.
    + by intros i j p q _ ?.
  - apply row_cols_Ok in Hrc as (pl & pc & Hpl & Hpc & ->).
    exists (pls ++ [pl]). split_and!.
    + apply res_mapM_Ok, Forall2_app; [by apply res_mapM_Ok|].
      by constructor.
    + rewrite fmap_app. apply NoDup_app. split_and!; [done| |apply NoDup_singleton].
      intros name Hname ->%list_elem_of_singleton.
      apply list_elem_of_fmap in Hname as (pl' & Heq & Hpl').
      destruct (Hin pl' Hpl') as (pc' & Hpc' & HU & _).
      rewrite <- Heq, Hpc in Hpc'. injection Hpc' as <-. set_solver.
    + intros pl' [Hpl'| ->%list_elem_of_singleton]%elem_of_app.
      * destruct (Hin pl' Hpl') as (pc' & Hpc' & HU & Hsq).
        exists pc'. split_and!; [done|set_solver|set_solver].
      * exists pc. split_and!; [done|set_solver|set_solver].
    + intros c [Hc|Hc]%elem_of_union.
      * destruct (Hcov c Hc) as (pl' & Hpl' & Hc').
        exists pl'. split; [|done]. apply elem_of_app. by left.
      * exists pl. split; [apply elem_of_app; right; by apply list_elem_of_singleton|].
        apply elem_of_union in Hc as [Hc|Hc].
        -- right. apply elem_of_intersection in Hc as [Hc ?].
           by apply elem_of_list_to_set in Hc.
        -- left. apply elem_of_singleton in Hc. by subst.
    + assert (Hlast : ∀ i p, pls !! i = Some p →
                list_to_set (squares p) ∩ board_cols
                  ## (list_to_set (squares pl) ∩ board_cols : gset Z)).
      { intros i p Hp. apply list_elem_of_lookup_2 in Hp.
        destruct (Hin p Hp) as (_ & _ & _ & Hsq). set_solver. }
      assert (Hlen : length pls = length rows).
      { apply res_mapM_Ok in Hpls. symmetry. by eapply Forall2_length. }
      intros i j p q Hij Hp Hq.
      destruct (decide (i < length pls)%nat) as [Hi|Hi];
        destruct (decide (j < length pls)%nat) as [Hj|Hj].
      * rewrite lookup_app_l in Hp, Hq by done. by eapply Hdisj.
      * rewrite lookup_app_l in Hp by done.
        rewrite lookup_app_r in Hq by lia.
        apply list_lookup_singleton_Some in Hq as [_ <-]. by eapply Hlast.
      * rewrite lookup_app_l in Hq by done.
        rewrite lookup_app_r in Hp by lia.
        apply list_lookup_singleton_Some in Hp as [_ <-].
        symmetry. by eapply Hlast.
      * rewrite lookup_app_r in Hp, Hq by lia.
        apply list_lookup_singleton_Some in Hp as [Hi' _].
        apply list_lookup_singleton_Some in Hq as [Hj' _]. lia.
Qed.

End tiling_properties.

(** ** The columns of [solve_exact_cover] *)

Lemma foldl_max_ge (l : list Z) (a : Z) :
  a ≤ foldl Z.max a l ∧ ∀ x, x ∈ l → x ≤ foldl Z.max a l.
Proof.
  revert a. induction l as [|y l IH]; intros a; simpl.
  - split; [lia|by intros x ?%elem_of_nil].
  - destruct (IH (Z.max a y)) as [H1 H2]. split; [lia|].
    intros x [->|Hx]%elem_of_cons; [lia|by apply H2].
Qed.

Lemma py_max_Ok (l : list Z) (mx : Z) :
  py_max l = Ok mx → ∀ x, x ∈ l → x ≤ mx.
Proof.
  destruct l as [|a l]; [done|]. intros [= <-] x.
  destruct (foldl_max_ge l a) as [H1 H2].
  intros [->|Hx]%elem_of_cons; [done|by apply H2].
Qed.

Lemma py_max_nonempty (l : list Z) : l ≠ [] → ∃ mx, py_max l = Ok mx.
Proof. destruct l; [done|]. intros _. by eexists. Qed.

Lemma elem_of_board_cols_of (excluded : gset Cell) (c : Z) :
  c ∈ board_cols_of excluded ↔
  ∃ xy, valid_cell xy ∧ (xy ∉ excluded) ∧ CELL_TO_COL !! xy = Some c.
Proof.
  unfold board_cols_of. rewrite elem_of_list_to_set, list_elem_of_fmap.
  split.
  - intros (xy & -> & [Hex Hin]%list_elem_of_filter).
    apply valid_cell_board in Hin. exists xy. split_and!; [done|done|].
    by apply cell_to_col_spec.
  - intros (xy & Hv & Hex & Hc). exists xy. split.
    + unfold cell_to_col. by rewrite Hc.
    + apply list_elem_of_filter. split; [done|]. by apply valid_cell_board.
Qed.

Lemma elem_of_piece_col_set (piece_cols : gmap string Z) (c : Z) :
  c ∈ piece_col_set piece_cols ↔ ∃ name, piece_cols !! name = Some c.
Proof.
  unfold piece_col_set. rewrite elem_of_list_to_set, list_elem_of_fmap. split.
  - intros ([name c'] & -> & Hin). exists name. by apply elem_of_map_to_list.
  - intros (name & Hn). exists (name, c). split; [done|].
    by apply elem_of_map_to_list.
Qed.

Lemma universe_of_eq (board_cols : gset Z) (piece_cols : gmap string Z) :
  universe_of board_cols piece_cols = board_cols ∪ piece_col_set piece_cols.
Proof. done. Qed.

Lemma foldl_insert_lookup (mx : Z) (l : list (Z * string)) :
  ∀ (m0 : gmap string Z) (name : string) (pc : Z),
    NoDup (l.*2) → (∀ p, p ∈ l.*2 → m0 !! p = None) →
    foldl (fun (m : gmap string Z) '(i, p) => <[p := mx + 1 + i]> m) m0 l
      !! name = Some pc
    ↔ m0 !! name = Some pc ∨ ∃ i, (i, name) ∈ l ∧ pc = mx + 1 + i.
Proof.
  induction l as [|[i p] l IH]; intros m0 name pc Hnd Hfresh; simpl.
  - split; [by left|]. intros [?|(i & ?%elem_of_nil & _)]; done.
  - simpl in Hnd. apply NoDup_cons in Hnd as [Hp Hnd].
    rewrite IH; [|done|].
    + rewrite lookup_insert_Some. split.
      * intros [[[-> <-]|[Hne Hm]]|(j & Hj & ->)].
        -- right. exists i. split; [by left|done].
        -- by left.
        -- right. exists j. split; [by right|done].
      * intros [Hm|(j & [[= -> ->]|Hj]%elem_of_cons & ->)].
        -- left. right. split; [|done]. intros ->.
           rewrite Hfresh in Hm; [done|]. by left.
        -- left. by left.
        -- right. by exists j.
    + intros q Hq. rewrite lookup_insert_ne; [|by intros ->].
      apply Hfresh. by right.
Qed.

Lemma PIECES_NoDup : NoDup (PIECES.*1).
Proof. apply (bool_decide_unpack _). vm_compute. exact I. Qed.

Lemma enumerate_snd {A} (l : list A) : (enumerate l).*2 = l.
Proof.
  unfold enumerate. apply snd_zip. rewrite length_seqZ. lia.
Qed.

Lemma piece_cols_of_lookup (mx : Z) (name : string) (pc : Z) :
  piece_cols_of mx !! name = Some pc ↔
  ∃ i, (i, name) ∈ enumerate (sorted_strings (PIECES.*1)) ∧ pc = mx + 1 + i.
Proof.
  unfold piece_cols_of. rewrite foldl_insert_lookup.
  - rewrite lookup_empty. split; [by intros [?|?]|by right].
  - rewrite enumerate_snd. unfold sorted_strings.
    rewrite merge_sort_Permutation. apply PIECES_NoDup.
  - intros p _. apply lookup_empty.
Qed.

Lemma piece_cols_of_above (mx : Z) (name : string) (pc : Z) :
  piece_cols_of mx !! name = Some pc → mx < pc ∧ name ∈ PIECES.*1.
Proof.
  intros (i & Hi & ->)%piece_cols_of_lookup.
  pose proof Hi as [Hpos Hl]%enumerate_lookup. split; [lia|].
  apply list_elem_of_lookup_2 in Hl. unfold sorted_strings in Hl.
  by rewrite merge_sort_Permutation in Hl.
Qed.

Lemma piece_cols_of_defined (mx : Z) (name : string) :
  name ∈ PIECES.*1 → is_Some (piece_cols_of mx !! name).
Proof.
  intros Hn.
  assert (Hs : name ∈ sorted_strings (PIECES.*1))
    by (unfold sorted_strings; by rewrite merge_sort_Permutation).
  apply list_elem_of_lookup in Hs as [k Hk].
  exists (mx + 1 + Z.of_nat k). apply piece_cols_of_lookup.
  exists (Z.of_nat k). split; [|done].
  apply enumerate_lookup. split; [lia|]. by rewrite Nat2Z.id.
Qed.

Lemma piece_cols_of_inj (mx : Z) (n1 n2 : string) (pc : Z) :
  piece_cols_of mx !! n1 = Some pc → piece_cols_of mx !! n2 = Some pc → n1 = n2.
Proof.
  intros (i & [_ Hi]%enumerate_lookup & ->)%piece_cols_of_lookup
         (j & [_ Hj]%enumerate_lookup & Heq)%piece_cols_of_lookup.
  assert (i = j) as -> by lia. congruence.
Qed.

Lemma generated_squares (excluded : gset Cell) (p : Placement) (c : Z) :
  p ∈ generate_placements excluded → c ∈ squares p → c ∈ board_cols_of excluded.
Proof.
  intros Hp Hc.
  destruct (placement_cells excluded p Hp) as (grid & cells & _ & Hperm & _ & _ & Hall).
  rewrite Hperm in Hc. apply list_elem_of_fmap in Hc as (xy & -> & Hxy).
  destruct (proj1 (Forall_forall _ _) Hall _ Hxy) as [Hv Hex].
  apply elem_of_board_cols_of. exists xy. split_and!; [done|done|].
  by apply cell_to_col_spec.
Qed.

(** C1.  If [solve_exact_cover], run on the placements generated for an
    excluded set, returns a solution, then the solution consists of
    exactly 8 generated placements whose piece tags are the 8 tags, each
    once; the union of their column indices is exactly the set of columns
    of the valid, non-excluded board cells; and no two of them share a
    column. *)
Theorem solve_exact_cover_sound (set_order : gset Z → list Z) (fuel : nat)
    (excluded : gset Cell) (solution : list Placement) (n : Z) :
  solve_exact_cover set_order fuel (generate_placements excluded) excluded
    = Ok (Some solution, n) →
  length solution = 8%nat
  ∧ piece <$> solution ≡ₚ PIECES.*1
  ∧ Forall (fun p => p ∈ generate_placements excluded) solution
  ∧ ⋃ ((fun p => list_to_set (squares p)) <$> solution)
    = board_cols_of excluded
  ∧ (∀ c, c ∈ board_cols_of excluded ↔
          ∃ xy, valid_cell xy ∧ (xy ∉ excluded) ∧ CELL_TO_COL !! xy = Some c)
  ∧ (∀ i j p q, i ≠ j → solution !! i = Some p → solution !! j = Some q →
       list_to_set (squares p) ## (list_to_set (squares q) : gset Z)).
Proof.
  unfold solve_exact_cover. intros Hrun.
  apply res_bind_Ok in Hrun as (mx & Hmx & Hrun).
  apply res_bind_Ok in Hrun as (ctr & _ & Hrun).
  apply res_bind_Ok in Hrun as ([found st] & Hsearch & Hrun).
  destruct found; [|done].
  apply res_bind_Ok in Hrun as (sols & Hsols & [= -> _]).
  apply search_covers in Hsearch as [Htil Hused]; [|apply tiling_nil].
  simpl in Htil. rewrite Hused in Htil.
  apply tiling_facts in Htil as (pls & Hpls & Hnd & Hin & Hcov & Hdisj).
  rewrite Hsols in Hpls. injection Hpls as <-.
  set (bc := board_cols_of excluded) in *.
  set (pcs := piece_cols_of mx) in *.
  assert (Hfresh : ∀ name pc, pcs !! name = Some pc → pc ∉ bc).
  { intros name pc [Hpc _]%piece_cols_of_above Hbc.
    apply elem_of_elements in Hbc.
    pose proof (py_max_Ok _ _ Hmx _ Hbc). lia. }
  assert (Hgen : ∀ p, p ∈ solution → p ∈ generate_placements excluded).
  { intros p Hp. apply res_mapM_Ok in Hsols.
    apply list_elem_of_lookup in Hp as [k Hk].
    destruct (Forall2_lookup_r _ _ _ _ _ Hsols Hk) as (r & _ & Hr).
    by apply placement_at_elem in Hr. }
  assert (Hsq : ∀ p, p ∈ solution → list_to_set (squares p) ∩ bc
                                     = (list_to_set (squares p) : gset Z)).
  { intros p Hp. apply leibniz_equiv. apply subseteq_intersection_1.
    intros c Hc%elem_of_list_to_set. by eapply generated_squares; [apply Hgen|]. }
  assert (Hperm : piece <$> solution ≡ₚ PIECES.*1).
  { apply NoDup_Permutation; [done|apply PIECES_NoDup|]. intros name. split.
    - intros (p & -> & Hp)%list_elem_of_fmap.
      destruct (Hin p Hp) as (pc & Hpc & _).
      by apply piece_cols_of_above in Hpc as [_ ?].
    - intros Hname. destruct (piece_cols_of_defined mx name Hname) as [pc Hpc].
      destruct (Hcov pc) as (p & Hp & [Hpiece|[_ Hbc]]).
      + rewrite universe_of_eq. apply elem_of_union. right.
        apply elem_of_piece_col_set. by exists name.
      + apply list_elem_of_fmap. exists p. split; [|done].
        by eapply piece_cols_of_inj.
      + by apply Hfresh in Hpc. }
  split_and!.
  - apply Permutation_length in Hperm. by rewrite length_fmap in Hperm.
  - done.
  - by apply Forall_forall.
  - apply set_eq. intros c. rewrite elem_of_union_list. split.
    + intros (X & (p & -> & Hp)%list_elem_of_fmap & Hc%elem_of_list_to_set).
      by eapply generated_squares; [apply Hgen|].
    + intros Hc. destruct (Hcov c) as (p & Hp & [Hpiece|[Hc' _]]).
      * rewrite universe_of_eq. apply elem_of_union. by left.
      * by apply Hfresh in Hpiece.
      * exists (list_to_set (squares p)). split; [|by apply elem_of_list_to_set].
        apply list_elem_of_fmap. by exists p.
  - apply elem_of_board_cols_of.
  - intros i j p q Hij Hp Hq.
    rewrite <- (Hsq p), <- (Hsq q) by (by eapply list_elem_of_lookup_2).
    by eapply Hdisj.
Qed.

(** ** Termination of the search *)

Lemma finishes_bind {A B} (m : res A) (f : A → res B) :
  finishes m → (∀ a, m = Ok a → finishes (f a)) → finishes (m ≫= f).
Proof. destruct m; simpl; intros Hm Hf; [by apply Hf|done|done]. Qed.

Lemma finishes_or_raise {A} (e : exn) (o : option A) : finishes (or_raise e o).
Proof. by destruct o. Qed.

Lemma finishes_res_mapM {A B} (f : A → res B) (l : list A) :
  (∀ x, finishes (f x)) → finishes (res_mapM f l).
Proof.
  intros Hf. induction l as [|x l IH]; simpl; [done|].
  apply finishes_bind; [done|]. intros y _.
  apply finishes_bind; [done|]. by intros ys _.
Qed.

Lemma finishes_res_foldl {A B} (f : B → A → res B) (l : list A) (b : B) :
  (∀ b x, finishes (f b x)) → finishes (res_foldl f b l).
Proof.
  intros Hf. revert b. induction l as [|x l IH]; intros b; simpl; [done|].
  apply finishes_bind; [done|]. intros b' _. apply IH.
Qed.

Lemma finishes_py_min_by (key : Z → res Z) (l : list Z) :
  (∀ x, finishes (key x)) → finishes (py_min_by key l).
Proof.
  intros Hk. destruct l as [|x l]; simpl; [done|].
  apply finishes_bind; [done|]. intros k _.
  apply finishes_bind; [by apply finishes_res_mapM|]. by intros ks _.
Qed.

Lemma finishes_pop (l : list Z) : finishes (pop l).
Proof. by destruct l. Qed.

Section termination.
Variable set_order : gset Z → list Z.
Variable placements : list Placement.
Variable board_cols : gset Z.
Variable piece_cols : gmap string Z.
Variable universe : gset Z.
Variable col_to_rows : gmap Z (list Z).

Local Abbreviation search_here :=
  (search set_order placements board_cols piece_cols universe col_to_rows).
Local Abbreviation search_rows_here := (search_rows placements board_cols piece_cols).
Local Abbreviation row_cols_here := (row_cols placements board_cols piece_cols).
Local Abbreviation left_here := (pieces_left piece_cols).

Lemma finishes_row_cols (row : Z) : finishes (row_cols_here row).
Proof.
  unfold row_cols, cols_of, placement_at.
  apply finishes_bind; [apply finishes_or_raise|]. intros pl _.
  apply finishes_bind; [apply finishes_or_raise|]. by intros pc _.
Qed.

Lemma finishes_choose (u : gset Z) :
  finishes (choose set_order placements universe col_to_rows u).
Proof.
  unfold choose. apply finishes_py_min_by. intros c. unfold slack.
  apply finishes_bind; [apply finishes_or_raise|]. intros rows _.
  apply finishes_bind; [|by intros pls _].
  apply finishes_res_mapM. intros r. apply finishes_or_raise.
Qed.

(** Pushing a row that does not conflict uses up one more piece column. *)
Lemma pieces_left_push (u rc : gset Z) (row : Z) :
  row_cols_here row = Ok rc → rc ∩ u = ∅ →
  (left_here (u ∪ rc) < left_here u)%nat.
Proof.
  intros (pl & pc & _ & Hpc & ->)%row_cols_Ok Hdisj.
  unfold pieces_left. apply subset_size.
  assert (Hin : pc ∈ piece_col_set piece_cols)
    by (apply elem_of_piece_col_set; eauto).
  apply strict_spec_alt. split; [set_solver|].
  intros Heq. assert (pc ∈ piece_col_set piece_cols ∖ u) as Hpc'; [set_solver|].
  rewrite <- Heq in Hpc'. set_solver.
Qed.

Lemma search_rows_finishes (rec : state → res (bool * state)) (rows : list Z) :
  restores rec →
  ∀ st, (∀ st2, (left_here (used st2) < left_here (used st))%nat →
                finishes (rec st2)) →
        finishes (search_rows_here rec rows st).
Proof.
  intros Hres. induction rows as [|row rest IH]; intros st Hrec; simpl; [done|].
  apply finishes_bind; [apply finishes_row_cols|]. intros rc Hrc.
  case_bool_decide as Hconf; [by apply IH|].
  assert (Hdisj : rc ∩ used st = ∅)
    by (by destruct (decide (rc ∩ used st = ∅))).
  apply finishes_bind.
  { apply Hrec. simpl. by eapply pieces_left_push. }
  intros [found st3] Hcall. destruct found; [done|].
  apply finishes_bind; [apply finishes_pop|]. intros s _.
  apply IH. simpl. apply Hres in Hcall as [_ ->]. simpl.
  by replace ((used st ∪ rc) ∖ rc) with (used st) by set_solver.
Qed.

(** With more fuel than piece columns left, the budget is never the
    reason for stopping. *)
Lemma search_finishes (fuel : nat) (st : state) :
  (left_here (used st) < fuel)%nat → finishes (search_here fuel st).
Proof.
  revert st. induction fuel as [|fuel IH]; intros st Hfuel; [lia|]. simpl.
  case_bool_decide; [done|].
  apply finishes_bind; [apply finishes_choose|]. intros col _.
  apply finishes_bind; [apply finishes_or_raise|]. intros rows _.
  apply search_rows_finishes; [apply search_restores|].
  intros st2 Hlt. apply IH. lia.
Qed.

(** More fuel does not change a finished outcome. *)
Lemma search_rows_mono (rec rec' : state → res (bool * state)) (rows : list Z) :
  (∀ st, finishes (rec st) → rec' st = rec st) →
  ∀ st, finishes (search_rows_here rec rows st) →
        search_rows_here rec' rows st = search_rows_here rec rows st.
Proof.
  intros Hext. induction rows as [|row rest IH]; intros st Hfin; simpl in *; [done|].
  destruct (row_cols_here row) as [rc| |]; simpl in *; [|done|done].
  case_bool_decide; [by apply IH|].
  destruct (rec _) as [[found st3]| |] eqn:Hcall; simpl in *; [| |done].
  - rewrite Hext, Hcall by (by rewrite Hcall). simpl.
    destruct found; [done|].
    destruct (pop (sol st3)); simpl in *; [by apply IH|done|done].
  - rewrite Hext, Hcall by (by rewrite Hcall). done.
Qed.

Lemma search_mono (fuel fuel' : nat) (st : state) :
  (fuel ≤ fuel')%nat → finishes (search_here fuel st) →
  search_here fuel' st = search_here fuel st.
Proof.
  revert fuel' st. induction fuel as [|fuel IH]; intros fuel' st Hle Hfin; [done|].
  destruct fuel' as [|fuel']; [lia|]. simpl in *.
  case_bool_decide; [done|].
  destruct (choose _ _ _ _ _) as [col| |]; simpl in *; [|done|done].
  destruct (col_to_rows !! col) as [rows|]; simpl in *; [|done].
  apply search_rows_mono; [|done]. intros st2 Hfin2. apply IH; [lia|done].
Qed.

End termination.

Lemma first_least_elem (l : list (Z * Z)) (best bk : Z) :
  first_least best bk l = best ∨ first_least best bk l ∈ l.*1.
Proof.
  revert best bk. induction l as [|[x k] l IH]; intros best bk; simpl; [by left|].
  case_bool_decide.
  - destruct (IH x k) as [->|Hin]; right; [by left|by right].
  - destruct (IH best bk) as [->|Hin]; [by left|right; by right].
Qed.

Lemma py_min_by_Ok (key : Z → res Z) (l : list Z) :
  l ≠ [] → (∀ x, x ∈ l → ∃ k, key x = Ok k) →
  ∃ c, py_min_by key l = Ok c ∧ c ∈ l.
Proof.
  destruct l as [|x l]; [done|]. intros _ Hkey. simpl.
  destruct (Hkey x) as [k ->]; [by left|]. simpl.
  assert (∃ ks, res_mapM key l = Ok ks ∧ length ks = length l) as (ks & -> & Hlen).
  { clear k. induction l as [|y l IH]; simpl; [by exists []|].
    destruct (Hkey y) as [k ->]; [right; by left|]. simpl.
    destruct IH as (ks & -> & Hlen).
    - intros z [->|Hz]%elem_of_cons; apply Hkey; [by left|right; by right].
    - exists (k :: ks). simpl. by rewrite Hlen. }
  simpl. eexists. split; [done|].
  destruct (first_least_elem (zip l ks) x k) as [->|Hin]; [by left|].
  right. rewrite fst_zip in Hin by lia. done.
Qed.

Lemma res_foldl_inv {A B} (J : B → Prop) (f : B → A → res B) (l : list A) :
  (∀ b x, x ∈ l → J b → ∃ b', f b x = Ok b' ∧ J b') →
  ∀ b, J b → ∃ b', res_foldl f b l = Ok b' ∧ J b'.
Proof.
  induction l as [|x l IH]; intros Hstep b Hb; simpl; [by exists b|].
  destruct (Hstep b x) as (b' & -> & Hb'); [by left|done|]. simpl.
  apply IH; [|done]. intros b0 y Hy. apply Hstep. by right.
Qed.

Lemma col_to_rows_of_Ok (placements : list Placement) (board_cols : gset Z)
    (piece_cols : gmap string Z) (universe : gset Z) :
  Forall (fun p => is_Some (piece_cols !! piece p)) placements →
  ∃ ctr, col_to_rows_of placements board_cols piece_cols universe = Ok ctr
         ∧ index_ok placements piece_cols universe ctr.
Proof.
  intros Hpieces. unfold col_to_rows_of.
  apply (res_foldl_inv (index_ok placements piece_cols universe)).
  - intros m [idx pl] [Hidx Hpl]%enumerate_lookup [Hdom Hrows].
    assert (Hp : is_Some (piece_cols !! piece pl)).
    { apply list_elem_of_lookup_2 in Hpl.
      exact (proj1 (Forall_forall _ _) Hpieces _ Hpl). }
    assert (Hrow : row_ok placements piece_cols idx).
    { exists pl. split; [|done]. unfold placement_at, py_index.
      by rewrite bool_decide_true, Hpl by done. }
    destruct Hp as [pc Hpc]. unfold cols_of. rewrite Hpc. simpl.
    eexists. split; [done|].
    apply (set_fold_ind_L
             (fun (r : gmap Z (list Z)) (_ : gset Z) =>
                index_ok placements piece_cols universe r)); [done|].
    intros c X r _ [Hd Hr]. split.
    + intros k Hk. rewrite lookup_alter. case_decide; [|by apply Hd].
      subst. destruct (Hd k Hk) as [rows ->]. by eexists.
    + intros k rows. rewrite lookup_alter. case_decide; [|by apply Hr].
      subst. destruct (r !! k) as [rows0|] eqn:Hk; [|done].
      intros [= <-]. apply Forall_app. split; [by eapply Hr|by constructor].
  - split.
    + intros c Hc. exists []. by apply lookup_gset_to_gmap_Some.
    + intros c rows [_ <-]%lookup_gset_to_gmap_Some. constructor.
Qed.

Section returns.
Variable set_order : gset Z → list Z.
Hypothesis set_order_perm : ∀ s, set_order s ≡ₚ elements s.
Variable placements : list Placement.
Variable board_cols : gset Z.
Variable piece_cols : gmap string Z.
Variable universe : gset Z.
Variable col_to_rows : gmap Z (list Z).
Hypothesis universe_def : universe = board_cols ∪ piece_col_set piece_cols.
Hypothesis index_wf : index_ok placements piece_cols universe col_to_rows.

Local Abbreviation search_here :=
  (search set_order placements board_cols piece_cols universe col_to_rows).
Local Abbreviation search_rows_here := (search_rows placements board_cols piece_cols).
Local Abbreviation row_cols_here := (row_cols placements board_cols piece_cols).
Local Abbreviation left_here := (pieces_left piece_cols).

Lemma row_ok_cols (row : Z) :
  row_ok placements piece_cols row →
  ∃ rc, row_cols_here row = Ok rc ∧ rc ⊆ universe.
Proof.
  intros (pl & Hpl & pc & Hpc). eexists. split.
  - apply row_cols_Ok. by exists pl, pc.
  - rewrite universe_def.
    assert (pc ∈ piece_col_set piece_cols)
      by (apply elem_of_piece_col_set; eauto).
    set_solver.
Qed.

Lemma choose_Ok (u : gset Z) :
  u ⊆ universe → u ≠ universe →
  ∃ col, choose set_order placements universe col_to_rows u = Ok col
         ∧ col ∈ universe ∧ col ∉ u.
Proof.
  intros Hsub Hne. destruct index_wf as [Hdom Hrows].
  destruct (py_min_by_Ok (slack placements col_to_rows u)
              (set_order (universe ∖ u))) as (col & Hcol & Hin).
  - intros Hnil.
    assert (Hempty : universe ∖ u = ∅).
    { apply leibniz_equiv, elements_empty_inv, Permutation_nil_r.
      by rewrite <- set_order_perm, Hnil. }
    apply Hne. apply set_eq. intros c. split; [by apply Hsub|].
    intros Hc. destruct (decide (c ∈ u)); [done|]. set_solver.
  - intros c Hc. rewrite set_order_perm in Hc.
    apply elem_of_elements, elem_of_difference in Hc as [Hc _].
    destruct (Hdom c Hc) as [rows Hr]. unfold slack. rewrite Hr. simpl.
    assert (∃ pls, res_mapM (placement_at placements) rows = Ok pls) as [pls ->].
    { specialize (Hrows c rows Hr). clear Hr.
      induction rows as [|r rows IH]; simpl; [by eexists|].
      apply Forall_cons in Hrows as [(pl & -> & _) Hrows]. simpl.
      destruct (IH Hrows) as [pls ->]. by eexists. }
    by eexists.
  - exists col. split; [done|].
    rewrite set_order_perm in Hin. by apply elem_of_elements, elem_of_difference in Hin.
Qed.

Lemma search_rows_returns (rec : state → res (bool * state)) (rows : list Z) :
  restores rec → Forall (row_ok placements piece_cols) rows →
  ∀ st, used st ⊆ universe →
        (∀ st2, used st2 ⊆ universe →
                (left_here (used st2) < left_here (used st))%nat →
                ∃ r, rec st2 = Ok r) →
        ∃ r, search_rows_here rec rows st = Ok r.
Proof.
  intros Hres. induction rows as [|row rest IH]; intros Hrows st Hsub Hrec; simpl.
  - by eexists.
  - apply Forall_cons in Hrows as [Hrow Hrows].
    destruct (row_ok_cols row Hrow) as (rc & Hrc & Hrcsub). rewrite Hrc. simpl.
    case_bool_decide as Hconf; [by apply IH|].
    assert (Hdisj : rc ∩ used st = ∅)
      by (by destruct (decide (rc ∩ used st = ∅))).
    destruct (Hrec (mkState (sol st ++ [row]) (used st ∪ rc) (tries st + 1)))
      as [[found st3] Hcall].
    { simpl. set_solver. }
    { simpl. by eapply pieces_left_push. }
    rewrite Hcall. simpl. destruct found; [by eexists|].
    apply Hres in Hcall as [Hsol Hused]. simpl in Hsol, Hused.
    rewrite Hsol, pop_snoc. simpl. apply IH; [done| |]; simpl; rewrite Hused.
    + set_solver.
    + by replace ((used st ∪ rc) ∖ rc) with (used st) by set_solver.
Qed.

Lemma search_returns (fuel : nat) (st : state) :
  used st ⊆ universe → (left_here (used st) < fuel)%nat →
  ∃ r, search_here fuel st = Ok r.
Proof.
  revert st. induction fuel as [|fuel IH]; intros st Hsub Hfuel; [lia|]. simpl.
  case_bool_decide as Hfull; [by eexists|].
  destruct (choose_Ok (used st) Hsub Hfull) as (col & -> & Hcol & _). simpl.
  destruct index_wf as [Hdom Hrows].
  destruct (Hdom col Hcol) as [rows Hr]. rewrite Hr. simpl.
  apply search_rows_returns; [apply search_restores|by eapply Hrows|done|].
  intros st2 Hsub2 Hlt. apply IH; [done|lia].
Qed.

End returns.

(** ** The solver as a whole *)

Lemma ascending_perm (s : gset Z) : ascending s ≡ₚ elements s.
Proof. unfold ascending, sorted_Z. apply merge_sort_Permutation. Qed.

Lemma piece_col_set_eq (mx : Z) :
  piece_col_set (piece_cols_of mx) = list_to_set (seqZ (mx + 1) 8).
Proof.
  assert (Hlen : length (sorted_strings (PIECES.*1)) = 8%nat).
  { unfold sorted_strings. by rewrite merge_sort_Permutation. }
  apply set_eq. intros c.
  rewrite elem_of_piece_col_set, elem_of_list_to_set, elem_of_seqZ. split.
  - intros (name & Hc).
    apply piece_cols_of_lookup in Hc as (i & [Hpos Hi]%enumerate_lookup & ->).
    apply lookup_lt_Some in Hi. lia.
  - intros Hc.
    destruct (lookup_lt_is_Some_2 (sorted_strings (PIECES.*1))
                (Z.to_nat (c - mx - 1))) as [name Hname]; [lia|].
    exists name. apply piece_cols_of_lookup. exists (c - mx - 1).
    split; [|lia]. apply enumerate_lookup. split; [lia|done].
Qed.

Lemma piece_col_set_size (mx : Z) : size (piece_col_set (piece_cols_of mx)) = 8%nat.
Proof.
  rewrite piece_col_set_eq, size_list_to_set by apply NoDup_seqZ.
  by rewrite length_seqZ.
Qed.

Lemma pieces_left_initial (mx : Z) : pieces_left (piece_cols_of mx) ∅ = 8%nat.
Proof.
  unfold pieces_left. rewrite difference_empty_L. apply piece_col_set_size.
Qed.

Lemma piece_cols_fresh (excluded : gset Cell) (mx : Z) :
  py_max (elements (board_cols_of excluded)) = Ok mx →
  piece_col_set (piece_cols_of mx) ## board_cols_of excluded.
Proof.
  intros Hmx c (name & [Hpc _]%piece_cols_of_above)%elem_of_piece_col_set Hbc.
  apply elem_of_elements in Hbc.
  pose proof (py_max_Ok _ _ Hmx _ Hbc). lia.
Qed.



Lemma board_cols_nonempty (a b : Cell) : elements (board_cols_of {[a; b]}) ≠ [].
Proof.
  assert (∃ xy, valid_cell xy ∧ xy ∉ ({[a; b]} : gset Cell)) as (xy & Hv & Hex).
  { destruct (decide ((0, 0) ∈ ({[a; b]} : gset Cell))) as [H0|H0];
      [|exists (0, 0); split; [by apply (bool_decide_unpack _)|done]].
    destruct (decide ((0, 1) ∈ ({[a; b]} : gset Cell))) as [H1|H1];
      [|exists (0, 1); split; [by apply (bool_decide_unpack _)|done]].
    exists (0, 2). split; [by apply (bool_decide_unpack _)|].
    intros H2. apply elem_of_union in H0, H1, H2.
    rewrite !elem_of_singleton in H0, H1, H2.
    destruct H0 as [<-|<-], H1 as [?|?], H2 as [?|?]; congruence. }
  intros Hnil.
  assert (Hc : cell_to_col xy ∈ board_cols_of {[a; b]}).
  { apply elem_of_board_cols_of. exists xy. split_and!; [done|done|].
    by apply cell_to_col_spec. }
  apply elem_of_elements in Hc. rewrite Hnil in Hc. by apply elem_of_nil in Hc.
Qed.

Lemma finishes_py_max (l : list Z) : finishes (py_max l).
Proof. by destruct l. Qed.

Lemma finishes_col_to_rows_of (placements : list Placement) (board_cols : gset Z)
    (piece_cols : gmap string Z) (universe : gset Z) :
  finishes (col_to_rows_of placements board_cols piece_cols universe).
Proof.
  unfold col_to_rows_of. apply finishes_res_foldl. intros m [idx pl].
  unfold cols_of. apply finishes_bind; [|by intros cols _].
  apply finishes_bind; [apply finishes_or_raise|]. by intros pc _.
Qed.

(** The solver always comes to an end, whatever the placement list and
    the excluded set: nine nested calls of [search] are never exceeded. *)
Lemma solve_exact_cover_finishes (set_order : gset Z → list Z) (fuel : nat)
    (placements : list Placement) (excluded : gset Cell) :
  (9 ≤ fuel)%nat →
  finishes (solve_exact_cover set_order fuel placements excluded).
Proof.
  intros Hfuel. unfold solve_exact_cover.
  apply finishes_bind; [apply finishes_py_max|]. intros mx _.
  apply finishes_bind; [apply finishes_col_to_rows_of|]. intros ctr _.
  apply finishes_bind.
  - apply search_finishes. simpl. pose proof (pieces_left_initial mx). lia.
  - intros [found st] _. destruct found; [|done].
    apply finishes_bind; [|by intros sols _].
    apply finishes_res_mapM. intros r. apply finishes_or_raise.
Qed.

Lemma solve_exact_cover_mono (set_order : gset Z → list Z) (fuel fuel' : nat)
    (placements : list Placement) (excluded : gset Cell) :
  (fuel ≤ fuel')%nat →
  finishes (solve_exact_cover set_order fuel placements excluded) →
  solve_exact_cover set_order fuel' placements excluded
  = solve_exact_cover set_order fuel placements excluded.
Proof.
  intros Hle. unfold solve_exact_cover.
  destruct (py_max _) as [mx| |]; simpl; [|done|done].
  destruct (col_to_rows_of _ _ _ _) as [ctr| |]; simpl; [|done|done].
  intros Hfin. rewrite (search_mono _ _ _ _ _ _ fuel fuel'); [done|done|].
  intros Hout. by rewrite Hout in Hfin.
Qed.

Lemma solve_exact_cover_returns (set_order : gset Z → list Z) (fuel : nat)
    (placements : list Placement) (a b : Cell) :
  (∀ s, set_order s ≡ₚ elements s) →
  Forall (fun p => piece p ∈ PIECES.*1) placements →
  (9 ≤ fuel)%nat →
  ∃ v, solve_exact_cover set_order fuel placements {[a; b]} = Ok v.
Proof.
  intros Hperm Hpieces Hfuel. unfold solve_exact_cover.
  destruct (py_max_nonempty _ (board_cols_nonempty a b)) as [mx ->]. simpl.
  destruct (col_to_rows_of_Ok placements (board_cols_of {[a; b]})
              (piece_cols_of mx)
              (universe_of (board_cols_of {[a; b]}) (piece_cols_of mx)))
    as (ctr & -> & Hwf).
  { eapply Forall_impl; [exact Hpieces|]. intros p Hp.
    by apply piece_cols_of_defined. }
  simpl.
  destruct (search_returns set_order Hperm placements
              (board_cols_of {[a; b]}) (piece_cols_of mx) _ ctr
              (universe_of_eq _ _) Hwf fuel (mkState [] ∅ 0))
    as [[found st] Hrun].
  { simpl. set_solver. }
  { simpl. pose proof (pieces_left_initial mx). lia. }
  rewrite Hrun. simpl. destruct found; [|by eexists].
  apply search_covers in Hrun as [Htil _]; [|apply tiling_nil].
  apply tiling_facts in Htil as (pls & -> & _). simpl. by eexists.
Qed.

(** C7.  For every placement list whose piece tags are among the eight
    tags and every excluded set of two distinct valid cells,
    [solve_exact_cover] returns a result, and it does so within nine nested
    calls of [search] (the first call and at most eight below it, each
    entered with one more piece column used): any larger bound on the
    nesting gives the same result. *)
Theorem solve_exact_cover_terminates (set_order : gset Z → list Z)
    (placements : list Placement) (a b : Cell) :
  (∀ s, set_order s ≡ₚ elements s) →
  valid_cell a → valid_cell b → a ≠ b →
  Forall (fun p => piece p ∈ PIECES.*1) placements →
  ∃ v, ∀ fuel, (9 ≤ fuel)%nat →
       solve_exact_cover set_order fuel placements {[a; b]} = Ok v.
Proof.
  intros Hperm Ha Hb Hab Hpieces.
  destruct (solve_exact_cover_returns set_order 9 placements a b Hperm Hpieces)
    as [v Hv]; [lia|].
  exists v. intros fuel Hfuel. rewrite <- Hv.
  apply solve_exact_cover_mono; [done|]. by rewrite Hv.
Qed.

Lemma solve_exact_cover_terminates_witness :
  ∃ v, ∀ fuel, (9 ≤ fuel)%nat →
       solve_exact_cover ascending fuel
         (generate_placements {[month_cell 7; day_cell 6]})
         {[month_cell 7; day_cell 6]} = Ok v.
Proof.
  apply (solve_exact_cover_terminates ascending
           (generate_placements {[month_cell 7; day_cell 6]})
           (month_cell 7) (day_cell 6)).
  - apply ascending_perm.
  - apply (bool_decide_unpack _). vm_compute. exact I.
  - apply (bool_decide_unpack _). vm_compute. exact I.
  - apply (bool_decide_unpack _). vm_compute. exact I.
  - apply (bool_decide_unpack _). vm_compute. exact I.
Defined.

(** ** The universe *)



(** When the last board cell [(6, 2)] is excluded (day 31), [max(board_cols)]
    is 41 and the first piece column takes the number 42, which is the
    index of the excluded cell; it is still not a column of the universe's
    board part. *)
Lemma piece_column_of_day_31 :
  let excluded : gset Cell := {[month_cell 1; day_cell 31]} in
  py_max (elements (board_cols_of excluded)) = Ok 41
  ∧ piece_cols_of 41 !! "A"%string = Some 42
  ∧ CELL_TO_COL !! day_cell 31 = Some 42
  ∧ 42 ∉ board_cols_of excluded.
Proof.
  split_and!.
  - vm_compute. done.
  - vm_compute. done.
  - vm_compute. done.
  - apply (bool_decide_unpack _). vm_compute. exact I.
Qed.

(** ** The column heuristic *)

Lemma first_least_strict (col k : Z) (l : list (Z * Z)) :
  ∀ best bk,
    Forall (fun xk : Z * Z => (xk.1 = col ∧ xk.2 = k) ∨ k < xk.2) l →
    (best = col ∧ bk = k) ∨ (k < bk ∧ (col, k) ∈ l) →
    first_least best bk l = col.
Proof.
  induction l as [|[x kx] l IH]; intros best bk Hall Hbest; simpl.
  - destruct Hbest as [[-> _]|[_ ?%elem_of_nil]]; done.
  - apply Forall_cons in Hall as [Hhd Hall]. simpl in Hhd.
    case_bool_decide as Hlt; apply IH; try done.
    + destruct Hhd as [[-> ->]|Hk]; [by left|]. right. split; [done|].
      destruct Hbest as [[_ ->]|[_ [[= -> ->]|?]%elem_of_cons]]; [lia|lia|done].
    + destruct Hbest as [?|[Hk [[= -> ->]|?]%elem_of_cons]];
        [by left|lia|by right].
Qed.

Lemma py_min_by_unique (key : Z → res Z) (l : list Z) (col k : Z) :
  col ∈ l → key col = Ok k →
  Forall (fun c => c = col ∨ ∃ k', key c = Ok k' ∧ k < k') l →
  py_min_by key l = Ok col.
Proof.
  intros Hin Hkey Hall. destruct l as [|x l]; [by apply elem_of_nil in Hin|].
  simpl. apply Forall_cons in Hall as [Hx Hall].
  assert (∃ kx, key x = Ok kx ∧ ((x = col ∧ kx = k) ∨ k < kx)) as (kx & Hkx' & Hkx).
  { destruct Hx as [->|(k' & ? & ?)]; [exists k; by auto|exists k'; by auto]. }
  rewrite Hkx'. simpl.
  assert (∃ ks, res_mapM key l = Ok ks
                ∧ Forall (fun xk : Z * Z => (xk.1 = col ∧ xk.2 = k) ∨ k < xk.2)
                         (zip l ks)
                ∧ (col ∈ l → (col, k) ∈ zip l ks)) as (ks & -> & Hzip & Hcol).
  { clear Hin Hx Hkx. induction l as [|y l IH]; simpl.
    - exists []. split_and!; [done|constructor|by intros ?%elem_of_nil].
    - apply Forall_cons in Hall as [Hy Hall].
      destruct (IH Hall) as (ks & -> & Hzip & Hcol).
      destruct Hy as [->|(k' & Hk' & Hlt)].
      + rewrite Hkey. simpl. exists (k :: ks). split_and!; [done| |].
        * constructor; [by left|done].
        * intros _. by left.
      + rewrite Hk'. simpl. exists (k' :: ks). split_and!; [done| |].
        * constructor; [by right|done].
        * intros [->|Hc]%elem_of_cons; [|right; by apply Hcol].
          rewrite Hkey in Hk'. injection Hk' as <-. lia. }
  simpl. f_equal. apply (first_least_strict col k); [done|].
  destruct Hkx as [?|Hlt]; [by left|]. right. split; [done|].
  apply Hcol. apply elem_of_cons in Hin as [->|?]; [|done].
  rewrite Hkey in Hkx'. injection Hkx' as <-. lia.
Qed.

(** When one unused column has strictly fewer rows passing the filter of
    [choose] than every other, [choose] returns it whatever the order in
    which the set is iterated. *)
Lemma choose_unique_least (set_order : gset Z → list Z)
    (placements : list Placement) (universe : gset Z)
    (col_to_rows : gmap Z (list Z)) (u : gset Z) (col k : Z) :
  (∀ s, set_order s ≡ₚ elements s) →
  col ∈ universe ∖ u →
  slack placements col_to_rows u col = Ok k →
  Forall (fun c => c = col
                   ∨ ∃ k', slack placements col_to_rows u c = Ok k' ∧ k < k')
         (elements (universe ∖ u)) →
  choose set_order placements universe col_to_rows u = Ok col.
Proof.
  intros Hperm Hin Hk Hall. unfold choose.
  apply (py_min_by_unique _ _ col k); [|done|].
  - rewrite Hperm. by apply elem_of_elements.
  - by rewrite Hperm.
Qed.

Lemma first_least_le (l : list (Z * Z)) :
  ∀ best bk,
    ∃ kr, (first_least best bk l, kr) ∈ (best, bk) :: l
          ∧ kr ≤ bk
          ∧ Forall (fun xk : Z * Z => kr ≤ xk.2) l.
Proof.
  induction l as [|[x kx] l IH]; intros best bk; simpl.
  - exists bk. split_and!; [by left|lia|constructor].
  - case_bool_decide as Hlt.
    + destruct (IH x kx) as (kr & Hin & Hle & Hall).
      exists kr. split_and!; [by right|lia|].
      constructor; [done|done].
    + destruct (IH best bk) as (kr & Hin & Hle & Hall).
      exists kr. split_and!; [|done|].
      * apply elem_of_cons in Hin as [->|Hin]; [by left|right; by right].
      * constructor; [simpl; lia|done].
Qed.

Lemma py_min_by_least (key : Z → res Z) (l : list Z) (c : Z) :
  py_min_by key l = Ok c →
  c ∈ l ∧ ∃ k, key c = Ok k ∧ ∀ x, x ∈ l → ∃ k', key x = Ok k' ∧ k ≤ k'.
Proof.
  destruct l as [|x0 l]; [done|]. simpl. intros Hrun.
  apply res_bind_Ok in Hrun as (k0 & Hk0 & Hrun).
  apply res_bind_Ok in Hrun as (ks & Hks & [= <-]).
  apply res_mapM_Ok in Hks.
  assert (Hzip : ∀ x k, (x, k) ∈ zip l ks → x ∈ l ∧ key x = Ok k).
  { intros x k [i Hi]%list_elem_of_lookup.
    apply lookup_zip_with_Some in Hi as (a & b & [= -> ->] & Ha & Hb).
    split; [by eapply list_elem_of_lookup_2|].
    eapply Forall2_lookup_lr in Hks; [|exact Ha|exact Hb]. done. }
  assert (Hall : ∀ x, x ∈ l → ∃ k, (x, k) ∈ zip l ks).
  { intros x [i Hi]%list_elem_of_lookup.
    destruct (Forall2_lookup_l _ _ _ _ _ Hks Hi) as (k & Hk & _).
    exists k. apply list_elem_of_lookup. exists i.
    apply lookup_zip_with_Some. by exists x, k. }
  destruct (first_least_le (zip l ks) x0 k0) as (kr & Hin & Hle & Hmin).
  rewrite Forall_forall in Hmin.
  assert (Hc : first_least x0 k0 (zip l ks) ∈ x0 :: l
               ∧ key (first_least x0 k0 (zip l ks)) = Ok kr).
  { apply elem_of_cons in Hin as [[= -> ->]|Hin]; [split; [by left|done]|].
    apply Hzip in Hin as [? ?]. split; [by right|done]. }
  destruct Hc as [Hc1 Hc2]. split; [done|]. exists kr. split; [done|].
  intros x [->|Hx]%elem_of_cons.
  - by exists k0.
  - destruct (Hall x Hx) as [k Hk]. exists k. split; [by apply Hzip in Hk as [_ ?]|].
    exact (Hmin _ Hk).
Qed.

(** What [choose] does return: an unused column of the universe for which
    the number of candidate rows whose squares avoid the used columns is
    least.  The piece column of a row plays no part in that number. *)
Lemma choose_least_slack (set_order : gset Z → list Z)
    (placements : list Placement) (universe : gset Z)
    (col_to_rows : gmap Z (list Z)) (u : gset Z) (col : Z) :
  (∀ s, set_order s ≡ₚ elements s) →
  choose set_order placements universe col_to_rows u = Ok col →
  col ∈ universe ∧ col ∉ u
  ∧ ∃ k, slack placements col_to_rows u col = Ok k
         ∧ ∀ c, c ∈ universe → c ∉ u →
                ∃ k', slack placements col_to_rows u c = Ok k' ∧ k ≤ k'.
Proof.
  intros Hperm Hrun. unfold choose in Hrun.
  apply py_min_by_least in Hrun as (Hin & k & Hk & Hmin).
  rewrite Hperm in Hin. apply elem_of_elements, elem_of_difference in Hin as [? ?].
  split_and!; [done|done|]. exists k. split; [done|].
  intros c Hc Hcu. apply Hmin. rewrite Hperm.
  apply elem_of_elements, elem_of_difference. done.
Qed.

(** The recursive call described by [first_call] is the one [search]
    makes. *)
Lemma search_first_call (set_order : gset Z → list Z)
    (placements : list Placement) (board_cols : gset Z)
    (piece_cols : gmap string Z) (universe : gset Z)
    (col_to_rows : gmap Z (list Z)) (st : state) (row : Z) (st2 : state)
    (fuel : nat) :
  first_call set_order placements board_cols piece_cols universe col_to_rows
    st row st2 →
  ∃ post rc,
    search set_order placements board_cols piece_cols universe col_to_rows
      (S fuel) st
    = '(found, st3) ← search set_order placements board_cols piece_cols
                        universe col_to_rows fuel st2;
      if (found : bool) then Ok (true, st3)
      else s ← pop (sol st3);
           search_rows placements board_cols piece_cols
             (search set_order placements board_cols piece_cols universe
                col_to_rows fuel)
             post (mkState s (used st3 ∖ rc) (tries st3)).
Proof.
  intros (Hne & col & pre & post & rc & Hcol & Hrows & Hpre & Hrc & Hdisj & ->).
  exists post, rc. simpl. rewrite bool_decide_false by done.
  rewrite Hcol. simpl. rewrite Hrows. simpl.
  clear Hcol Hrows.
  assert (Hgen : ∀ tail n,
    search_rows placements board_cols piece_cols
      (search set_order placements board_cols piece_cols universe col_to_rows fuel)
      (pre ++ tail) (mkState (sol st) (used st) n)
    = search_rows placements board_cols piece_cols
      (search set_order placements board_cols piece_cols universe col_to_rows fuel)
      tail (mkState (sol st) (used st) (n + Z.of_nat (length pre)))).
  { intros tail. induction pre as [|r pre IH]; intros n.
    - simpl. by rewrite Z.add_0_r.
    - apply Forall_cons in Hpre as [Hv Hpre]. unfold conflicts in Hv.
      cbn [app search_rows].
      destruct (row_cols placements board_cols piece_cols r) as [rc'| |] eqn:Hr;
        [|done|done].
      apply bool_decide_eq_true in Hv. cbn [mbind res_bind used].
      rewrite bool_decide_true by done.
      rewrite IH by done. f_equal. f_equal. cbn [length sol used tries].
      lia. }
  destruct st as [s u n]. simpl in *. rewrite Hgen. simpl.
  rewrite Hrc. simpl. rewrite bool_decide_false by (intros ?; done).
  done.
Qed.

Lemma search_rows_fills (placements : list Placement) (board_cols : gset Z)
    (piece_cols : gmap string Z) (universe : gset Z)
    (rec : state → res (bool * state)) (rows : list Z) :
  fills universe rec →
  fills universe (search_rows placements board_cols piece_cols rec rows).
Proof.
  intros Hrec. induction rows as [|row rest IH]; intros st st' Hrun; [done|].
  simpl in Hrun.
  apply res_bind_Ok in Hrun as (rc & Hrc & Hrun).
  case_bool_decide as Hconf; [by apply IH in Hrun|].
  apply res_bind_Ok in Hrun as ([found st3] & Hcall & Hrun).
  destruct found.
  - injection Hrun as <-. by apply Hrec in Hcall.
  - apply res_bind_Ok in Hrun as (s & _ & Hrun). by apply IH in Hrun.
Qed.

Lemma search_fills (set_order : gset Z → list Z) (placements : list Placement)
    (board_cols : gset Z) (piece_cols : gmap string Z) (universe : gset Z)
    (col_to_rows : gmap Z (list Z)) (fuel : nat) :
  fills universe
    (search set_order placements board_cols piece_cols universe col_to_rows fuel).
Proof.
  induction fuel as [|fuel IH]; intros st st' Hrun; simpl in Hrun; [done|].
  case_bool_decide as Hfull.
  - by injection Hrun as <-.
  - apply res_bind_Ok in Hrun as (col & _ & Hrun).
    apply res_bind_Ok in Hrun as (rows & _ & Hrun).
    by apply (search_rows_fills _ _ _ _ _ _ IH) in Hrun.
Qed.

(** C3 (as amended).  A call of [search] that reports failure returns with
    [sol] and [used] exactly as they were on entry: every push made below
    it has been undone.  A call that reports success undoes nothing: [sol]
    still starts with the rows it had on entry, [used] has only gained
    columns and is the whole universe. *)
Theorem search_undo_on_failure (set_order : gset Z → list Z)
    (placements : list Placement) (board_cols : gset Z)
    (piece_cols : gmap string Z) (universe : gset Z)
    (col_to_rows : gmap Z (list Z)) (fuel : nat) (st st' : state) (b : bool) :
  search set_order placements board_cols piece_cols universe col_to_rows fuel st
    = Ok (b, st') →
  (b = false → sol st' = sol st ∧ used st' = used st)
  ∧ (b = true → sol st `prefix_of` sol st' ∧ used st ⊆ used st'
                ∧ used st' = universe).
Proof.
  intros Hrun. split; intros ->.
  - by apply search_restores in Hrun.
  - pose proof (search_keeps _ _ _ _ _ _ _ _ _ Hrun) as [Hp Hu].
    by apply search_fills in Hrun.
Qed.

Lemma search_undo_on_failure_witness :
  (false = false →
     sol (may5_state [45; 130; 233; 470] 502)
     = sol (may5_state [45; 130; 233; 470] 112)
     ∧ used (may5_state [45; 130; 233; 470] 502)
       = used (may5_state [45; 130; 233; 470] 112))
  ∧ (false = true →
     sol (may5_state [45; 130; 233; 470] 112)
       `prefix_of` sol (may5_state [45; 130; 233; 470] 502)
     ∧ used (may5_state [45; 130; 233; 470] 112)
       ⊆ used (may5_state [45; 130; 233; 470] 502)
     ∧ used (may5_state [45; 130; 233; 470] 502) = may5_universe).
Proof.
  apply (search_undo_on_failure ascending may5_placements may5_board_cols
           may5_piece_cols may5_universe may5_col_to_rows 9).
  vm_compute. reflexivity.
Defined.

(** C3 (as stated) fails on the success path.  In the run for 5 May the
    state before the last placement has seven rows pushed; [search] pushes
    row 515 (piece F), the nested call finds every column used and returns
    [True], and the early return leaves the row on [sol] and its columns in
    [used]. *)
Lemma search_keeps_solution_on_success :
  may5_search ascending 2
    (may5_state [45; 130; 650; 713; 354; 285; 451] 10143)
  = Ok (true, may5_state [45; 130; 650; 713; 354; 285; 451; 515] 10174)
  ∧ sol (may5_state [45; 130; 650; 713; 354; 285; 451; 515] 10174)
    = sol (may5_state [45; 130; 650; 713; 354; 285; 451] 10143) ++ [515]
  ∧ sol (may5_state [45; 130; 650; 713; 354; 285; 451; 515] 10174)
    ≠ sol (may5_state [45; 130; 650; 713; 354; 285; 451] 10143)
  ∧ used (may5_state [45; 130; 650; 713; 354; 285; 451; 515] 10174)
    ≠ used (may5_state [45; 130; 650; 713; 354; 285; 451] 10143).
Proof.
  split_and!.
  - vm_compute. reflexivity.
  - vm_compute. reflexivity.
  - apply (bool_decide_unpack _). vm_compute. exact I.
  - apply (bool_decide_unpack _). vm_compute. exact I.
Qed.

Lemma solve_exact_cover_sound_witness :
  length may24_solution = 8%nat
  ∧ piece <$> may24_solution ≡ₚ PIECES.*1
  ∧ Forall (fun p => p ∈ generate_placements may24) may24_solution
  ∧ ⋃ ((fun p => list_to_set (squares p)) <$> may24_solution)
    = board_cols_of may24
  ∧ (∀ c, c ∈ board_cols_of may24 ↔
          ∃ xy, valid_cell xy ∧ (xy ∉ may24) ∧ CELL_TO_COL !! xy = Some c)
  ∧ (∀ i j p q, i ≠ j →
       may24_solution !! i = Some p → may24_solution !! j = Some q →
       list_to_set (squares p) ## (list_to_set (squares q) : gset Z)).
Proof.
  apply (solve_exact_cover_sound ascending 9 may24 may24_solution 333).
  vm_compute. reflexivity.
Defined.

Lemma slack_check (placements : list Placement) (col_to_rows : gmap Z (list Z))
    (u : gset Z) (col k : Z) (l : list Z) :
  forallb (fun c => bool_decide (c = col)
                    || match slack placements col_to_rows u c with
                       | Ok k' => bool_decide (k < k')
                       | _ => false
                       end) l = true →
  Forall (fun c => c = col
                   ∨ ∃ k', slack placements col_to_rows u c = Ok k' ∧ k < k') l.
Proof.
  intros Hall. apply Forall_forall. intros c Hc%list_elem_of_In.
  rewrite forallb_forall in Hall. specialize (Hall c Hc).
  apply orb_true_iff in Hall as [Heq|Hlt].
  - left. by apply bool_decide_eq_true in Heq.
  - right. destruct (slack placements col_to_rows u c) as [k'| |]; [|done|done].
    exists k'. split; [done|]. by apply bool_decide_eq_true in Hlt.
Qed.

(** The chosen column at a state of the 5 May run, for any iteration order. *)
Ltac may5_choose_is col k :=
  apply (choose_unique_least _ _ _ _ _ col k);
  [ assumption
  | apply (bool_decide_unpack _); vm_compute; exact I
  | vm_compute; reflexivity
  | apply slack_check; vm_compute; reflexivity ].

Ltac may5_first_call_is col n k row :=
  split;
  [ apply (bool_decide_unpack _); vm_compute; exact I
  | exists col, (take n (default [] (may5_col_to_rows !! col))),
           (drop (S n) (default [] (may5_col_to_rows !! col))),
           (match row_cols may5_placements may5_board_cols may5_piece_cols row
            with Ok rc => rc | _ => ∅ end);
    split_and!;
    [ may5_choose_is col k
    | vm_compute; reflexivity
    | apply (bool_decide_unpack _); vm_compute; exact I
    | vm_compute; reflexivity
    | vm_compute; reflexivity
    | vm_compute; reflexivity ] ].

(** C4.  [choose] does not choose by the number of non-conflicting rows.
    In the run for 5 May (the tables of that run are the first six
    equations), whatever the iteration order of sets, [search] pushes rows
    45, 130 and 233 (pieces A, B, C) in its first three nested calls; in the state reached, [choose] returns column 26, which has 4
    rows that conflict with no used column, although column 13 is unused
    and has only 3 such rows.  The filter in [choose] tests the squares of a
    row only, so it still counts the rows of pieces already placed (5 rows
    for column 26, 6 for column 13). *)
Theorem choose_counts_rows_of_used_pieces :
  generate_placements may5 = may5_placements
  ∧ board_cols_of may5 = may5_board_cols
  ∧ py_max (elements may5_board_cols) = Ok 42
  ∧ piece_cols_of 42 = may5_piece_cols
  ∧ universe_of may5_board_cols may5_piece_cols = may5_universe
  ∧ col_to_rows_of may5_placements may5_board_cols may5_piece_cols may5_universe
    = Ok may5_col_to_rows
  ∧ ∀ set_order : gset Z → list Z,
      (∀ s, set_order s ≡ₚ elements s) →
      may5_first_call set_order (may5_state [] 0) 45 (may5_state [45] 1)
      ∧ may5_first_call set_order (may5_state [45] 1) 130 (may5_state [45; 130] 9)
      ∧ may5_first_call set_order (may5_state [45; 130] 9) 233
          (may5_state [45; 130; 233] 31)
      ∧ may5_choose set_order (used (may5_state [45; 130; 233] 31)) = Ok 26
      ∧ length (may5_viable_rows (used (may5_state [45; 130; 233] 31)) 26) = 4%nat
      ∧ 13 ∈ may5_universe ∖ used (may5_state [45; 130; 233] 31)
      ∧ length (may5_viable_rows (used (may5_state [45; 130; 233] 31)) 13) = 3%nat
      ∧ slack may5_placements may5_col_to_rows
          (used (may5_state [45; 130; 233] 31)) 26 = Ok 5
      ∧ slack may5_placements may5_col_to_rows
          (used (may5_state [45; 130; 233] 31)) 13 = Ok 6.
Proof.
  split_and!.
  - vm_compute. reflexivity.
  - vm_compute. reflexivity.
  - vm_compute. reflexivity.
  - vm_compute. reflexivity.
  - vm_compute. reflexivity.
  - vm_compute. reflexivity.
  - intros set_order Hperm. unfold may5_first_call, may5_choose. split_and!.
    + may5_first_call_is 5 0%nat 5 45.
    + may5_first_call_is 3 7%nat 4 130.
    + may5_first_call_is 6 21%nat 9 233.
    + may5_choose_is 26 5.
    + vm_compute. reflexivity.
    + apply (bool_decide_unpack _). vm_compute. exact I.
    + vm_compute. reflexivity.
    + vm_compute. reflexivity.
    + vm_compute. reflexivity.
Qed.

(** ** Date cells *)

Lemma month_cell_index (m : Z) :
  1 ≤ m ≤ 12 → CELL_TO_COL !! month_cell m = Some (m - 1).
Proof.
  intros Hm.
  assert (Hall : ∀ i, i ∈ range 12 → CELL_TO_COL !! month_cell (i + 1) = Some i).
  { intros i Hi. cases_in_range Hi; vm_compute; reflexivity. }
  specialize (Hall (m - 1)). replace (m - 1 + 1) with m in Hall by lia.
  apply Hall, elem_of_range. lia.
Qed.

Lemma day_cell_index (d : Z) :
  1 ≤ d ≤ 31 → CELL_TO_COL !! day_cell d = Some (d + 11).
Proof.
  intros Hd.
  assert (Hall : ∀ i, i ∈ range 31 →
                      CELL_TO_COL !! day_cell (i + 1) = Some (i + 1 + 11)).
  { intros i Hi. cases_in_range Hi; vm_compute; reflexivity. }
  specialize (Hall (d - 1)). replace (d - 1 + 1) with d in Hall by lia.
  apply Hall, elem_of_range. lia.
Qed.

(** X1.  The month cells and the day cells enumerate the board in index
    order: the cell of month [m] has column index [m - 1] and the cell of
    day [d] has column index [d + 11].  Hence different months (days) have
    different cells, and every valid board cell is the cell of a month or
    of a day. *)
Theorem date_cells_enumerate_board :
  (∀ m, 1 ≤ m ≤ 12 → CELL_TO_COL !! month_cell m = Some (m - 1))
  ∧ (∀ d, 1 ≤ d ≤ 31 → CELL_TO_COL !! day_cell d = Some (d + 11))
  ∧ (∀ m m', 1 ≤ m ≤ 12 → 1 ≤ m' ≤ 12 → month_cell m = month_cell m' → m = m')
  ∧ (∀ d d', 1 ≤ d ≤ 31 → 1 ≤ d' ≤ 31 → day_cell d = day_cell d' → d = d')
  ∧ (∀ xy, valid_cell xy →
       (∃ m, 1 ≤ m ≤ 12 ∧ xy = month_cell m)
       ∨ (∃ d, 1 ≤ d ≤ 31 ∧ xy = day_cell d)).
Proof.
  split_and!.
  - apply month_cell_index.
  - apply day_cell_index.
  - intros m m' Hm Hm' Heq.
    pose proof (month_cell_index m Hm) as H1.
    pose proof (month_cell_index m' Hm') as H2.
    rewrite Heq, H2 in H1. injection H1. lia.
  - intros d d' Hd Hd' Heq.
    pose proof (day_cell_index d Hd) as H1.
    pose proof (day_cell_index d' Hd') as H2.
    rewrite Heq, H2 in H1. injection H1. lia.
  - intros xy Hv. destruct (cell_to_col_spec xy Hv) as (Hc & Hrange & _).
    destruct (decide (cell_to_col xy < 12)) as [Hlt|Hge].
    + left. exists (cell_to_col xy + 1). split; [lia|].
      apply cell_to_col_inj; [done| |].
      * apply valid_cell_board, CELL_TO_COL_dom.
        rewrite month_cell_index by lia. by eexists.
      * unfold cell_to_col at 2. rewrite month_cell_index by lia. simpl. lia.
    + right. exists (cell_to_col xy - 11). split; [lia|].
      apply cell_to_col_inj; [done| |].
      * apply valid_cell_board, CELL_TO_COL_dom.
        rewrite day_cell_index by lia. by eexists.
      * unfold cell_to_col at 2. rewrite day_cell_index by lia. simpl. lia.
Qed.

(** ** Exhaustiveness of the search *)

Lemma res_foldl_prefix {A B} (J : list A → B → Prop) (f : B → A → res B)
    (l : list A) :
  (∀ pre x b b1, J pre b → f b x = Ok b1 → J (pre ++ [x]) b1) →
  ∀ pre b b', J pre b → res_foldl f b l = Ok b' → J (pre ++ l) b'.
Proof.
  intros Hstep. induction l as [|x l IH]; intros pre b b' Hb Hrun; simpl in Hrun.
  - injection Hrun as <-. by rewrite app_nil_r.
  - apply res_bind_Ok in Hrun as (b1 & Hb1 & Hrun).
    replace (pre ++ x :: l) with ((pre ++ [x]) ++ l) by (by rewrite <- app_assoc).
    eapply IH; [|exact Hrun]. by eapply Hstep.
Qed.

Lemma set_fold_alter_lookup {V} (g : V → V) (m : gmap Z V) (X : gset Z) (k : Z) :
  set_fold (fun c (m : gmap Z V) => alter g c m) m X !! k
  = if decide (k ∈ X) then g <$> m !! k else m !! k.
Proof.
  pose (P := fun (r : gmap Z V) (Y : gset Z) =>
               ∀ k, r !! k = if decide (k ∈ Y) then g <$> m !! k else m !! k).
  assert (HP : P (set_fold (fun c (m : gmap Z V) => alter g c m) m X) X);
    [|exact (HP k)].
  apply (set_fold_ind_L P); unfold P.
  - intros k'. by rewrite decide_False by set_solver.
  - intros x Y r Hx Hr k'. rewrite lookup_alter. case_decide as Hxk.
    + subst. rewrite Hr, decide_False by done.
      by rewrite decide_True by set_solver.
    + rewrite Hr. destruct (decide (k' ∈ Y)).
      * by rewrite decide_True by set_solver.
      * by rewrite decide_False by set_solver.
Qed.

Lemma col_to_rows_of_complete (placements : list Placement) (board_cols : gset Z)
    (piece_cols : gmap string Z) (universe : gset Z) (ctr : gmap Z (list Z)) :
  col_to_rows_of placements board_cols piece_cols universe = Ok ctr →
  index_complete placements board_cols piece_cols universe ctr.
Proof.
  intros Hrun.
  pose (J := fun (pre : list (Z * Placement)) (m : gmap Z (list Z)) =>
    (∀ c, c ∈ universe → is_Some (m !! c))
    ∧ ∀ idx pl rc c, (idx, pl) ∈ pre →
        cols_of board_cols piece_cols pl = Ok rc → c ∈ rc → c ∈ universe →
        ∃ rows, m !! c = Some rows ∧ idx ∈ rows).
  assert (HJ : J ([] ++ enumerate placements) ctr).
  { unfold col_to_rows_of in Hrun.
    eapply (res_foldl_prefix J); [|idtac|exact Hrun].
    - intros pre [idx pl] m m1 [Hdom Hin] Hstep.
      apply res_bind_Ok in Hstep as (cols & Hcols & [= <-]). split.
      + intros c Hc. rewrite set_fold_alter_lookup.
        destruct (Hdom c Hc) as [rows ->]. by case_decide.
      + intros idx' pl' rc c [Hpre|Hlast]%elem_of_app Hrc Hc HcU.
        * destruct (Hin idx' pl' rc c Hpre Hrc Hc HcU) as (rows & Hrows & Hidx).
          rewrite set_fold_alter_lookup, Hrows. case_decide; simpl.
          -- eexists. split; [done|]. apply elem_of_app. by left.
          -- by eexists.
        * apply list_elem_of_singleton in Hlast as [= -> ->].
          rewrite Hcols in Hrc. injection Hrc as <-.
          destruct (Hdom c HcU) as [rows Hrows].
          rewrite set_fold_alter_lookup, Hrows, decide_True by done. simpl.
          eexists. split; [done|]. apply elem_of_app. right. by left.
    - split.
      + intros c Hc. exists []. by apply lookup_gset_to_gmap_Some.
      + by intros idx pl rc c ?%elem_of_nil. }
  destruct HJ as [_ HJ]. simpl in HJ.
  intros r rc c Hr Hrc Hc HcU.
  apply row_cols_Ok in Hrc as (pl & pc & Hpl & Hpc & ->).
  apply (HJ r pl (list_to_set (squares pl) ∩ board_cols ∪ {[pc]}) c);
    [| |done|done].
  - apply enumerate_lookup. split; [done|].
    unfold placement_at, py_index in Hpl. rewrite bool_decide_true in Hpl by done.
    by destruct (placements !! Z.to_nat r); simplify_eq/=.
  - unfold cols_of. by rewrite Hpc.
Qed.

Lemma completion_remove (placements : list Placement) (board_cols : gset Z)
    (piece_cols : gmap string Z) (universe : gset Z) (u : gset Z) (R : gset Z)
    (r : Z) (rc : gset Z) :
  completion placements board_cols piece_cols universe u R →
  r ∈ R → row_cols placements board_cols piece_cols r = Ok rc →
  completion placements board_cols piece_cols universe (u ∪ rc) (R ∖ {[r]}).
Proof.
  intros (Hrows & Hdisj & Hcov) Hr Hrc. split_and!.
  - intros r' [Hr' Hne%not_elem_of_singleton]%elem_of_difference.
    destruct (Hrows r' Hr') as (Hpos & rc' & Hrc' & Hu). split; [done|].
    exists rc'. split; [done|].
    pose proof (Hdisj r' r rc' rc Hr' Hr Hne Hrc' Hrc). set_solver.
  - intros r1 r2 rc1 rc2 [H1 _]%elem_of_difference [H2 _]%elem_of_difference.
    by apply Hdisj.
  - intros c Hc Hcu.
    destruct (Hcov c Hc) as (r' & rc' & Hr' & Hrc' & Hin); [set_solver|].
    exists r', rc'. split_and!; [|done|done].
    apply elem_of_difference. split; [done|].
    intros ->%elem_of_singleton. rewrite Hrc in Hrc'. injection Hrc' as <-.
    set_solver.
Qed.

Section exhaustive_search.
Variable set_order : gset Z → list Z.
Hypothesis set_order_perm : ∀ s, set_order s ≡ₚ elements s.
Variable placements : list Placement.
Variable board_cols : gset Z.
Variable piece_cols : gmap string Z.
Variable universe : gset Z.
Variable col_to_rows : gmap Z (list Z).
Hypothesis index_full :
  index_complete placements board_cols piece_cols universe col_to_rows.

Local Abbreviation search_here :=
  (search set_order placements board_cols piece_cols universe col_to_rows).
Local Abbreviation search_rows_here := (search_rows placements board_cols piece_cols).
Local Abbreviation row_cols_here := (row_cols placements board_cols piece_cols).
Local Abbreviation completion_here :=
  (completion placements board_cols piece_cols universe).
Local Abbreviation exhaustive_here :=
  (exhaustive placements board_cols piece_cols universe).

(** A loop that ends in failure has tried, and seen fail, every candidate
    that does not conflict. *)
Lemma search_rows_exhaustive (rec : state → res (bool * state)) (rows : list Z) :
  restores rec → exhaustive_here rec →
  ∀ st st', search_rows_here rec rows st = Ok (false, st') →
    ∀ r rc, r ∈ rows → row_cols_here r = Ok rc → rc ∩ used st = ∅ →
            ∀ R, ¬ completion_here (used st ∪ rc) R.
Proof.
  intros Hres Hrec. induction rows as [|row rest IH];
    intros st st' Hrun r rc Hr Hrc Hfree.
  - by apply elem_of_nil in Hr.
  - simpl in Hrun.
    apply res_bind_Ok in Hrun as (rc0 & Hrc0 & Hrun).
    case_bool_decide as Hconf.
    + apply elem_of_cons in Hr as [->|Hr].
      * rewrite Hrc in Hrc0. injection Hrc0 as <-. simpl in Hconf. done.
      * by apply (IH _ _ Hrun r rc Hr Hrc).
    + assert (Hdisj : rc0 ∩ used st = ∅)
        by (by destruct (decide (rc0 ∩ used st = ∅))).
      apply res_bind_Ok in Hrun as ([found st3] & Hcall & Hrun).
      destruct found; [done|].
      apply elem_of_cons in Hr as [->|Hr].
      * rewrite Hrc in Hrc0. injection Hrc0 as <-.
        exact (Hrec _ _ Hcall).
      * apply Hres in Hcall as [Hsol Hused]. simpl in Hsol, Hused.
        rewrite Hsol, pop_snoc in Hrun. simpl in Hrun.
        pose proof (IH _ _ Hrun r rc Hr Hrc) as Hno. simpl in Hno.
        rewrite Hused in Hno.
        replace ((used st ∪ rc0) ∖ rc0) with (used st) in Hno by set_solver.
        by apply Hno.
Qed.

Lemma search_exhaustive (fuel : nat) : exhaustive_here (search_here fuel).
Proof.
  induction fuel as [|fuel IH]; intros st st' Hrun R HR; simpl in Hrun; [done|].
  case_bool_decide as Hfull; [done|].
  apply res_bind_Ok in Hrun as (col & Hcol & Hrun).
  apply res_bind_Ok in Hrun as (rows & Hrows & Hrun).
  apply choose_least_slack in Hcol as (HcolU & Hcolu & _); [|done].
  destruct HR as (HRrows & HRdisj & HRcov).
  destruct (HRcov col HcolU Hcolu) as (r & rc & Hr & Hrc & Hin).
  destruct (HRrows r Hr) as (Hpos & rc' & Hrc' & Hfree).
  rewrite Hrc in Hrc'. injection Hrc' as <-.
  destruct (index_full r rc col Hpos Hrc Hin HcolU) as (rows' & Hrows' & Hrin).
  destruct (col_to_rows !! col) as [rows0|] eqn:Hlk; [|done].
  simpl in Hrows. injection Hrows as ->. injection Hrows' as ->.
  assert (Hfree' : rc ∩ used st = ∅) by set_solver.
  apply (search_rows_exhaustive _ _ (search_restores _ _ _ _ _ _ fuel) IH
           _ _ Hrun r rc Hrin Hrc Hfree' (R ∖ {[r]})).
  apply completion_remove; [|done|done]. by split_and!.
Qed.

End exhaustive_search.

(** ** The tries counter *)

Lemma search_rows_counts (placements : list Placement) (board_cols : gset Z)
    (piece_cols : gmap string Z) (rec : state → res (bool * state))
    (rows : list Z) :
  restores rec → counts rec →
  counts (search_rows placements board_cols piece_cols rec rows).
Proof.
  intros Hres Hrec. induction rows as [|row rest IH]; intros st b st' Hrun.
  - simpl in Hrun. injection Hrun as <- <-. lia.
  - simpl in Hrun.
    apply res_bind_Ok in Hrun as (rc & Hrc & Hrun).
    case_bool_decide as Hconf.
    + apply IH in Hrun. simpl in Hrun. lia.
    + apply res_bind_Ok in Hrun as ([found st3] & Hcall & Hrun).
      destruct found.
      * injection Hrun as <- <-. apply Hrec in Hcall. simpl in Hcall.
        rewrite length_app in Hcall. simpl in Hcall. lia.
      * pose proof (Hrec _ _ _ Hcall) as Hcount.
        apply Hres in Hcall as [Hsol Hused]. simpl in Hsol, Hcount.
        rewrite Hsol, pop_snoc in Hrun. simpl in Hrun.
        apply IH in Hrun. simpl in Hrun. lia.
Qed.

Lemma search_counts (set_order : gset Z → list Z) (placements : list Placement)
    (board_cols : gset Z) (piece_cols : gmap string Z) (universe : gset Z)
    (col_to_rows : gmap Z (list Z)) (fuel : nat) :
  counts (search set_order placements board_cols piece_cols universe
            col_to_rows fuel).
Proof.
  induction fuel as [|fuel IH]; intros st b st' Hrun; simpl in Hrun; [done|].
  case_bool_decide as Hfull.
  - injection Hrun as <- <-. lia.
  - apply res_bind_Ok in Hrun as (col & _ & Hrun).
    apply res_bind_Ok in Hrun as (rows & _ & Hrun).
    by apply (search_rows_counts _ _ _ _ _ (search_restores _ _ _ _ _ _ fuel) IH)
      in Hrun.
Qed.

(** ** Soundness and exhaustiveness for an arbitrary placement list *)

Lemma tiling_completion (placements : list Placement) (board_cols : gset Z)
    (piece_cols : gmap string Z) (rows : list Z) (U : gset Z) :
  tiling placements board_cols piece_cols rows U →
  NoDup rows
  ∧ (∀ r, r ∈ rows →
       ∃ rc, row_cols placements board_cols piece_cols r = Ok rc ∧ rc ⊆ U)
  ∧ (∀ r1 r2 rc1 rc2, r1 ∈ rows → r2 ∈ rows → r1 ≠ r2 →
       row_cols placements board_cols piece_cols r1 = Ok rc1 →
       row_cols placements board_cols piece_cols r2 = Ok rc2 → rc1 ## rc2)
  ∧ (∀ c, c ∈ U →
       ∃ r rc, r ∈ rows ∧ row_cols placements board_cols piece_cols r = Ok rc
               ∧ c ∈ rc).
Proof.
  induction 1 as [|rows U row rc Htil (Hnd & Hin & Hdisj & Hcov) Hrc Hfresh].
  - split_and!; [constructor|by intros r ?%elem_of_nil| |by intros c ?%not_elem_of_empty].
    by intros r1 r2 rc1 rc2 ?%elem_of_nil.
  - assert (Hne : ∃ c, c ∈ rc).
    { apply row_cols_Ok in Hrc as (pl & pc & _ & _ & ->). exists pc. set_solver. }
    assert (Hnew : row ∉ rows).
    { intros Hrow. destruct (Hin row Hrow) as (rc' & Hrc' & Hsub).
      rewrite Hrc in Hrc'. injection Hrc' as <-.
      destruct Hne as [c Hc]. set_solver. }
    split_and!.
    + apply NoDup_app. split_and!; [done| |apply NoDup_singleton].
      by intros r Hr ->%list_elem_of_singleton.
    + intros r [Hr| ->%list_elem_of_singleton]%elem_of_app.
      * destruct (Hin r Hr) as (rc' & ? & ?). exists rc'. split; [done|set_solver].
      * exists rc. split; [done|set_solver].
    + intros r1 r2 rc1 rc2
        [H1| ->%list_elem_of_singleton]%elem_of_app
        [H2| ->%list_elem_of_singleton]%elem_of_app Hne12 Hrc1 Hrc2.
      * exact (Hdisj r1 r2 rc1 rc2 H1 H2 Hne12 Hrc1 Hrc2).
      * rewrite Hrc in Hrc2. injection Hrc2 as <-.
        destruct (Hin r1 H1) as (rc' & Hrc' & Hsub).
        rewrite Hrc1 in Hrc'. injection Hrc' as <-. set_solver.
      * rewrite Hrc in Hrc1. injection Hrc1 as <-.
        destruct (Hin r2 H2) as (rc' & Hrc' & Hsub).
        rewrite Hrc2 in Hrc'. injection Hrc' as <-. set_solver.
      * done.
    + intros c [Hc|Hc]%elem_of_union.
      * destruct (Hcov c Hc) as (r & rc' & Hr & Hrc' & Hin').
        exists r, rc'. split_and!; [|done|done]. apply elem_of_app. by left.
      * exists row, rc. split_and!; [|done|done].
        apply elem_of_app. right. by apply list_elem_of_singleton.
Qed.

(** Every row listed by the index is a position of the placement list. *)
Lemma col_to_rows_of_positions (placements : list Placement)
    (board_cols : gset Z) (piece_cols : gmap string Z) (universe : gset Z)
    (ctr : gmap Z (list Z)) :
  col_to_rows_of placements board_cols piece_cols universe = Ok ctr →
  ∀ c rows, ctr !! c = Some rows →
            Forall (fun r => 0 ≤ r < Z.of_nat (length placements)) rows.
Proof.
  intros Hrun.
  pose (J := fun (pre : list (Z * Placement)) (m : gmap Z (list Z)) =>
    Forall (fun ip : Z * Placement => ip ∈ enumerate placements) pre →
    ∀ c rows, m !! c = Some rows →
              Forall (fun r => 0 ≤ r < Z.of_nat (length placements)) rows).
  unfold col_to_rows_of in Hrun.
  assert (HJ : J ([] ++ enumerate placements) ctr).
  { eapply (res_foldl_prefix J); [|idtac|exact Hrun].
    - intros pre [idx pl] m m1 Hm Hstep Hall.
      apply Forall_app in Hall as [Hpre Hlast].
      apply Forall_cons in Hlast as [Hlast _].
      apply enumerate_lookup in Hlast as [Hpos Hlk]. apply lookup_lt_Some in Hlk.
      apply res_bind_Ok in Hstep as (cols & _ & [= <-]).
      intros c rows. rewrite set_fold_alter_lookup. case_decide.
      + destruct (m !! c) as [rows0|] eqn:Hc; [|done]. intros [= <-].
        apply Forall_app. split; [by eapply Hm|]. constructor; [lia|done].
      + by apply Hm.
    - intros _ c rows [_ <-]%lookup_gset_to_gmap_Some. constructor. }
  apply HJ. simpl. by apply Forall_forall.
Qed.

Lemma search_rows_pushes_from (placements : list Placement) (board_cols : gset Z)
    (piece_cols : gmap string Z) (P : Z → Prop)
    (rec : state → res (bool * state)) (rows : list Z) :
  restores rec → pushes_from P rec → Forall P rows →
  pushes_from P (search_rows placements board_cols piece_cols rec rows).
Proof.
  intros Hres Hrec. induction rows as [|row rest IH];
    intros Hrows st b st' Hsol Hrun.
  - simpl in Hrun. by injection Hrun as <- <-.
  - apply Forall_cons in Hrows as [Hrow Hrows]. simpl in Hrun.
    apply res_bind_Ok in Hrun as (rc & Hrc & Hrun).
    case_bool_decide as Hconf; [by apply (IH Hrows) in Hrun|].
    apply res_bind_Ok in Hrun as ([found st3] & Hcall & Hrun).
    destruct found.
    + injection Hrun as <- <-. apply Hrec in Hcall; [done|]. simpl.
      apply Forall_app. split; [done|by constructor].
    + apply Hres in Hcall as [Hsol3 _]. simpl in Hsol3.
      rewrite Hsol3, pop_snoc in Hrun. simpl in Hrun.
      by apply (IH Hrows) in Hrun.
Qed.

Lemma search_pushes_from (set_order : gset Z → list Z)
    (placements : list Placement) (board_cols : gset Z)
    (piece_cols : gmap string Z) (universe : gset Z)
    (col_to_rows : gmap Z (list Z)) (P : Z → Prop) (fuel : nat) :
  (∀ c rows, col_to_rows !! c = Some rows → Forall P rows) →
  pushes_from P (search set_order placements board_cols piece_cols universe
                   col_to_rows fuel).
Proof.
  intros Hidx. induction fuel as [|fuel IH]; intros st b st' Hsol Hrun;
    simpl in Hrun; [done|].
  case_bool_decide as Hfull.
  - by injection Hrun as <- <-.
  - apply res_bind_Ok in Hrun as (col & _ & Hrun).
    apply res_bind_Ok in Hrun as (rows & Hrows & Hrun).
    destruct (col_to_rows !! col) as [rows0|] eqn:Hlk; [|done].
    injection Hrows as ->.
    eapply (search_rows_pushes_from _ _ _ P _ rows
              (search_restores _ _ _ _ _ _ fuel) IH); [by eapply Hidx|done|done].
Qed.

(** A returned solution is read off an exact cover. *)
Lemma solve_exact_cover_Some (set_order : gset Z → list Z) (fuel : nat)
    (placements : list Placement) (excluded : gset Cell)
    (solution : list Placement) (n : Z) :
  solve_exact_cover set_order fuel placements excluded = Ok (Some solution, n) →
  ∃ rows, NoDup rows
          ∧ Forall2 (fun r p => 0 ≤ r ∧ placements !! Z.to_nat r = Some p)
                    rows solution
          ∧ exact_cover placements excluded (list_to_set rows).
Proof.
  unfold solve_exact_cover. intros Hrun.
  apply res_bind_Ok in Hrun as (mx & Hmx & Hrun).
  apply res_bind_Ok in Hrun as (ctr & Hctr & Hrun).
  apply res_bind_Ok in Hrun as ([found st] & Hsearch & Hrun).
  destruct found; [|done].
  apply res_bind_Ok in Hrun as (sols & Hsols & [= -> _]).
  pose proof (search_pushes_from _ _ _ _ _ _ _ fuel
                (col_to_rows_of_positions _ _ _ _ _ Hctr)
                (mkState [] ∅ 0) _ _ (Forall_nil_2 _) Hsearch) as Hpos.
  apply search_covers in Hsearch as [Htil Hused]; [|apply tiling_nil].
  simpl in Htil. rewrite Hused in Htil.
  apply tiling_completion in Htil as (Hnd & Hin & Hdisj & Hcov).
  rewrite Forall_forall in Hpos.
  exists (sol st). split_and!; [done| |].
  - apply res_mapM_Ok in Hsols.
    apply Forall2_same_length_lookup_2; [by eapply Forall2_length|].
    intros i r p Hr Hp.
    pose proof (Forall2_lookup_lr _ _ _ _ _ _ Hsols Hr Hp) as Hat. simpl in Hat.
    destruct (Hpos r) as [Hr0 _]; [by eapply list_elem_of_lookup_2|].
    split; [done|]. unfold placement_at, py_index in Hat.
    rewrite bool_decide_true in Hat by done.
    by destruct (placements !! Z.to_nat r); simplify_eq/=.
  - exists mx. split; [done|]. split_and!.
    + intros r Hr%elem_of_list_to_set. destruct (Hpos r Hr) as [Hr0 _].
      split; [done|]. destruct (Hin r Hr) as (rc & Hrc & _).
      exists rc. split; [done|set_solver].
    + intros r1 r2 rc1 rc2 H1%elem_of_list_to_set H2%elem_of_list_to_set.
      by apply Hdisj.
    + intros c Hc _. destruct (Hcov c Hc) as (r & rc & Hr & Hrc & Hcin).
      exists r, rc. split_and!; [by apply elem_of_list_to_set|done|done].
Qed.

(** A reported absence of solutions is an absence of exact covers. *)
Lemma solve_exact_cover_None (set_order : gset Z → list Z) (fuel : nat)
    (placements : list Placement) (excluded : gset Cell) (n : Z) :
  (∀ s, set_order s ≡ₚ elements s) →
  solve_exact_cover set_order fuel placements excluded = Ok (None, n) →
  ∀ R, ¬ exact_cover placements excluded R.
Proof.
  unfold solve_exact_cover. intros Hperm Hrun R (mx' & Hmx' & HR).
  apply res_bind_Ok in Hrun as (mx & Hmx & Hrun).
  rewrite Hmx in Hmx'. injection Hmx' as <-.
  apply res_bind_Ok in Hrun as (ctr & Hctr & Hrun).
  apply res_bind_Ok in Hrun as ([found st] & Hsearch & Hrun).
  destruct found.
  { by apply res_bind_Ok in Hrun as (sols & _ & [=]). }
  eapply (search_exhaustive set_order Hperm) in Hsearch;
    [|by apply col_to_rows_of_complete].
  by apply (Hsearch R).
Qed.

(** In an exact cover of the universe every piece tag occurs once. *)
Lemma tiling_pieces (placements : list Placement) (excluded : gset Cell)
    (mx : Z) (rows : list Z) (pls : list Placement) :
  py_max (elements (board_cols_of excluded)) = Ok mx →
  tiling placements (board_cols_of excluded) (piece_cols_of mx) rows
    (universe_of (board_cols_of excluded) (piece_cols_of mx)) →
  res_mapM (placement_at placements) rows = Ok pls →
  piece <$> pls ≡ₚ PIECES.*1
  ∧ ⋃ ((fun p => list_to_set (squares p) ∩ board_cols_of excluded) <$> pls)
    = board_cols_of excluded
  ∧ (∀ i j p q, i ≠ j → pls !! i = Some p → pls !! j = Some q →
       list_to_set (squares p) ∩ board_cols_of excluded
         ## (list_to_set (squares q) ∩ board_cols_of excluded : gset Z)).
Proof.
  intros Hmx Htil Hpls.
  apply tiling_facts in Htil as (pls' & Hpls' & Hnd & Hin & Hcov & Hdisj).
  rewrite Hpls in Hpls'. injection Hpls' as <-.
  pose proof (piece_cols_fresh _ _ Hmx) as Hfresh.
  split_and!; [| |done].
  - apply NoDup_Permutation; [done|apply PIECES_NoDup|]. intros name. split.
    + intros (p & -> & Hp)%list_elem_of_fmap.
      destruct (Hin p Hp) as (pc & Hpc & _).
      by apply piece_cols_of_above in Hpc as [_ ?].
    + intros Hname. destruct (piece_cols_of_defined mx name Hname) as [pc Hpc].
      assert (HpcP : pc ∈ piece_col_set (piece_cols_of mx))
        by (apply elem_of_piece_col_set; eauto).
      destruct (Hcov pc) as (p & Hp & [Hpiece|[_ Hbc]]).
      * rewrite universe_of_eq. apply elem_of_union. by right.
      * apply list_elem_of_fmap. exists p. split; [|done].
        by eapply piece_cols_of_inj.
      * destruct (Hfresh pc HpcP Hbc).
  - apply set_eq. intros c. rewrite elem_of_union_list. split.
    + intros (X & (p & -> & Hp)%list_elem_of_fmap & Hc).
      by apply elem_of_intersection in Hc as [_ ?].
    + intros Hc. destruct (Hcov c) as (p & Hp & [Hpiece|[Hc' _]]).
      * rewrite universe_of_eq. apply elem_of_union. by left.
      * assert (HcP : c ∈ piece_col_set (piece_cols_of mx))
          by (apply elem_of_piece_col_set; eauto).
        destruct (Hfresh c HcP Hc).
      * exists (list_to_set (squares p) ∩ board_cols_of excluded). split.
        -- apply list_elem_of_fmap. by exists p.
        -- apply elem_of_intersection. split; [by apply elem_of_list_to_set|done].
Qed.

(** X3.  For any placement list: a returned solution is the list of the
    placements at pairwise different positions of the list that form an
    exact cover of the universe; it has 8 placements, one for each piece
    tag, and the parts of their squares that are board columns are
    pairwise disjoint and make up all board columns. *)
Theorem solve_exact_cover_returns_cover (set_order : gset Z → list Z)
    (fuel : nat) (placements : list Placement) (excluded : gset Cell)
    (solution : list Placement) (n : Z) :
  solve_exact_cover set_order fuel placements excluded = Ok (Some solution, n) →
  (∃ rows, NoDup rows
           ∧ Forall2 (fun r p => 0 ≤ r ∧ placements !! Z.to_nat r = Some p)
                     rows solution
           ∧ exact_cover placements excluded (list_to_set rows))
  ∧ length solution = 8%nat
  ∧ piece <$> solution ≡ₚ PIECES.*1
  ∧ ⋃ ((fun p => list_to_set (squares p) ∩ board_cols_of excluded) <$> solution)
    = board_cols_of excluded
  ∧ (∀ i j p q, i ≠ j → solution !! i = Some p → solution !! j = Some q →
       list_to_set (squares p) ∩ board_cols_of excluded
         ## (list_to_set (squares q) ∩ board_cols_of excluded : gset Z)).
Proof.
  intros Hrun. split; [by eapply solve_exact_cover_Some|].
  unfold solve_exact_cover in Hrun.
  apply res_bind_Ok in Hrun as (mx & Hmx & Hrun).
  apply res_bind_Ok in Hrun as (ctr & _ & Hrun).
  apply res_bind_Ok in Hrun as ([found st] & Hsearch & Hrun).
  destruct found; [|done].
  apply res_bind_Ok in Hrun as (sols & Hsols & [= -> _]).
  apply search_covers in Hsearch as [Htil Hused]; [|apply tiling_nil].
  simpl in Htil. rewrite Hused in Htil.
  destruct (tiling_pieces _ _ _ _ _ Hmx Htil Hsols) as (Hperm & Hunion & Hdisj).
  split_and!; [|done|done|done].
  apply Permutation_length in Hperm. by rewrite length_fmap in Hperm.
Qed.

Lemma solve_exact_cover_returns_cover_witness :
  (∃ rows, NoDup rows
           ∧ Forall2 (fun r p => 0 ≤ r ∧ may24_solution !! Z.to_nat r = Some p)
                     rows may24_reordered
           ∧ exact_cover may24_solution may24 (list_to_set rows))
  ∧ length may24_reordered = 8%nat
  ∧ piece <$> may24_reordered ≡ₚ PIECES.*1
  ∧ ⋃ ((fun p => list_to_set (squares p) ∩ board_cols_of may24)
         <$> may24_reordered)
    = board_cols_of may24
  ∧ (∀ i j p q, i ≠ j →
       may24_reordered !! i = Some p → may24_reordered !! j = Some q →
       list_to_set (squares p) ∩ board_cols_of may24
         ## (list_to_set (squares q) ∩ board_cols_of may24 : gset Z)).
Proof.
  apply (solve_exact_cover_returns_cover ascending 9 may24_solution may24
           may24_reordered 8).
  vm_compute. reflexivity.
Defined.

(** X2.  For any placement list and any iteration order of sets: when
    [solve_exact_cover] returns no solution, no set of positions of the
    placement list is an exact cover of the universe.  The search is
    exhaustive whatever column [choose] picks. *)
Theorem solve_exact_cover_exhaustive (set_order : gset Z → list Z) (fuel : nat)
    (placements : list Placement) (excluded : gset Cell) (n : Z) :
  (∀ s, set_order s ≡ₚ elements s) →
  solve_exact_cover set_order fuel placements excluded = Ok (None, n) →
  ¬ ∃ R, exact_cover placements excluded R.
Proof.
  intros Hperm Hrun [R HR]. by eapply solve_exact_cover_None.
Qed.

(** X4.  Whether a solution is found depends neither on the order in which
    sets are iterated nor on the bound on nested calls, once it is at
    least 9: for placements with tags among the eight and two distinct
    valid excluded cells, two runs either both return a solution or both
    return none. *)
Theorem solve_exact_cover_order_independent
    (order1 order2 : gset Z → list Z) (fuel1 fuel2 : nat)
    (placements : list Placement) (a b : Cell) :
  (∀ s, order1 s ≡ₚ elements s) → (∀ s, order2 s ≡ₚ elements s) →
  (9 ≤ fuel1)%nat → (9 ≤ fuel2)%nat →
  Forall (fun p => piece p ∈ PIECES.*1) placements →
  (∃ solution n,
     solve_exact_cover order1 fuel1 placements {[a; b]} = Ok (Some solution, n))
  ↔ (∃ solution n,
     solve_exact_cover order2 fuel2 placements {[a; b]} = Ok (Some solution, n)).
Proof.
  intros Hp1 Hp2 Hf1 Hf2 Hpieces.
  assert (Hdir : ∀ (o o' : gset Z → list Z) (f f' : nat),
            (∀ s, o' s ≡ₚ elements s) → (9 ≤ f')%nat →
            (∃ solution n,
               solve_exact_cover o f placements {[a; b]} = Ok (Some solution, n)) →
            ∃ solution n,
              solve_exact_cover o' f' placements {[a; b]} = Ok (Some solution, n)).
  { intros o o' f f' Hperm' Hfuel' (solution & n & Hrun).
    apply solve_exact_cover_Some in Hrun as (rows & _ & _ & Hcover).
    destruct (solve_exact_cover_returns o' f' placements a b Hperm' Hpieces Hfuel')
      as [[[solution'|] n'] Hrun'].
    - by exists solution', n'.
    - exfalso. eapply solve_exact_cover_None; [exact Hperm'|exact Hrun'|exact Hcover]. }
  split; apply Hdir; done.
Qed.

(** X6.  The returned [tries] is never negative, and it is at least 8
    when a solution is returned: the counter is incremented before every
    push, and a solution has 8 placements. *)
Theorem solve_exact_cover_tries (set_order : gset Z → list Z) (fuel : nat)
    (placements : list Placement) (excluded : gset Cell)
    (r : option (list Placement)) (n : Z) :
  solve_exact_cover set_order fuel placements excluded = Ok (r, n) →
  0 ≤ n ∧ (is_Some r → 8 ≤ n).
Proof.
  unfold solve_exact_cover. intros Hrun.
  apply res_bind_Ok in Hrun as (mx & Hmx & Hrun).
  apply res_bind_Ok in Hrun as (ctr & _ & Hrun).
  apply res_bind_Ok in Hrun as ([found st] & Hsearch & Hrun).
  pose proof (search_counts _ _ _ _ _ _ _ _ _ _ Hsearch) as [Hlen Hmono].
  simpl in Hlen, Hmono.
  destruct found.
  - apply res_bind_Ok in Hrun as (sols & Hsols & [= <- <-]).
    split; [done|]. intros _.
    apply search_covers in Hsearch as [Htil Hused]; [|apply tiling_nil].
    simpl in Htil. rewrite Hused in Htil.
    destruct (tiling_pieces _ _ _ _ _ Hmx Htil Hsols) as (Hperm & _).
    apply Permutation_length in Hperm. rewrite length_fmap in Hperm.
    apply res_mapM_Ok, Forall2_length in Hsols.
    change (length (PIECES.*1)) with 8%nat in Hperm. lia.
  - injection Hrun as <- <-. split; [done|]. by intros [? ?].
Qed.

Lemma solve_exact_cover_tries_witness :
  0 ≤ 8 ∧ (is_Some (Some may24_reordered) → 8 ≤ 8).
Proof.
  apply (solve_exact_cover_tries ascending 9 may24_solution may24
           (Some may24_reordered) 8).
  vm_compute. reflexivity.
Defined.

Lemma descending_perm (s : gset Z) : descending s ≡ₚ elements s.
Proof. unfold descending. rewrite reverse_Permutation. apply ascending_perm. Qed.

Lemma solve_exact_cover_order_independent_witness :
  (∃ solution n,
     solve_exact_cover ascending 9 may24_solution {[month_cell 5; day_cell 24]}
     = Ok (Some solution, n))
  ↔ (∃ solution n,
     solve_exact_cover descending 9 may24_solution {[month_cell 5; day_cell 24]}
     = Ok (Some solution, n)).
Proof.
  apply (solve_exact_cover_order_independent ascending descending 9 9
           may24_solution (month_cell 5) (day_cell 24)).
  - apply ascending_perm.
  - apply descending_perm.
  - lia.
  - lia.
  - apply (bool_decide_unpack _). vm_compute. exact I.
Defined.

Lemma solve_exact_cover_exhaustive_witness :
  ¬ ∃ R, exact_cover may24_upright may24 R.
Proof.
  apply (solve_exact_cover_exhaustive ascending 9 may24_upright may24 8).
  - apply ascending_perm.
  - vm_compute. reflexivity.
Defined.

(** ** Exceptions of the solver *)

Lemma res_foldl_Raise {A B} (f : B → A → res B) (e : exn) (l : list A) :
  (∀ b x, x ∈ l → f b x = Raise e ∨ ∃ b', f b x = Ok b') →
  (∃ x, x ∈ l ∧ ∀ b, f b x = Raise e) →
  ∀ b, res_foldl f b l = Raise e.
Proof.
  induction l as [|y l IH]; intros Hstep (x & Hx & Hraise) b.
  - by apply elem_of_nil in Hx.
  - simpl. destruct (Hstep b y) as [->|[b' Hb']]; [by left|done|].
    rewrite Hb'. simpl. apply elem_of_cons in Hx as [->|Hx].
    + by rewrite Hraise in Hb'.
    + apply IH; [|by exists x]. intros b0 z Hz. apply Hstep. by right.
Qed.

(** A placement whose tag has no piece column stops the construction of
    the index with a [KeyError]. *)
Lemma col_to_rows_of_KeyError (placements : list Placement) (board_cols : gset Z)
    (piece_cols : gmap string Z) (universe : gset Z) (p : Placement) :
  p ∈ placements → piece_cols !! piece p = None →
  col_to_rows_of placements board_cols piece_cols universe = Raise KeyError.
Proof.
  intros Hp Hnone. unfold col_to_rows_of. apply res_foldl_Raise.
  - intros m [idx pl] _. unfold cols_of.
    destruct (piece_cols !! piece pl); simpl; [right; by eexists|by left].
  - apply list_elem_of_lookup in Hp as [i Hi]. exists (Z.of_nat i, p). split.
    + apply enumerate_lookup. split; [lia|]. by rewrite Nat2Z.id.
    + intros m. unfold cols_of. by rewrite Hnone.
Qed.

Lemma piece_cols_of_None (mx : Z) (name : string) :
  piece_cols_of mx !! name = None ↔ name ∉ PIECES.*1.
Proof.
  split.
  - intros Hnone Hin. destruct (piece_cols_of_defined mx name Hin) as [pc Hpc].
    by rewrite Hnone in Hpc.
  - intros Hnin. destruct (piece_cols_of mx !! name) as [pc|] eqn:Hpc; [|done].
    by apply piece_cols_of_above in Hpc as [_ ?].
Qed.

Lemma board_cols_of_nil (excluded : gset Cell) :
  elements (board_cols_of excluded) = [] ↔ ∀ xy, valid_cell xy → xy ∈ excluded.
Proof.
  split.
  - intros Hnil xy Hv. destruct (decide (xy ∈ excluded)) as [|Hex]; [done|].
    assert (Hc : cell_to_col xy ∈ board_cols_of excluded).
    { apply elem_of_board_cols_of. exists xy. split_and!; [done|done|].
      by apply cell_to_col_spec. }
    apply elem_of_elements in Hc. rewrite Hnil in Hc. by apply elem_of_nil in Hc.
  - intros Hall. destruct (elements (board_cols_of excluded)) as [|c l] eqn:Hel;
      [done|].
    assert (Hc : c ∈ board_cols_of excluded)
      by (apply elem_of_elements; rewrite Hel; by left).
    apply elem_of_board_cols_of in Hc as (xy & Hv & Hex & _).
    by destruct (Hex (Hall xy Hv)).
Qed.

(** With a board column left and known tags only, the solver returns. *)
Lemma solve_exact_cover_returns_any (set_order : gset Z → list Z) (fuel : nat)
    (placements : list Placement) (excluded : gset Cell) :
  (∀ s, set_order s ≡ₚ elements s) →
  elements (board_cols_of excluded) ≠ [] →
  Forall (fun p => piece p ∈ PIECES.*1) placements →
  (9 ≤ fuel)%nat →
  ∃ v, solve_exact_cover set_order fuel placements excluded = Ok v.
Proof.
  intros Hperm Hne Hpieces Hfuel. unfold solve_exact_cover.
  destruct (py_max_nonempty _ Hne) as [mx ->]. simpl.
  destruct (col_to_rows_of_Ok placements (board_cols_of excluded)
              (piece_cols_of mx)
              (universe_of (board_cols_of excluded) (piece_cols_of mx)))
    as (ctr & -> & Hwf).
  { eapply Forall_impl; [exact Hpieces|]. intros p Hp.
    by apply piece_cols_of_defined. }
  simpl.
  destruct (search_returns set_order Hperm placements
              (board_cols_of excluded) (piece_cols_of mx) _ ctr
              (universe_of_eq _ _) Hwf fuel (mkState [] ∅ 0))
    as [[found st] Hrun].
  { simpl. set_solver. }
  { simpl. pose proof (pieces_left_initial mx). lia. }
  rewrite Hrun. simpl. destruct found; [|by eexists].
  apply search_covers in Hrun as [Htil _]; [|apply tiling_nil].
  apply tiling_facts in Htil as (pls & -> & _). simpl. by eexists.
Qed.

(** The three ways a call of the solver can go. *)
Lemma solve_exact_cover_outcome (set_order : gset Z → list Z) (fuel : nat)
    (placements : list Placement) (excluded : gset Cell) :
  (∀ s, set_order s ≡ₚ elements s) →
  (elements (board_cols_of excluded) = []
   ∧ solve_exact_cover set_order fuel placements excluded = Raise ValueError)
  ∨ (elements (board_cols_of excluded) ≠ []
     ∧ Exists (fun p => piece p ∉ PIECES.*1) placements
     ∧ solve_exact_cover set_order fuel placements excluded = Raise KeyError)
  ∨ (elements (board_cols_of excluded) ≠ []
     ∧ Forall (fun p => piece p ∈ PIECES.*1) placements
     ∧ (solve_exact_cover set_order fuel placements excluded = OutOfFuel
        ∨ ∃ v, solve_exact_cover set_order fuel placements excluded = Ok v)).
Proof.
  intros Hperm.
  destruct (elements (board_cols_of excluded)) as [|c l] eqn:Hel.
  - left. split; [done|]. unfold solve_exact_cover. by rewrite Hel.
  - right.
    assert (Hne : elements (board_cols_of excluded) ≠ []) by (by rewrite Hel).
    destruct (decide (Forall (fun p => piece p ∈ PIECES.*1) placements))
      as [Hall|Hex].
    + right. split_and!; [done|done|].
      destruct (solve_exact_cover set_order fuel placements excluded)
        as [v|e|] eqn:Hrun; [right; by eexists| |by left].
      exfalso.
      destruct (solve_exact_cover_returns_any set_order (fuel + 9) placements
                  excluded Hperm Hne Hall) as [v Hv]; [lia|].
      rewrite (solve_exact_cover_mono set_order fuel (fuel + 9)) in Hv;
        [|lia|by rewrite Hrun].
      by rewrite Hrun in Hv.
    + left. apply not_Forall_Exists in Hex; [|apply _].
      split_and!; [done| |].
      * eapply Exists_impl; [exact Hex|]. by intros p Hp.
      * apply Exists_exists in Hex as (p & Hp & Hpiece).
        unfold solve_exact_cover.
        destruct (py_max_nonempty _ Hne) as [mx ->]. simpl.
        rewrite (col_to_rows_of_KeyError _ _ _ _ p); [done|done|].
        by apply piece_cols_of_None.
Qed.

(** X5.  The exceptions of [solve_exact_cover], for any placement list and
    excluded set: it raises [ValueError] exactly when every board cell is
    excluded ([max] of no board column); it raises [KeyError] exactly when
    some board cell is left and some placement carries a tag that is none
    of the eight piece tags; it never raises [IndexError]. *)
Theorem solve_exact_cover_raises (set_order : gset Z → list Z) (fuel : nat)
    (placements : list Placement) (excluded : gset Cell) :
  (∀ s, set_order s ≡ₚ elements s) →
  (solve_exact_cover set_order fuel placements excluded = Raise ValueError
   ↔ ∀ xy, valid_cell xy → xy ∈ excluded)
  ∧ (solve_exact_cover set_order fuel placements excluded = Raise KeyError
     ↔ (∃ xy, valid_cell xy ∧ xy ∉ excluded)
       ∧ ∃ p, p ∈ placements ∧ piece p ∉ PIECES.*1)
  ∧ solve_exact_cover set_order fuel placements excluded ≠ Raise IndexError.
Proof.
  intros Hperm.
  assert (Hsome : elements (board_cols_of excluded) ≠ []
                  ↔ ∃ xy, valid_cell xy ∧ xy ∉ excluded).
  { split.
    - intros Hne. destruct (elements (board_cols_of excluded)) as [|c l] eqn:Hel;
        [done|].
      assert (Hc : c ∈ board_cols_of excluded)
        by (apply elem_of_elements; rewrite Hel; by left).
      apply elem_of_board_cols_of in Hc as (xy & Hv & Hex & _). by exists xy.
    - intros (xy & Hv & Hex) Hnil. apply Hex.
      by apply (proj1 (board_cols_of_nil excluded) Hnil). }
  destruct (solve_exact_cover_outcome set_order fuel placements excluded Hperm)
    as [[Hnil ->]|[(Hne & Hex & ->)|(Hne & Hall & Hrun)]].
  - split_and!; [|split; [done|]|done].
    + split; [intros _; by apply board_cols_of_nil|done].
    + intros [Hxy%Hsome _]. by destruct Hxy.
  - split_and!; [split; [done|]| |done].
    + intros Hallex%board_cols_of_nil. by destruct Hne.
    + split; [intros _|done]. split; [by apply Hsome|].
      apply Exists_exists in Hex as (p & ? & ?). by exists p.
  - assert (Hnoraise : ∀ e, solve_exact_cover set_order fuel placements excluded
                            ≠ Raise e).
    { intros e He. destruct Hrun as [Hrun|[v Hrun]]; by rewrite Hrun in He. }
    split_and!; [split| |by apply Hnoraise].
    + intros He. by apply Hnoraise in He.
    + intros Hallex%board_cols_of_nil. by destruct Hne.
    + split; [intros He; by apply Hnoraise in He|].
      intros (_ & p & Hp & Hpiece). destruct Hpiece.
      by apply (proj1 (Forall_forall _ _) Hall).
Qed.

Lemma solve_exact_cover_raises_witness :
  (solve_exact_cover ascending 9 may24_solution may24 = Raise ValueError
   ↔ ∀ xy, valid_cell xy → xy ∈ may24)
  ∧ (solve_exact_cover ascending 9 may24_solution may24 = Raise KeyError
     ↔ (∃ xy, valid_cell xy ∧ xy ∉ may24)
       ∧ ∃ p, p ∈ may24_solution ∧ piece p ∉ PIECES.*1)
  ∧ solve_exact_cover ascending 9 may24_solution may24 ≠ Raise IndexError.
Proof.
  apply (solve_exact_cover_raises ascending 9 may24_solution may24).
  apply ascending_perm.
Defined.

(** ** Symmetries of a shape *)

#[local] Instance pair_le_total : Total pair_le.
Proof. intros [a1 a2] [b1 b2]. unfold pair_le. simpl. lia. Qed.

#[local] Instance pair_le_trans : Transitive pair_le.
Proof. intros [a1 a2] [b1 b2] [c1 c2]. unfold pair_le. simpl. lia. Qed.

#[local] Instance pair_le_antisymm : AntiSymm (=) pair_le.
Proof.
  intros [a1 a2] [b1 b2]. unfold pair_le. simpl. intros H1 H2.
  f_equal; lia.
Qed.

Lemma sorted_pairs_perm (l l' : list (Z * Z)) :
  l ≡ₚ l' → sorted_pairs l = sorted_pairs l'.
Proof.
  intros Hperm. unfold sorted_pairs.
  apply (Sorted_unique pair_le); [apply Sorted_merge_sort, _..|].
  by rewrite !merge_sort_Permutation.
Qed.

Lemma foldl_min_spec (l : list Z) :
  ∀ x, foldl Z.min x l ∈ x :: l ∧ ∀ y, y ∈ x :: l → foldl Z.min x l ≤ y.
Proof.
  induction l as [|z l IH]; intros x; simpl.
  - split; [by left|]. intros y ->%list_elem_of_singleton. lia.
  - destruct (IH (Z.min x z)) as [Hin Hle]. split.
    + apply elem_of_cons in Hin as [Heq|Hin].
      * rewrite Heq. destruct (Z.min_spec x z) as [[_ ->]|[_ ->]];
          [by left|right; by left].
      * right. by right.
    + intros y Hy. apply elem_of_cons in Hy as [->|Hy].
      * specialize (Hle (Z.min x z)). pose proof (Hle ltac:(by left)). lia.
      * apply elem_of_cons in Hy as [->|Hy].
        -- specialize (Hle (Z.min x z)). pose proof (Hle ltac:(by left)). lia.
        -- apply Hle. by right.
Qed.

Lemma foldl_max_spec (l : list Z) :
  ∀ x, foldl Z.max x l ∈ x :: l ∧ ∀ y, y ∈ x :: l → y ≤ foldl Z.max x l.
Proof.
  induction l as [|z l IH]; intros x; simpl.
  - split; [by left|]. intros y ->%list_elem_of_singleton. lia.
  - destruct (IH (Z.max x z)) as [Hin Hle]. split.
    + apply elem_of_cons in Hin as [Heq|Hin].
      * rewrite Heq. destruct (Z.max_spec x z) as [[_ ->]|[_ ->]];
          [right; by left|by left].
      * right. by right.
    + intros y Hy. apply elem_of_cons in Hy as [->|Hy].
      * specialize (Hle (Z.max x z)). pose proof (Hle ltac:(by left)). lia.
      * apply elem_of_cons in Hy as [->|Hy].
        -- specialize (Hle (Z.max x z)). pose proof (Hle ltac:(by left)). lia.
        -- apply Hle. by right.
Qed.

Lemma min_of_spec (l : list Z) :
  l ≠ [] → min_of l ∈ l ∧ ∀ y, y ∈ l → min_of l ≤ y.
Proof. destruct l as [|x l]; [done|]. intros _. apply foldl_min_spec. Qed.

Lemma max_of_spec (l : list Z) :
  l ≠ [] → max_of l ∈ l ∧ ∀ y, y ∈ l → y ≤ max_of l.
Proof. destruct l as [|x l]; [done|]. intros _. apply foldl_max_spec. Qed.

Lemma min_of_unique (l : list Z) (m : Z) :
  m ∈ l → (∀ y, y ∈ l → m ≤ y) → min_of l = m.
Proof.
  intros Hm Hle. destruct (min_of_spec l) as [Hin Hmin].
  { intros ->. by apply elem_of_nil in Hm. }
  specialize (Hle _ Hin). specialize (Hmin _ Hm). lia.
Qed.

Lemma max_of_unique (l : list Z) (m : Z) :
  m ∈ l → (∀ y, y ∈ l → y ≤ m) → max_of l = m.
Proof.
  intros Hm Hle. destruct (max_of_spec l) as [Hin Hmax].
  { intros ->. by apply elem_of_nil in Hm. }
  specialize (Hle _ Hin). specialize (Hmax _ Hm). lia.
Qed.

Lemma min_of_perm (l l' : list Z) : l ≡ₚ l' → min_of l = min_of l'.
Proof.
  intros Hperm. destruct l' as [|x l'].
  - by apply Permutation_nil_r in Hperm as ->.
  - destruct (min_of_spec (x :: l')) as [Hin Hmin]; [done|].
    apply min_of_unique; [by rewrite Hperm|].
    intros y Hy. apply Hmin. by rewrite <- Hperm.
Qed.

Lemma max_of_perm (l l' : list Z) : l ≡ₚ l' → max_of l = max_of l'.
Proof.
  intros Hperm. destruct l' as [|x l'].
  - by apply Permutation_nil_r in Hperm as ->.
  - destruct (max_of_spec (x :: l')) as [Hin Hmax]; [done|].
    apply max_of_unique; [by rewrite Hperm|].
    intros y Hy. apply Hmax. by rewrite <- Hperm.
Qed.

(** Extremes of an increasing and of a decreasing image. *)
Lemma min_of_add (l : list Z) (d : Z) :
  l ≠ [] → min_of ((fun x => x + d) <$> l) = min_of l + d.
Proof.
  intros Hne. destruct (min_of_spec l Hne) as [Hin Hmin].
  apply min_of_unique.
  - apply list_elem_of_fmap. by exists (min_of l).
  - intros y (x & -> & Hx)%list_elem_of_fmap. specialize (Hmin x Hx). lia.
Qed.

Lemma max_of_add (l : list Z) (d : Z) :
  l ≠ [] → max_of ((fun x => x + d) <$> l) = max_of l + d.
Proof.
  intros Hne. destruct (max_of_spec l Hne) as [Hin Hmax].
  apply max_of_unique.
  - apply list_elem_of_fmap. by exists (max_of l).
  - intros y (x & -> & Hx)%list_elem_of_fmap. specialize (Hmax x Hx). lia.
Qed.

Lemma max_of_sub (l : list Z) (k : Z) :
  l ≠ [] → max_of ((fun x => k - x) <$> l) = k - min_of l.
Proof.
  intros Hne. destruct (min_of_spec l Hne) as [Hin Hmin].
  apply max_of_unique.
  - apply list_elem_of_fmap. by exists (min_of l).
  - intros y (x & -> & Hx)%list_elem_of_fmap. specialize (Hmin x Hx). lia.
Qed.

Lemma fmap_nonempty {A B} (f : A → B) (l : list A) : l ≠ [] → f <$> l ≠ [].
Proof. by destruct l. Qed.

Lemma translate_rows (dr dc : Z) (cs : CoordSet) :
  (translate dr dc cs).*1 = (fun x => x + dr) <$> cs.*1.
Proof.
  unfold translate. rewrite <- !list_fmap_compose.
  apply list_fmap_ext. by intros i [r c] _.
Qed.

Lemma translate_cols (dr dc : Z) (cs : CoordSet) :
  (translate dr dc cs).*2 = (fun x => x + dc) <$> cs.*2.
Proof.
  unfold translate. rewrite <- !list_fmap_compose.
  apply list_fmap_ext. by intros i [r c] _.
Qed.

Lemma translate_translate (dr dc dr' dc' : Z) (cs : CoordSet) :
  translate dr dc (translate dr' dc' cs) = translate (dr' + dr) (dc' + dc) cs.
Proof.
  unfold translate. rewrite <- list_fmap_compose.
  apply list_fmap_ext. intros i [r c] _. simpl. f_equal; lia.
Qed.

Lemma translate_0 (cs : CoordSet) : translate 0 0 cs = cs.
Proof.
  unfold translate. rewrite <- (list_fmap_id cs) at 2.
  apply list_fmap_ext. intros i [r c] _. simpl. f_equal; lia.
Qed.

Lemma normalize_eq (cs : CoordSet) :
  normalize cs
  = sorted_pairs (translate (- min_of (cs.*1)) (- min_of (cs.*2)) cs).
Proof.
  unfold normalize, translate. f_equal.
Qed.

Lemma normalize_perm_translate (cs : CoordSet) :
  normalize cs ≡ₚ translate (- min_of (cs.*1)) (- min_of (cs.*2)) cs.
Proof. rewrite normalize_eq. apply merge_sort_Permutation. Qed.

Lemma normalize_translate (dr dc : Z) (cs : CoordSet) :
  normalize (translate dr dc cs) = normalize cs.
Proof.
  destruct (decide (cs = [])) as [->|Hne]; [done|].
  rewrite !normalize_eq, translate_rows, translate_cols.
  rewrite !min_of_add by (by apply fmap_nonempty).
  rewrite translate_translate. do 2 f_equal; lia.
Qed.

Lemma normalize_perm (cs cs' : CoordSet) :
  cs ≡ₚ cs' → normalize cs = normalize cs'.
Proof.
  intros Hperm. rewrite !normalize_eq.
  rewrite (min_of_perm (cs.*1) (cs'.*1)) by (by rewrite Hperm).
  rewrite (min_of_perm (cs.*2) (cs'.*2)) by (by rewrite Hperm).
  apply sorted_pairs_perm. unfold translate. by rewrite Hperm.
Qed.

Lemma normalize_idemp (cs : CoordSet) : normalize (normalize cs) = normalize cs.
Proof.
  rewrite (normalize_perm _ _ (normalize_perm_translate cs)).
  apply normalize_translate.
Qed.

Lemma normalize_nonempty (cs : CoordSet) : cs ≠ [] → normalize cs ≠ [].
Proof.
  intros Hne Hnil. pose proof (normalize_perm_translate cs) as Hperm.
  rewrite Hnil in Hperm. apply Permutation_nil_l in Hperm.
  unfold translate in Hperm. by destruct cs.
Qed.

Lemma rotate_eq (cs : CoordSet) :
  rotate cs = (fun '(r, c) => (c, max_of (cs.*1) - r)) <$> cs.
Proof.
  unfold rotate. apply list_fmap_ext. intros i [r c] _. simpl. f_equal. lia.
Qed.

Lemma flip_eq (cs : CoordSet) :
  flip cs = (fun '(r, c) => (r, max_of (cs.*2) - c)) <$> cs.
Proof.
  unfold flip. apply list_fmap_ext. intros i [r c] _. simpl. f_equal. lia.
Qed.

Lemma rotate_nonempty (cs : CoordSet) : cs ≠ [] → rotate cs ≠ [].
Proof. unfold rotate. apply fmap_nonempty. Qed.

Lemma flip_nonempty (cs : CoordSet) : cs ≠ [] → flip cs ≠ [].
Proof. unfold flip. apply fmap_nonempty. Qed.

Lemma rotate_rows (cs : CoordSet) : (rotate cs).*1 = cs.*2.
Proof.
  rewrite rotate_eq, <- list_fmap_compose.
  apply list_fmap_ext. by intros i [r c] _.
Qed.

Lemma rotate_cols (cs : CoordSet) :
  (rotate cs).*2 = (fun r => max_of (cs.*1) - r) <$> cs.*1.
Proof.
  rewrite rotate_eq, <- !list_fmap_compose.
  apply list_fmap_ext. by intros i [r c] _.
Qed.

Lemma flip_rows (cs : CoordSet) : (flip cs).*1 = cs.*1.
Proof.
  rewrite flip_eq, <- list_fmap_compose.
  apply list_fmap_ext. by intros i [r c] _.
Qed.

Lemma flip_cols (cs : CoordSet) :
  (flip cs).*2 = (fun c => max_of (cs.*2) - c) <$> cs.*2.
Proof.
  rewrite flip_eq, <- !list_fmap_compose.
  apply list_fmap_ext. by intros i [r c] _.
Qed.

Lemma rotate_translate (dr dc : Z) (cs : CoordSet) :
  rotate (translate dr dc cs) = translate dc 0 (rotate cs).
Proof.
  destruct (decide (cs = [])) as [->|Hne]; [done|].
  rewrite !rotate_eq, translate_rows, max_of_add by (by apply fmap_nonempty).
  unfold translate. rewrite <- !list_fmap_compose.
  apply list_fmap_ext. intros i [r c] _. simpl. f_equal. lia.
Qed.

Lemma flip_translate (dr dc : Z) (cs : CoordSet) :
  flip (translate dr dc cs) = translate dr 0 (flip cs).
Proof.
  destruct (decide (cs = [])) as [->|Hne]; [done|].
  rewrite !flip_eq, translate_cols, max_of_add by (by apply fmap_nonempty).
  unfold translate. rewrite <- !list_fmap_compose.
  apply list_fmap_ext. intros i [r c] _. simpl. f_equal. lia.
Qed.

Lemma rotate_perm (cs cs' : CoordSet) : cs ≡ₚ cs' → rotate cs ≡ₚ rotate cs'.
Proof.
  intros Hperm. rewrite !rotate_eq.
  rewrite (max_of_perm (cs.*1) (cs'.*1)) by (by rewrite Hperm).
  by rewrite Hperm.
Qed.

Lemma flip_perm (cs cs' : CoordSet) : cs ≡ₚ cs' → flip cs ≡ₚ flip cs'.
Proof.
  intros Hperm. rewrite !flip_eq.
  rewrite (max_of_perm (cs.*2) (cs'.*2)) by (by rewrite Hperm).
  by rewrite Hperm.
Qed.

(** Turning and flipping respect the normal form. *)
Lemma same_shape_rotate (cs cs' : CoordSet) :
  same_shape cs cs' → same_shape (rotate cs) (rotate cs').
Proof.
  assert (Hn : ∀ x, normalize (rotate (normalize x)) = normalize (rotate x)).
  { intros x.
    rewrite (normalize_perm _ _ (rotate_perm _ _ (normalize_perm_translate x))).
    rewrite rotate_translate. apply normalize_translate. }
  unfold same_shape. intros Heq. by rewrite <- (Hn cs), Heq, Hn.
Qed.

Lemma same_shape_flip (cs cs' : CoordSet) :
  same_shape cs cs' → same_shape (flip cs) (flip cs').
Proof.
  assert (Hn : ∀ x, normalize (flip (normalize x)) = normalize (flip x)).
  { intros x.
    rewrite (normalize_perm _ _ (flip_perm _ _ (normalize_perm_translate x))).
    rewrite flip_translate. apply normalize_translate. }
  unfold same_shape. intros Heq. by rewrite <- (Hn cs), Heq, Hn.
Qed.

Lemma same_shape_turns (k : nat) (cs cs' : CoordSet) :
  same_shape cs cs' → same_shape (turns k cs) (turns k cs').
Proof.
  intros Heq. induction k as [|k IH]; [done|]. simpl.
  by apply same_shape_rotate.
Qed.

(** Turning and flipping a shape whose rows and columns were mapped
    separately. *)
Lemma rotate_straight (f g : Z → Z) (cs : CoordSet) :
  rotate ((fun '(r, c) => (f r, g c)) <$> cs)
  = (fun '(r, c) => (g c, max_of (f <$> cs.*1) - f r)) <$> cs.
Proof.
  rewrite rotate_eq.
  assert (Hrows : fst <$> ((fun '(r, c) => (f r, g c)) <$> cs) = f <$> cs.*1).
  { rewrite <- !list_fmap_compose. apply list_fmap_ext. by intros i [r c] _. }
  rewrite Hrows. generalize (max_of (f <$> cs.*1)). intros m.
  rewrite <- list_fmap_compose. apply list_fmap_ext. by intros i [r c] _.
Qed.

Lemma rotate_swapped (f g : Z → Z) (cs : CoordSet) :
  rotate ((fun '(r, c) => (f c, g r)) <$> cs)
  = (fun '(r, c) => (g r, max_of (f <$> cs.*2) - f c)) <$> cs.
Proof.
  rewrite rotate_eq.
  assert (Hrows : fst <$> ((fun '(r, c) => (f c, g r)) <$> cs) = f <$> cs.*2).
  { rewrite <- !list_fmap_compose. apply list_fmap_ext. by intros i [r c] _. }
  rewrite Hrows. generalize (max_of (f <$> cs.*2)). intros m.
  rewrite <- list_fmap_compose. apply list_fmap_ext. by intros i [r c] _.
Qed.

Lemma flip_straight (f g : Z → Z) (cs : CoordSet) :
  flip ((fun '(r, c) => (f r, g c)) <$> cs)
  = (fun '(r, c) => (f r, max_of (g <$> cs.*2) - g c)) <$> cs.
Proof.
  rewrite flip_eq.
  assert (Hcols : snd <$> ((fun '(r, c) => (f r, g c)) <$> cs) = g <$> cs.*2).
  { rewrite <- !list_fmap_compose. apply list_fmap_ext. by intros i [r c] _. }
  rewrite Hcols. generalize (max_of (g <$> cs.*2)). intros m.
  rewrite <- list_fmap_compose. apply list_fmap_ext. by intros i [r c] _.
Qed.

Lemma flip_swapped (f g : Z → Z) (cs : CoordSet) :
  flip ((fun '(r, c) => (f c, g r)) <$> cs)
  = (fun '(r, c) => (f c, max_of (g <$> cs.*1) - g r)) <$> cs.
Proof.
  rewrite flip_eq.
  assert (Hcols : snd <$> ((fun '(r, c) => (f c, g r)) <$> cs) = g <$> cs.*1).
  { rewrite <- !list_fmap_compose. apply list_fmap_ext. by intros i [r c] _. }
  rewrite Hcols. generalize (max_of (g <$> cs.*1)). intros m.
  rewrite <- list_fmap_compose. apply list_fmap_ext. by intros i [r c] _.
Qed.

Lemma straight_id (cs : CoordSet) :
  cs = (fun '(r, c) => ((fun x : Z => x) r, (fun x : Z => x) c)) <$> cs.
Proof.
  rewrite <- (list_fmap_id cs) at 1. apply list_fmap_ext. by intros i [r c] _.
Qed.

Lemma fmap_same (l : list Z) : (fun x : Z => x) <$> l = l.
Proof. apply list_fmap_id. Qed.

(** Four quarter turns, and two flips, only move the shape. *)
Lemma rotate_4 (cs : CoordSet) :
  cs ≠ [] →
  rotate (rotate (rotate (rotate cs)))
  = translate (- min_of (cs.*1)) (- min_of (cs.*2)) cs.
Proof.
  intros Hne.
  assert (H1 : cs.*1 ≠ []) by (by apply fmap_nonempty).
  assert (H2 : cs.*2 ≠ []) by (by apply fmap_nonempty).
  rewrite (straight_id cs) at 1.
  rewrite rotate_straight, rotate_swapped, rotate_straight, rotate_swapped.
  rewrite !fmap_same, !max_of_sub by done.
  unfold translate. apply list_fmap_ext. intros i [r c] _. simpl. f_equal; lia.
Qed.

Lemma flip_2 (cs : CoordSet) :
  cs ≠ [] → flip (flip cs) = translate 0 (- min_of (cs.*2)) cs.
Proof.
  intros Hne.
  assert (H2 : cs.*2 ≠ []) by (by apply fmap_nonempty).
  rewrite (straight_id cs) at 1.
  rewrite !flip_straight.
  rewrite !fmap_same, !max_of_sub by done.
  unfold translate. apply list_fmap_ext. intros i [r c] _. simpl. f_equal; lia.
Qed.

(** A flip after a quarter turn is three quarter turns after a flip. *)
Lemma rotate_3_flip (cs : CoordSet) :
  cs ≠ [] →
  rotate (rotate (rotate (flip cs)))
  = (fun '(r, c) => (c - min_of (cs.*2), r - min_of (cs.*1))) <$> cs.
Proof.
  intros Hne.
  assert (H1 : cs.*1 ≠ []) by (by apply fmap_nonempty).
  assert (H2 : cs.*2 ≠ []) by (by apply fmap_nonempty).
  rewrite (straight_id cs) at 1.
  rewrite flip_straight, rotate_straight, rotate_swapped, rotate_straight.
  rewrite !fmap_same.
  rewrite (max_of_sub (cs.*2)) by done.
  rewrite (max_of_sub (cs.*1)) by done.
  apply list_fmap_ext. intros i [r c] _. simpl. f_equal; lia.
Qed.

Lemma flip_after_rotate (cs : CoordSet) :
  cs ≠ [] →
  flip (rotate cs) = (fun '(r, c) => (c, r - min_of (cs.*1))) <$> cs.
Proof.
  intros Hne.
  assert (H1 : cs.*1 ≠ []) by (by apply fmap_nonempty).
  rewrite (straight_id cs) at 1.
  rewrite rotate_straight, flip_swapped.
  rewrite !fmap_same, !max_of_sub by done.
  apply list_fmap_ext. intros i [r c] _. simpl. f_equal; lia.
Qed.

Lemma flip_rotate (cs : CoordSet) :
  cs ≠ [] →
  rotate (rotate (rotate (flip cs)))
  = translate (- min_of (cs.*2)) 0 (flip (rotate cs)).
Proof.
  intros Hne. rewrite rotate_3_flip, flip_after_rotate by done.
  unfold translate. rewrite <- list_fmap_compose.
  apply list_fmap_ext. intros i [r c] _. simpl. f_equal; lia.
Qed.

Lemma normalize_sorted (cs : CoordSet) : Sorted pair_le (normalize cs).
Proof. unfold normalize, sorted_pairs. apply Sorted_merge_sort, _. Qed.

Lemma normalize_min (cs : CoordSet) :
  cs ≠ [] → min_of ((normalize cs).*1) = 0 ∧ min_of ((normalize cs).*2) = 0.
Proof.
  intros Hne. pose proof (normalize_perm_translate cs) as Hperm.
  rewrite (min_of_perm _ _ (fmap_Permutation fst _ _ Hperm)).
  rewrite (min_of_perm _ _ (fmap_Permutation snd _ _ Hperm)).
  rewrite translate_rows, translate_cols.
  rewrite !min_of_add by (by apply fmap_nonempty). lia.
Qed.

(** X7.  [normalize] computes a normal form of a non-empty coordinate
    tuple: the result is the tuple moved so that its least row and its
    least column are 0, sorted; it is unchanged by a second [normalize],
    and it is the same for every translate and every reordering of the
    tuple. *)
Theorem normalize_normal_form (cs : CoordSet) :
  cs ≠ [] →
  normalize cs ≡ₚ translate (- min_of (cs.*1)) (- min_of (cs.*2)) cs
  ∧ Sorted pair_le (normalize cs)
  ∧ min_of ((normalize cs).*1) = 0 ∧ min_of ((normalize cs).*2) = 0
  ∧ normalize (normalize cs) = normalize cs
  ∧ (∀ dr dc, normalize (translate dr dc cs) = normalize cs)
  ∧ (∀ cs', cs' ≡ₚ cs → normalize cs' = normalize cs).
Proof.
  intros Hne. split_and!.
  - apply normalize_perm_translate.
  - apply normalize_sorted.
  - by apply normalize_min.
  - by apply normalize_min.
  - apply normalize_idemp.
  - intros dr dc. apply normalize_translate.
  - intros cs' Hperm. by apply normalize_perm.
Qed.

Lemma normalize_normal_form_witness :
  let cs : CoordSet := [(3, 4); (2, 4); (2, 5)] in
  normalize cs ≡ₚ translate (- min_of (cs.*1)) (- min_of (cs.*2)) cs
  ∧ Sorted pair_le (normalize cs)
  ∧ min_of ((normalize cs).*1) = 0 ∧ min_of ((normalize cs).*2) = 0
  ∧ normalize (normalize cs) = normalize cs
  ∧ (∀ dr dc, normalize (translate dr dc cs) = normalize cs)
  ∧ (∀ cs', cs' ≡ₚ cs → normalize cs' = normalize cs).
Proof. apply (normalize_normal_form [(3, 4); (2, 4); (2, 5)]). done. Defined.

Lemma turns_nonempty (k : nat) (cs : CoordSet) : cs ≠ [] → turns k cs ≠ [].
Proof.
  intros Hne. induction k as [|k IH]; [done|]. simpl. by apply rotate_nonempty.
Qed.

Lemma turns_add (j k : nat) (cs : CoordSet) :
  turns (j + k) cs = turns j (turns k cs).
Proof. unfold turns. apply Nat.iter_add. Qed.

Lemma same_shape_translate (dr dc : Z) (cs : CoordSet) :
  same_shape (translate dr dc cs) cs.
Proof. apply normalize_translate. Qed.

Lemma same_shape_normalize (cs : CoordSet) : same_shape (normalize cs) cs.
Proof. apply normalize_idemp. Qed.

Lemma same_shape_turns_4 (cs : CoordSet) : cs ≠ [] → same_shape (turns 4 cs) cs.
Proof.
  intros Hne. unfold turns. simpl. rewrite rotate_4 by done.
  apply same_shape_translate.
Qed.

Lemma same_shape_flip_2 (cs : CoordSet) :
  cs ≠ [] → same_shape (flip (flip cs)) cs.
Proof. intros Hne. rewrite flip_2 by done. apply same_shape_translate. Qed.

Lemma same_shape_flip_rotate (cs : CoordSet) :
  cs ≠ [] → same_shape (flip (rotate cs)) (turns 3 (flip cs)).
Proof.
  intros Hne. unfold turns. simpl. rewrite flip_rotate by done.
  symmetry. apply same_shape_translate.
Qed.

(** X8.  [rotate] and [flip] generate the symmetries of the square, up to
    a translation: four quarter turns and two flips bring a non-empty
    coordinate tuple back to where it was, moved so that its least row and
    column (the least column, for two flips) become 0; a flip after a quarter
    turn has the shape of three quarter turns after a flip; and both keep the
    number of squares. *)
Theorem rotate_flip_symmetries (cs : CoordSet) :
  cs ≠ [] →
  rotate (rotate (rotate (rotate cs)))
  = translate (- min_of (cs.*1)) (- min_of (cs.*2)) cs
  ∧ flip (flip cs) = translate 0 (- min_of (cs.*2)) cs
  ∧ normalize (rotate (rotate (rotate (rotate cs)))) = normalize cs
  ∧ normalize (flip (flip cs)) = normalize cs
  ∧ normalize (flip (rotate cs)) = normalize (rotate (rotate (rotate (flip cs))))
  ∧ length (rotate cs) = length cs ∧ length (flip cs) = length cs.
Proof.
  intros Hne. split_and!.
  - by apply rotate_4.
  - by apply flip_2.
  - by apply (same_shape_turns_4 cs).
  - by apply same_shape_flip_2.
  - by apply (same_shape_flip_rotate cs).
  - apply rotate_length.
  - apply flip_length.
Qed.

Lemma rotate_flip_symmetries_witness :
  let cs : CoordSet := [(0, 0); (1, 0); (2, 0); (2, 1)] in
  rotate (rotate (rotate (rotate cs)))
  = translate (- min_of (cs.*1)) (- min_of (cs.*2)) cs
  ∧ flip (flip cs) = translate 0 (- min_of (cs.*2)) cs
  ∧ normalize (rotate (rotate (rotate (rotate cs)))) = normalize cs
  ∧ normalize (flip (flip cs)) = normalize cs
  ∧ normalize (flip (rotate cs)) = normalize (rotate (rotate (rotate (flip cs))))
  ∧ length (rotate cs) = length cs ∧ length (flip cs) = length cs.
Proof. apply (rotate_flip_symmetries [(0, 0); (1, 0); (2, 0); (2, 1)]). done. Defined.

(** ** The orientations of a shape *)

#[local] Instance same_shape_equiv : Equivalence same_shape.
Proof.
  unfold same_shape. split.
  - by intros x.
  - by intros x y.
  - intros x y z. congruence.
Qed.

(** Any number of quarter turns has the shape of fewer than four. *)
Lemma turns_mod_4 (k : nat) (cs : CoordSet) :
  cs ≠ [] → ∃ j, (j < 4)%nat ∧ same_shape (turns k cs) (turns j cs).
Proof.
  intros Hne. induction k as [|k (j & Hj & IH)]; [exists 0%nat; split; [lia|done]|].
  destruct (decide (j = 3%nat)) as [->|Hj3].
  - exists 0%nat. split; [lia|].
    transitivity (turns 4 cs); [|by apply same_shape_turns_4].
    change (same_shape (rotate (turns k cs)) (rotate (turns 3 cs))).
    by apply same_shape_rotate.
  - exists (S j). split; [lia|].
    change (same_shape (rotate (turns k cs)) (rotate (turns j cs))).
    by apply same_shape_rotate.
Qed.

Lemma flip_turns (k : nat) (cs : CoordSet) :
  cs ≠ [] → same_shape (flip (turns k cs)) (turns (3 * k) (flip cs)).
Proof.
  intros Hne. induction k as [|k IH]; [done|].
  replace (3 * S k)%nat with (3 + 3 * k)%nat by lia. rewrite turns_add.
  transitivity (turns 3 (flip (turns k cs))).
  - change (turns (S k) cs) with (rotate (turns k cs)).
    apply same_shape_flip_rotate. by apply turns_nonempty.
  - by apply same_shape_turns.
Qed.

Lemma candidates_eq (g : RawPiece) :
  candidates g
  = [false; true] ≫= fun fl : bool =>
    [0%nat; 1%nat; 2%nat; 3%nat] ≫= fun k : nat =>
    [(normalize (turns k (if fl then flip (grid_to_coords g)
                          else grid_to_coords g)),
      90 * Z.of_nat k, fl)].
Proof. done. Qed.

Lemma elem_of_candidates (g : RawPiece) (t : Transform) :
  t ∈ candidates g ↔
  ∃ k, (k < 4)%nat
       ∧ t = (normalize (turns k (if t.2 then flip (grid_to_coords g)
                                  else grid_to_coords g)),
              90 * Z.of_nat k, t.2).
Proof.
  rewrite candidates_eq. generalize (grid_to_coords g). intros base. split.
  - intros Ht. cbn [mbind list_bind mret list_ret app] in Ht.
    repeat (apply elem_of_cons in Ht as [->|Ht]);
      [exists 0%nat|exists 1%nat|exists 2%nat|exists 3%nat
      |exists 0%nat|exists 1%nat|exists 2%nat|exists 3%nat|];
      try (split; [lia|done]).
    by apply elem_of_nil in Ht.
  - intros (k & Hk & ->). destruct t as [[cs rot] fl]. cbn [snd].
    cbn [mbind list_bind mret list_ret app].
    destruct fl;
      destruct k as [|[|[|[|k]]]]; try lia;
      rewrite !elem_of_cons; tauto.
Qed.

Lemma first_seen_elem (l : list Transform) (prev : list CoordSet) (t : Transform) :
  t ∈ first_seen prev l → t ∈ l.
Proof.
  revert prev. induction l as [|u l IH]; intros prev; simpl.
  - by intros ?%elem_of_nil.
  - rewrite elem_of_app. intros [Hhd|Htl].
    + case_bool_decide; [by apply elem_of_nil in Hhd|].
      apply list_elem_of_singleton in Hhd as ->. by left.
    + right. by eapply IH.
Qed.

Lemma first_seen_covers (l : list Transform) (prev : list CoordSet) (t : Transform) :
  t ∈ l → t.1.1 ∈ prev ∨ ∃ t', t' ∈ first_seen prev l ∧ t'.1.1 = t.1.1.
Proof.
  revert prev. induction l as [|u l IH]; intros prev Ht.
  - by apply elem_of_nil in Ht.
  - simpl. apply elem_of_cons in Ht as [->|Ht].
    + case_bool_decide as Hin; [by left|].
      right. exists u. split; [|done]. apply elem_of_app. left. by left.
    + destruct (IH (u.1.1 :: prev) Ht) as [Hin|(t' & Ht' & Heq)].
      * apply elem_of_cons in Hin as [Heq|Hin]; [|by left].
        case_bool_decide as Hu; [left; by rewrite Heq|].
        right. exists u. split; [|done]. apply elem_of_app. left. by left.
      * right. exists t'. split; [|done]. apply elem_of_app. by right.
Qed.

(** Every image of the base shape under a flip or not and any number of
    quarter turns is among the orientations, in normal form. *)
Lemma all_transforms_image (g : RawPiece) (fl : bool) (k : nat) :
  grid_to_coords g ≠ [] →
  ∃ t, t ∈ all_transforms g
       ∧ t.1.1 = normalize (turns k (if fl then flip (grid_to_coords g)
                                     else grid_to_coords g)).
Proof.
  intros Hne.
  set (x := if fl then flip (grid_to_coords g) else grid_to_coords g).
  assert (Hx : x ≠ []) by (unfold x; destruct fl; [by apply flip_nonempty|done]).
  destruct (turns_mod_4 k x Hx) as (j & Hj & Hsame).
  destruct (first_seen_covers (candidates g) [] (normalize (turns j x), 90 * Z.of_nat j, fl))
    as [Hin|(t & Ht & Heq)].
  - apply elem_of_candidates. exists j. split; [lia|done].
  - by apply elem_of_nil in Hin.
  - exists t. split; [by rewrite all_transforms_first_seen|].
    rewrite Heq. simpl. symmetry. exact Hsame.
Qed.

(** X9.  For every grid with at least one filled cell, [all_transforms]
    returns the whole orbit of the shape under the symmetries of the
    square and nothing else: every orientation is the normal form of the
    base shape, flipped as its flag says, after [rotation / 90] quarter
    turns; every image of the base shape under any number of quarter
    turns, with or without a flip, is the coordinate tuple of an
    orientation; so the orientations are closed under turning and
    flipping. *)
Theorem all_transforms_orbit (g : RawPiece) :
  grid_to_coords g ≠ [] →
  (∀ t : Transform, t ∈ all_transforms g →
     ∃ k, (k < 4)%nat ∧ t.1.2 = 90 * Z.of_nat k
          ∧ t.1.1 = normalize (turns k (if t.2 then flip (grid_to_coords g)
                                        else grid_to_coords g)))
  ∧ (∀ (fl : bool) (k : nat),
       ∃ t, t ∈ all_transforms g
            ∧ t.1.1 = normalize (turns k (if fl then flip (grid_to_coords g)
                                          else grid_to_coords g)))
  ∧ (∀ t : Transform, t ∈ all_transforms g →
       (∃ t', t' ∈ all_transforms g ∧ t'.1.1 = normalize (rotate t.1.1))
       ∧ (∃ t', t' ∈ all_transforms g ∧ t'.1.1 = normalize (flip t.1.1))).
Proof.
  intros Hne.
  assert (Hcand : ∀ t : Transform, t ∈ all_transforms g →
            ∃ k, (k < 4)%nat ∧ t.1.2 = 90 * Z.of_nat k
                 ∧ t.1.1 = normalize (turns k (if t.2 then flip (grid_to_coords g)
                                               else grid_to_coords g))).
  { intros t Ht. rewrite all_transforms_first_seen in Ht.
    apply first_seen_elem, elem_of_candidates in Ht as (k & Hk & Ht).
    exists k. split; [done|]. rewrite Ht at 1 2. done. }
  split_and!; [done|intros fl k; by apply all_transforms_image|].
  intros t Ht. destruct (Hcand t Ht) as (k & _ & _ & Hcs).
  set (x := if t.2 then flip (grid_to_coords g) else grid_to_coords g) in *.
  assert (Hx : x ≠ []) by (unfold x; destruct t.2; [by apply flip_nonempty|done]).
  split.
  - destruct (all_transforms_image g t.2 (S k) Hne) as (t' & Ht' & Heq).
    exists t'. split; [done|]. rewrite Heq, Hcs. fold x.
    symmetry. apply same_shape_rotate, same_shape_normalize.
  - assert (Hflip : same_shape (flip t.1.1) (turns (3 * k) (flip x))).
    { rewrite Hcs. transitivity (flip (turns k x)).
      - apply same_shape_flip, same_shape_normalize.
      - by apply flip_turns. }
    destruct (all_transforms_image g (negb t.2) (3 * k) Hne) as (t' & Ht' & Heq).
    exists t'. split; [done|]. rewrite Heq. symmetry.
    etransitivity; [exact Hflip|]. unfold x. destruct t.2; simpl; [|done].
    apply same_shape_turns, same_shape_flip_2. done.
Qed.

Lemma all_transforms_orbit_witness :
  let g : RawPiece := [[1;1;0];[0;1;0];[0;1;1]] in
  (∀ t : Transform, t ∈ all_transforms g →
     ∃ k, (k < 4)%nat ∧ t.1.2 = 90 * Z.of_nat k
          ∧ t.1.1 = normalize (turns k (if t.2 then flip (grid_to_coords g)
                                        else grid_to_coords g)))
  ∧ (∀ (fl : bool) (k : nat),
       ∃ t, t ∈ all_transforms g
            ∧ t.1.1 = normalize (turns k (if fl then flip (grid_to_coords g)
                                          else grid_to_coords g)))
  ∧ (∀ t : Transform, t ∈ all_transforms g →
       (∃ t', t' ∈ all_transforms g ∧ t'.1.1 = normalize (rotate t.1.1))
       ∧ (∃ t', t' ∈ all_transforms g ∧ t'.1.1 = normalize (flip t.1.1))).
Proof. apply (all_transforms_orbit [[1;1;0];[0;1;0];[0;1;1]]). done. Defined.

(** ** The cells of a grid and the squares of a placement *)

Lemma enumerate_NoDup {A} (l : list A) : NoDup (enumerate l).
Proof. unfold enumerate. apply NoDup_zip_l, NoDup_seqZ. Qed.

Lemma enumerate_functional {A} (l : list A) (i : Z) (x y : A) :
  (i, x) ∈ enumerate l → (i, y) ∈ enumerate l → x = y.
Proof. intros [_ Hx]%enumerate_lookup [_ Hy]%enumerate_lookup. congruence. Qed.

(** An element of [[x] if b else []]. *)
Ltac only_if_filled H :=
  match type of H with
  | _ ∈ (if bool_decide ?P then _ else _) =>
      destruct (bool_decide P);
      [apply list_elem_of_singleton in H|by apply elem_of_nil in H]
  end.

(** X15.  [grid_to_coords] lists the filled cells of a grid, each once:
    [(r, c)] is in the result exactly when row [r] of the grid exists,
    has an entry at position [c], and the entry is not 0. *)
Theorem grid_to_coords_cells (g : RawPiece) :
  (∀ r c, (r, c) ∈ grid_to_coords g ↔
          0 ≤ r ∧ 0 ≤ c
          ∧ ∃ row v, g !! Z.to_nat r = Some row ∧ row !! Z.to_nat c = Some v
                     ∧ v ≠ 0)
  ∧ NoDup (grid_to_coords g).
Proof.
  split.
  - intros r c. unfold grid_to_coords. rewrite list_elem_of_bind. split.
    + intros ([r' row] & Hin & [Hr Hrow]%enumerate_lookup).
      apply list_elem_of_bind in Hin as ([c' v] & Hin & [Hc Hv]%enumerate_lookup).
      case_bool_decide as Hnz; [|by apply elem_of_nil in Hin].
      apply list_elem_of_singleton in Hin as [= -> ->].
      split_and!; [done|done|]. by exists row, v.
    + intros (Hr & Hc & row & v & Hrow & Hv & Hnz).
      exists (r, row). split; [|by apply enumerate_lookup].
      apply list_elem_of_bind. exists (c, v). split; [|by apply enumerate_lookup].
      rewrite bool_decide_true by done. by left.
  - unfold grid_to_coords. apply NoDup_bind; [| |apply enumerate_NoDup].
    + intros [r1 row1] [r2 row2] [r c] H1 H2 Hin1 Hin2.
      apply list_elem_of_bind in Hin1 as ([c1 v1] & Hin1 & _).
      apply list_elem_of_bind in Hin2 as ([c2 v2] & Hin2 & _).
      only_if_filled Hin1. only_if_filled Hin2.
      injection Hin1 as -> ->. injection Hin2 as -> ->.
      f_equal. by eapply enumerate_functional.
    + intros [r row] _. apply NoDup_bind; [| |apply enumerate_NoDup].
      * intros [c1 v1] [c2 v2] [r' c] H1 H2 Hin1 Hin2.
        only_if_filled Hin1. only_if_filled Hin2.
        injection Hin1 as -> ->. injection Hin2 as ->.
        f_equal. by eapply enumerate_functional.
      * intros [c v] _. case_bool_decide; [apply NoDup_singleton|constructor].
Qed.

Lemma sorted_Z_increasing (l : list Z) :
  NoDup l → StronglySorted Z.lt (sorted_Z l).
Proof.
  intros Hnd. unfold sorted_Z.
  assert (Hs : StronglySorted Z.le (merge_sort Z.le l))
    by (apply StronglySorted_merge_sort; apply _).
  assert (Hnd' : NoDup (merge_sort Z.le l))
    by (by rewrite merge_sort_Permutation).
  induction Hs as [|x l' Hs IH Hall]; [constructor|].
  apply NoDup_cons in Hnd' as [Hx Hnd']. constructor; [by apply IH|].
  apply Forall_forall. intros y Hy.
  pose proof (proj1 (Forall_forall _ _) Hall y Hy).
  assert (x ≠ y) by (by intros ->). lia.
Qed.

(** X16.  The squares of a generated placement are stored as a strictly
    increasing tuple of column indices between 0 and 42: [Placement]
    sorts what the generator collected, and the generator collects no
    index twice. *)
Theorem generate_placements_squares_increasing (excluded : gset Cell)
    (p : Placement) :
  p ∈ generate_placements excluded →
  StronglySorted Z.lt (squares p) ∧ Forall (fun idx => 0 ≤ idx < 43) (squares p).
Proof.
  intros Hp.
  destruct (placement_cells excluded p Hp)
    as (grid & cells & _ & Hperm & Hnd & _ & Hcells).
  apply generate_placements_elem in Hp
    as (name & grid' & coords & rot & fl & tr & tc & idxs & _ & _ & _ & _ & _ & ->).
  cbn [squares new_Placement] in *. split.
  - apply sorted_Z_increasing.
    unfold sorted_Z in Hperm. rewrite merge_sort_Permutation in Hperm.
    rewrite Hperm. apply NoDup_fmap_2_strong; [|done].
    intros x y Hx Hy.
    apply (proj1 (Forall_forall _ _) Hcells) in Hx as [Hx _].
    apply (proj1 (Forall_forall _ _) Hcells) in Hy as [Hy _].
    by apply cell_to_col_inj.
  - rewrite Hperm, Forall_fmap. eapply Forall_impl; [exact Hcells|].
    intros xy [Hv _]. by apply cell_to_col_spec.
Qed.

Lemma generate_placements_squares_increasing_witness :
  let p := mkPlacement "D" [27; 28; 34; 41; 42] (4, 1) 0 false in
  StronglySorted Z.lt (squares p) ∧ Forall (fun idx => 0 ≤ idx < 43) (squares p).
Proof.
  apply (generate_placements_squares_increasing may24
           (mkPlacement "D" [27; 28; 34; 41; 42] (4, 1) 0 false)).
  apply (bool_decide_unpack _). vm_compute. exact I.
Defined.

(** ** The excluded set as a filter *)

Lemma bind_filter_ext {A B} (P : B → Prop) `{!∀ x, Decision (P x)}
    (f g : A → list B) (l : list A) :
  (∀ x, x ∈ l → f x = filter P (g x)) → l ≫= f = filter P (l ≫= g).
Proof.
  induction l as [|x l IH]; intros Hfg; [done|].
  rewrite !bind_cons, filter_app, (Hfg x) by (by left).
  rewrite IH; [done|]. intros y Hy. apply Hfg. by right.
Qed.

Lemma avoids_new_Placement (excluded : gset Cell) (name : string)
    (cells : list Cell) (tl : Cell) (rot : Z) (fl : bool) :
  Forall valid_cell cells →
  avoids excluded (new_Placement name (cell_to_col <$> cells) tl rot fl)
  ↔ Forall (fun xy => xy ∉ excluded) cells.
Proof.
  intros Hvalid. unfold avoids, new_Placement, sorted_Z. cbn [squares].
  rewrite !Forall_forall.
  assert (Hoff : ∀ xy, xy ∈ cells →
                       (off_excluded excluded (cell_to_col xy) ↔ xy ∉ excluded)).
  { intros xy Hxy. unfold off_excluded.
    destruct (cell_to_col_spec xy) as (_ & _ & Hi);
      [by apply (proj1 (Forall_forall _ _) Hvalid)|].
    rewrite Hi. reflexivity. }
  assert (Hin : ∀ i, i ∈ merge_sort Z.le (cell_to_col <$> cells)
                     ↔ ∃ xy, i = cell_to_col xy ∧ xy ∈ cells).
  { intros i. rewrite merge_sort_Permutation. apply list_elem_of_fmap. }
  split; intros Hall.
  - intros xy Hxy. apply (proj1 (Hoff xy Hxy)). apply Hall.
    apply (proj2 (Hin _)). by exists xy.
  - intros i Hi. apply (proj1 (Hin i)) in Hi as (xy & -> & Hxy).
    apply (proj2 (Hoff xy Hxy)). by apply Hall.
Qed.

(** Generating for an excluded set is generating for the whole board and
    dropping the placements that lie on an excluded cell. *)
Lemma generate_placements_filter (excluded : gset Cell) :
  generate_placements excluded
  = filter (avoids excluded) (generate_placements ∅).
Proof.
  unfold generate_placements.
  apply bind_filter_ext. intros [name grid] Hng.
  apply bind_filter_ext. intros [[coords rot] fl] Ht.
  apply bind_filter_ext. intros tr Htr.
  apply bind_filter_ext. intros tc Htc.
  pose (cells := (fun rc : Z * Z => (tr + rc.1, tc + rc.2)) <$> coords).
  destruct (cell_idxs ∅ tr tc coords) as [idxs0|] eqn:H0.
  - apply cell_idxs_Some in H0 as [Hon ->].
    assert (Hvalid : Forall valid_cell cells).
    { unfold cells. rewrite Forall_fmap. apply Forall_forall. intros rc Hrc.
      destruct (anchor_rows_in_range name grid (coords, rot, fl) tr tc rc)
        as (_ & Hr & Hc); [done..|].
      apply (proj1 (Forall_forall _ _) Hon) in Hrc as [Hw _].
      split; simpl; [done|lia]. }
    assert (Hidxs : (fun rc : Z * Z => cell_to_col (tr + rc.1, tc + rc.2)) <$> coords
                    = cell_to_col <$> cells).
    { unfold cells. by rewrite <- list_fmap_compose. }
    rewrite Hidxs.
    pose proof (avoids_new_Placement excluded name cells (tr, tc) rot fl Hvalid)
      as Hav.
    destruct (decide (Forall (fun xy => xy ∉ excluded) cells)) as [Hfree|Hhit].
    + assert (Hex : cell_idxs excluded tr tc coords = Some (cell_to_col <$> cells)).
      { apply cell_idxs_Some. split; [|done].
        apply Forall_forall. intros rc Hrc. split.
        - by apply (proj1 (Forall_forall _ _) Hon) in Hrc as [? _].
        - apply (proj1 (Forall_forall _ _) Hfree). unfold cells.
          apply list_elem_of_fmap. by exists rc. }
      rewrite Hex. rewrite filter_cons_True by (by apply Hav). done.
    + destruct (cell_idxs excluded tr tc coords) as [idxs|] eqn:Hex.
      * apply cell_idxs_Some in Hex as [Hall _]. destruct Hhit.
        unfold cells. rewrite Forall_fmap. eapply Forall_impl; [exact Hall|].
        by intros rc [_ ?].
      * rewrite filter_cons_False by (by rewrite Hav). done.
  - destruct (cell_idxs excluded tr tc coords) as [idxs|] eqn:Hex; [|done].
    apply cell_idxs_Some in Hex as [Hall ->].
    assert (cell_idxs ∅ tr tc coords
            = Some ((fun rc : Z * Z => cell_to_col (tr + rc.1, tc + rc.2)) <$> coords))
      as Hsome; [|by rewrite Hsome in H0].
    apply cell_idxs_Some. split; [|done].
    eapply Forall_impl; [exact Hall|]. intros rc [? _]. split; [done|set_solver].
Qed.

Lemma generate_placements_whole_board_squares :
  NoDup (squares <$> generate_placements ∅).
Proof. apply (bool_decide_unpack _). vm_compute. exact I. Qed.

(** X10.  The excluded cells only remove placements: the list generated
    for an excluded set is the list generated for the whole board, in the
    same order, without the placements that have a square on an excluded
    cell; and likewise from any smaller excluded set to a larger one. *)
Theorem generate_placements_excluded_filter (excluded : gset Cell) :
  generate_placements excluded
  = filter (avoids excluded) (generate_placements ∅)
  ∧ (∀ excluded' : gset Cell, excluded ⊆ excluded' →
       generate_placements excluded'
       = filter (avoids excluded') (generate_placements excluded)).
Proof.
  split; [apply generate_placements_filter|].
  intros excluded' Hsub.
  rewrite (generate_placements_filter excluded').
  rewrite (generate_placements_filter excluded).
  symmetry. apply list_filter_filter_l.
  intros p Hp. unfold avoids in *. eapply Forall_impl; [exact Hp|].
  intros idx. unfold off_excluded.
  destruct (py_index BOARD_CELLS idx) as [xy|]; [|done].
  intros Hxy Hin. apply Hxy. by apply Hsub.
Qed.

(** X11.  No two generated placements, of the same piece or of different
    pieces, occupy the same squares: the orientations that
    [all_transforms] keeps are different shapes, and so are the eight
    pieces. *)
Theorem generate_placements_distinct_squares (excluded : gset Cell) :
  NoDup (squares <$> generate_placements excluded).
Proof.
  rewrite generate_placements_filter.
  eapply sublist_NoDup; [apply generate_placements_whole_board_squares|].
  apply fmap_sublist, sublist_filter.
Qed.

(** ** Reading a placement back *)

Lemma NoDup_fst_functional {A B} (l : list (A * B)) (x : A) (y1 y2 : B) :
  NoDup (l.*1) → (x, y1) ∈ l → (x, y2) ∈ l → y1 = y2.
Proof.
  induction l as [|[a b] l IH]; intros Hnd H1 H2.
  - by apply elem_of_nil in H1.
  - apply NoDup_cons in Hnd as [Hnin Hnd].
    apply elem_of_cons in H1 as [H1|H1]; apply elem_of_cons in H2 as [H2|H2].
    + congruence.
    + injection H1 as -> ->. destruct Hnin.
      apply list_elem_of_fmap. by exists (a, y2).
    + injection H2 as -> ->. destruct Hnin.
      apply list_elem_of_fmap. by exists (a, y1).
    + by apply IH.
Qed.

Lemma generated_decoding (excluded : gset Cell) (p : Placement) :
  p ∈ generate_placements excluded →
  ∃ (grid : RawPiece) (k : nat),
    (piece p, grid) ∈ PIECES ∧ (k < 4)%nat ∧ rotation p = 90 * Z.of_nat k
    ∧ squares p
      = sorted_Z (cell_to_col
                    <$> translate (top_left p).1 (top_left p).2
                          (normalize (turns k (if flipped p
                                               then flip (grid_to_coords grid)
                                               else grid_to_coords grid))))
    ∧ Forall (fun xy => valid_cell xy ∧ xy ∉ excluded)
             (translate (top_left p).1 (top_left p).2
                (normalize (turns k (if flipped p
                                     then flip (grid_to_coords grid)
                                     else grid_to_coords grid)))).
Proof.
  intros (name & grid & coords & rot & fl & tr & tc & idxs
          & Hng & Ht & Htr & Htc & Hidxs & ->)%generate_placements_elem.
  pose proof Ht as Ht'. rewrite all_transforms_first_seen in Ht'.
  apply first_seen_elem, elem_of_candidates in Ht' as (k & Hk & Heq).
  cbn [snd] in Heq. injection Heq as Hcoords Hrot.
  apply cell_idxs_Some in Hidxs as [Hall ->].
  exists grid, k. cbn [piece rotation flipped top_left squares new_Placement fst snd].
  rewrite <- Hcoords. split_and!; [done|done|done| |].
  - f_equal. unfold translate. rewrite <- list_fmap_compose.
    apply list_fmap_ext. intros i [r c] _. simpl. do 2 f_equal; lia.
  - unfold translate. rewrite Forall_fmap. apply Forall_forall.
    intros [r c] Hrc.
    destruct (anchor_rows_in_range name grid (coords, rot, fl) tr tc (r, c))
      as (_ & Hr & Hc); [done..|].
    apply (proj1 (Forall_forall _ _) Hall) in Hrc as [Hw Hex].
    simpl in *. replace (r + tr) with (tr + r) by lia.
    replace (c + tc) with (tc + c) by lia.
    split; [|done]. split; simpl; [done|lia].
Qed.

(** X12.  A generated placement can be read back from the four fields
    that [main] prints for it.  Its squares are the columns, sorted, of
    the cells of one shape moved to the anchor [top_left]: the base shape
    of the piece, flipped if [flipped] says so, after [rotation / 90]
    quarter turns, in normal form; all these cells are valid and not
    excluded.  Hence two generated placements with the same tag, anchor,
    rotation and flip are the same placement. *)
Theorem generate_placements_decoding (excluded : gset Cell) (p : Placement) :
  p ∈ generate_placements excluded →
  (∃ (grid : RawPiece) (k : nat),
     (piece p, grid) ∈ PIECES ∧ (k < 4)%nat ∧ rotation p = 90 * Z.of_nat k
     ∧ squares p
       = sorted_Z (cell_to_col
                     <$> translate (top_left p).1 (top_left p).2
                           (normalize (turns k (if flipped p
                                                then flip (grid_to_coords grid)
                                                else grid_to_coords grid))))
     ∧ Forall (fun xy => valid_cell xy ∧ xy ∉ excluded)
              (translate (top_left p).1 (top_left p).2
                 (normalize (turns k (if flipped p
                                      then flip (grid_to_coords grid)
                                      else grid_to_coords grid)))))
  ∧ (∀ q, q ∈ generate_placements excluded → entry_of p = entry_of q → p = q).
Proof.
  intros Hp. split; [by apply generated_decoding|].
  intros q Hq Heq.
  destruct (generated_decoding excluded p Hp)
    as (grid & k & Hg & _ & Hrot & Hsq & _).
  destruct (generated_decoding excluded q Hq)
    as (grid' & k' & Hg' & _ & Hrot' & Hsq' & _).
  destruct p as [name sq [tr tc] rot fl], q as [name' sq' [tr' tc'] rot' fl'].
  unfold entry_of in Heq. cbn [piece top_left rotation flipped squares fst snd] in *.
  injection Heq as -> -> -> -> ->.
  assert (grid' = grid) as ->.
  { eapply NoDup_fst_functional; [apply PIECES_NoDup|exact Hg'|exact Hg]. }
  assert (k' = k) as -> by lia.
  by rewrite Hsq, Hsq'.
Qed.

Lemma generate_placements_decoding_witness :
  let p := mkPlacement "D" [27; 28; 34; 41; 42] (4, 1) 0 false in
  (∃ (grid : RawPiece) (k : nat),
     (piece p, grid) ∈ PIECES ∧ (k < 4)%nat ∧ rotation p = 90 * Z.of_nat k
     ∧ squares p
       = sorted_Z (cell_to_col
                     <$> translate (top_left p).1 (top_left p).2
                           (normalize (turns k (if flipped p
                                                then flip (grid_to_coords grid)
                                                else grid_to_coords grid))))
     ∧ Forall (fun xy => valid_cell xy ∧ xy ∉ may24)
              (translate (top_left p).1 (top_left p).2
                 (normalize (turns k (if flipped p
                                      then flip (grid_to_coords grid)
                                      else grid_to_coords grid)))))
  ∧ (∀ q, q ∈ generate_placements may24 → entry_of p = entry_of q → p = q).
Proof.
  apply (generate_placements_decoding may24
           (mkPlacement "D" [27; 28; 34; 41; 42] (4, 1) 0 false)).
  apply (bool_decide_unpack _). vm_compute. exact I.
Defined.

(** ** The board of the visualiser *)

Lemma well_shaped_row (b : list (list string)) (r : Z) :
  well_shaped b → 0 ≤ r < 7 →
  ∃ row, b !! Z.to_nat r = Some row ∧ Z.of_nat (length row) = row_width r.
Proof.
  intros Hshape Hr. unfold well_shaped in Hshape.
  assert (Hw : ∃ w, ROW_WIDTHS !! Z.to_nat r = Some w ∧ 0 ≤ w) .
  { assert (Hin : r ∈ range 7) by (by apply elem_of_range).
    clear Hr. cases_in_range Hin; eexists; (split; [reflexivity|lia]). }
  destruct Hw as (w & Hw & Hpos).
  assert (Hlk : (length <$> b) !! Z.to_nat r = Some (Z.to_nat w))
    by (by rewrite Hshape, list_lookup_fmap, Hw).
  apply list_lookup_fmap_Some in Hlk as (row & Hlen & Hrow).
  exists row. split; [done|]. unfold row_width.
  rewrite bool_decide_true, Hw by lia. simpl. lia.
Qed.

Lemma py_index_nonneg {A} (l : list A) (i : Z) :
  0 ≤ i → py_index l i = l !! Z.to_nat i.
Proof. intros Hi. unfold py_index. by rewrite bool_decide_true. Qed.

Lemma py_set_nonneg {A} (l : list A) (i : Z) (v : A) :
  0 ≤ i < Z.of_nat (length l) → py_set l i v = Some (<[Z.to_nat i := v]> l).
Proof. intros Hi. unfold py_set. by rewrite !bool_decide_true by lia. Qed.

Lemma cell_at_nonneg (b : list (list string)) (xy : Cell) :
  0 ≤ xy.1 → 0 ≤ xy.2 →
  cell_at b xy = b !! Z.to_nat xy.1 ≫= fun row => row !! Z.to_nat xy.2.
Proof.
  intros H1 H2. unfold cell_at. rewrite py_index_nonneg by done.
  destruct (b !! Z.to_nat xy.1) as [row|]; [|done]. simpl.
  by rewrite py_index_nonneg.
Qed.

(** Writing a valid cell succeeds, keeps the shape of the board and
    changes that cell only. *)
Lemma set_cell_valid (b : list (list string)) (xy : Cell) (s : string) :
  well_shaped b → valid_cell xy →
  ∃ b', set_cell b xy.1 xy.2 s = Ok b'
        ∧ well_shaped b'
        ∧ cell_at b' xy = Some s
        ∧ ∀ xy', valid_cell xy' → xy' ≠ xy → cell_at b' xy' = cell_at b xy'.
Proof.
  intros Hshape [Hr Hc]. change (length ROW_WIDTHS) with 7%nat in Hr.
  destruct (well_shaped_row b xy.1 Hshape) as (row & Hrow & Hlen); [lia|].
  assert (Hrlt : (Z.to_nat xy.1 < length b)%nat) by (by eapply lookup_lt_Some).
  exists (<[Z.to_nat xy.1 := <[Z.to_nat xy.2 := s]> row]> b). split_and!.
  - unfold set_cell. rewrite py_index_nonneg, Hrow by lia. simpl.
    rewrite py_set_nonneg by lia. simpl.
    rewrite py_set_nonneg by lia. done.
  - unfold well_shaped in *. rewrite list_fmap_insert, length_insert.
    rewrite <- Hshape. apply list_insert_id. by rewrite list_lookup_fmap, Hrow.
  - rewrite cell_at_nonneg by lia.
    rewrite list_lookup_insert_eq by done. simpl.
    apply list_lookup_insert_eq. lia.
  - intros xy' [Hr' Hc'] Hne. rewrite !cell_at_nonneg by lia.
    destruct (decide (Z.to_nat xy'.1 = Z.to_nat xy.1)) as [Heq|Hner].
    + rewrite Heq, list_lookup_insert_eq, Hrow by done. simpl.
      apply list_lookup_insert_ne. intros Heqc. apply Hne.
      destruct xy as [r c], xy' as [r' c']. simpl in *. f_equal; lia.
    + by rewrite list_lookup_insert_ne.
Qed.

Lemma paint_squares (pl : Placement) (idxs : list Z) :
  ∀ b, well_shaped b →
    Forall (fun idx => ∃ xy, valid_cell xy ∧ idx = cell_to_col xy) idxs →
    ∃ b', res_foldl (fun (b : list (list string)) (idx : Z) =>
                       '(r, c) ← or_raise IndexError (py_index BOARD_CELLS idx);
                       set_cell b r c (label pl)) b idxs = Ok b'
          ∧ well_shaped b'
          ∧ ∀ xy, valid_cell xy →
                  cell_at b' xy = if decide (cell_to_col xy ∈ idxs)
                                  then Some (label pl) else cell_at b xy.
Proof.
  induction idxs as [|idx idxs IH]; intros b Hshape Hall.
  - exists b. split_and!; [done|done|]. intros xy _.
    by rewrite decide_False by apply not_elem_of_nil.
  - apply Forall_cons in Hall as [(xy0 & Hv0 & ->) Hall].
    destruct (cell_to_col_spec xy0 Hv0) as (_ & _ & Hidx).
    destruct (set_cell_valid b xy0 (label pl) Hshape Hv0)
      as (b1 & Hset & Hshape1 & Hat & Hother).
    destruct (IH b1 Hshape1 Hall) as (b' & Hrun & Hshape' & Hcells).
    destruct xy0 as [r0 c0]. cbn [fst snd] in Hset.
    cbn [res_foldl]. rewrite Hidx. cbn [or_raise mbind res_bind].
    rewrite Hset. cbn [mbind res_bind].
    exists b'. split_and!; [done|done|]. intros xy Hv. rewrite (Hcells xy Hv).
    destruct (decide (cell_to_col xy ∈ idxs)) as [Hin|Hnin].
    + by rewrite decide_True by (by right).
    + destruct (decide (xy = (r0, c0))) as [->|Hne].
      * by rewrite decide_True by (by left).
      * rewrite decide_False.
        -- by apply Hother.
        -- intros [Heq|Hin]%elem_of_cons; [|done].
           apply Hne. by apply cell_to_col_inj.
Qed.

Lemma paint_valid (b : list (list string)) (pl : Placement) :
  well_shaped b → on_board pl →
  ∃ b', paint b pl = Ok b'
        ∧ well_shaped b'
        ∧ ∀ xy, valid_cell xy →
                cell_at b' xy = if decide (cell_to_col xy ∈ squares pl)
                                then Some (label pl) else cell_at b xy.
Proof. intros Hshape Hon. by apply paint_squares. Qed.

Lemma paint_all (solution : list Placement) :
  ∀ b, well_shaped b → Forall on_board solution →
    ∃ b', res_foldl paint b solution = Ok b'
          ∧ well_shaped b'
          ∧ ∀ xy, valid_cell xy →
              (∃ p, p ∈ solution ∧ cell_to_col xy ∈ squares p
                    ∧ cell_at b' xy = Some (label p))
              ∨ ((∀ p, p ∈ solution → cell_to_col xy ∉ squares p)
                 ∧ cell_at b' xy = cell_at b xy).
Proof.
  induction solution as [|pl solution IH]; intros b Hshape Hall.
  - exists b. split_and!; [done|done|]. intros xy _. right.
    split; [|done]. by intros p ?%elem_of_nil.
  - apply Forall_cons in Hall as [Hon Hall]. simpl.
    destruct (paint_valid b pl Hshape Hon) as (b1 & -> & Hshape1 & Hcells1).
    simpl.
    destruct (IH b1 Hshape1 Hall) as (b' & Hrun & Hshape' & Hcells).
    exists b'. split_and!; [done|done|]. intros xy Hv.
    destruct (Hcells xy Hv) as [(p & Hp & Hin & Hat)|[Hnone Hat]].
    + left. exists p. split_and!; [by right|done|done].
    + rewrite (Hcells1 xy Hv) in Hat.
      destruct (decide (cell_to_col xy ∈ squares pl)) as [Hin|Hnin].
      * left. exists pl. split_and!; [by left|done|done].
      * right. split; [|done].
        intros p [->|Hp]%elem_of_cons; [done|by apply Hnone].
Qed.

Lemma blank_board_shaped : well_shaped blank_board.
Proof. reflexivity. Qed.

Lemma generated_on_board (excluded : gset Cell) (p : Placement) :
  p ∈ generate_placements excluded → on_board p.
Proof.
  intros Hp. destruct (placement_cells excluded p Hp)
    as (grid & cells & _ & Hperm & _ & _ & Hcells).
  unfold on_board. rewrite Hperm, Forall_fmap.
  eapply Forall_impl; [exact Hcells|]. intros xy [Hv _]. by exists xy.
Qed.

Lemma month_abbreviations :
  Forall (fun name => String.length (String.substring 0 3 name) = 3%nat) MONTHS.
Proof. repeat constructor. Qed.

Lemma day_labels (d : Z) :
  1 ≤ d ≤ 31 → String.length (rjust 3 (pretty d)) = 3%nat.
Proof.
  intros Hd. assert (Hr : d - 1 ∈ range 31) by (apply elem_of_range; lia).
  replace d with (d - 1 + 1) by lia.
  cases_in_range Hr; reflexivity.
Qed.

Lemma piece_labels :
  Forall (fun name => String.length (" " +:+ name +:+ " ") = 3%nat) (PIECES.*1).
Proof. repeat constructor. Qed.

(** The board that [show_board] prints for the placements of a cover. *)
Lemma board_of_cover (solution : list Placement) (month day : Z) :
  1 ≤ month ≤ 12 → 1 ≤ day ≤ 31 →
  Forall (fun p => p ∈ generate_placements {[month_cell month; day_cell day]})
         solution →
  ⋃ ((fun p => list_to_set (squares p)) <$> solution)
  = board_cols_of {[month_cell month; day_cell day]} →
  ∃ b name,
    board_of solution month day = Ok b
    ∧ well_shaped b
    ∧ MONTHS !! Z.to_nat (month - 1) = Some name
    ∧ cell_at b (month_cell month) = Some (String.substring 0 3 name)
    ∧ cell_at b (day_cell day) = Some (rjust 3 (pretty day))
    ∧ (∀ xy, valid_cell xy → xy ≠ month_cell month → xy ≠ day_cell day →
         ∃ p, p ∈ solution ∧ cell_to_col xy ∈ squares p
              ∧ cell_at b xy = Some (label p)).
Proof.
  intros Hm Hd Hgen Hcover.
  assert (Hvm : valid_cell (month_cell month) ∧ valid_cell (day_cell day)
                ∧ month_cell month ≠ day_cell day).
  { unfold month_cell, day_cell, valid_cell.
    repeat case_bool_decide; simpl;
      repeat match goal with
             | |- context [row_width ?r] =>
                 let w := eval vm_compute in (row_width r) in
                 change (row_width r) with w
             end;
      split_and!; try lia; intros [=]; lia. }
  destruct Hvm as (Hvm & Hvd & Hmd).
  destruct (paint_all solution blank_board blank_board_shaped)
    as (b0 & Hpaint & Hshape0 & Hcells0).
  { eapply Forall_impl; [exact Hgen|]. intros p. apply generated_on_board. }
  assert (Hname : ∃ name, MONTHS !! Z.to_nat (month - 1) = Some name).
  { apply lookup_lt_is_Some. change (length MONTHS) with 12%nat. lia. }
  destruct Hname as [name Hname].
  destruct (set_cell_valid b0 (month_cell month) (String.substring 0 3 name)
              Hshape0 Hvm) as (b1 & Hset1 & Hshape1 & Hat1 & Hother1).
  destruct (set_cell_valid b1 (day_cell day) (rjust 3 (pretty day))
              Hshape1 Hvd) as (b2 & Hset2 & Hshape2 & Hat2 & Hother2).
  exists b2, name. split_and!; [|done|done| |done|].
  - unfold board_of. rewrite Hpaint. simpl.
    rewrite py_index_nonneg, Hname by lia. simpl.
    rewrite Hset1. simpl. exact Hset2.
  - rewrite Hother2 by done. exact Hat1.
  - intros xy Hv Hnm Hnd. rewrite Hother2, Hother1 by done.
    destruct (Hcells0 xy Hv) as [Hp|[Hnone _]]; [done|]. exfalso.
    assert (Hc : cell_to_col xy ∈ board_cols_of {[month_cell month; day_cell day]}).
    { apply elem_of_board_cols_of. exists xy. split_and!; [done| |].
      - rewrite elem_of_union, !elem_of_singleton. tauto.
      - by apply cell_to_col_spec. }
    rewrite <- Hcover in Hc. apply elem_of_union_list in Hc as (X & HX & Hc).
    apply list_elem_of_fmap in HX as (p & -> & Hp).
    apply elem_of_list_to_set in Hc. by apply (Hnone p Hp).
Qed.

Lemma well_shaped_cell (b : list (list string)) (i j : nat) (row : list string)
    (s : string) :
  well_shaped b → b !! i = Some row → row !! j = Some s →
  valid_cell (Z.of_nat i, Z.of_nat j)
  ∧ cell_at b (Z.of_nat i, Z.of_nat j) = Some s.
Proof.
  intros Hshape Hrow Hs.
  assert (Hlen : length b = 7%nat).
  { unfold well_shaped in Hshape.
    by rewrite <- (length_fmap length b), Hshape. }
  assert (Hi : (i < 7)%nat) by (rewrite <- Hlen; by eapply lookup_lt_Some).
  destruct (well_shaped_row b (Z.of_nat i) Hshape) as (row' & Hrow' & Hwidth);
    [lia|].
  rewrite Nat2Z.id, Hrow in Hrow'. injection Hrow' as <-.
  apply lookup_lt_Some in Hs as Hj. split.
  - split; simpl; [change (length ROW_WIDTHS) with 7%nat; lia|lia].
  - rewrite cell_at_nonneg by (simpl; lia). simpl.
    rewrite !Nat2Z.id, Hrow. simpl. done.
Qed.

Lemma generated_piece (excluded : gset Cell) (p : Placement) :
  p ∈ generate_placements excluded → piece p ∈ PIECES.*1.
Proof.
  intros Hp. destruct (placement_cells excluded p Hp) as (grid & cells & Hin & _).
  apply list_elem_of_fmap. by exists (piece p, grid).
Qed.

(** X13.  The board that [show_board] prints for a date and a list of
    generated placements whose squares make up the non-excluded board
    columns: [show_board] raises nothing; it prints an empty line, the
    title and the seven rows of the board, the cells of a row joined by
    one space; the month cell shows the first three letters of the month
    name, the day cell the day right-justified to width 3, and every
    other cell of the board the tag, between two spaces, of a placement
    that has the cell among its squares; so every cell is three
    characters wide and none is left blank. *)
Theorem show_board_layout (solution : list Placement) (month day : Z) :
  1 ≤ month ≤ 12 → 1 ≤ day ≤ 31 →
  Forall (fun p => p ∈ generate_placements {[month_cell month; day_cell day]})
         solution →
  ⋃ ((fun p => list_to_set (squares p)) <$> solution)
  = board_cols_of {[month_cell month; day_cell day]} →
  ∃ b name,
    show_board solution month day
    = Ok (""%string :: "Solution layout:"%string :: (String.concat " " <$> b))
    ∧ length <$> b = Z.to_nat <$> ROW_WIDTHS
    ∧ MONTHS !! Z.to_nat (month - 1) = Some name
    ∧ cell_at b (month_cell month) = Some (String.substring 0 3 name)
    ∧ cell_at b (day_cell day) = Some (rjust 3 (pretty day))
    ∧ (∀ xy, valid_cell xy → xy ≠ month_cell month → xy ≠ day_cell day →
         ∃ p, p ∈ solution ∧ cell_to_col xy ∈ squares p
              ∧ cell_at b xy = Some (" " +:+ piece p +:+ " ")%string)
    ∧ Forall (Forall (fun s => String.length s = 3%nat)) b.
Proof.
  intros Hm Hd Hgen Hcover.
  destruct (board_of_cover solution month day Hm Hd Hgen Hcover)
    as (b & name & Hboard & Hshape & Hname & Hmonth & Hday & Hcells).
  exists b, name. split_and!; [|done..|].
  - unfold show_board. by rewrite Hboard.
  - apply Forall_lookup. intros i row Hrow.
    apply Forall_lookup. intros j s Hs.
    destruct (well_shaped_cell b i j row s Hshape Hrow Hs) as [Hv Hat].
    destruct (decide ((Z.of_nat i, Z.of_nat j) = month_cell month)) as [Heq|Hnm].
    { rewrite Heq, Hmonth in Hat. injection Hat as <-.
      apply list_elem_of_lookup_2 in Hname.
      exact (proj1 (Forall_forall _ _) month_abbreviations _ Hname). }
    destruct (decide ((Z.of_nat i, Z.of_nat j) = day_cell day)) as [Heq|Hnd].
    { rewrite Heq, Hday in Hat. injection Hat as <-. by apply day_labels. }
    destruct (Hcells _ Hv Hnm Hnd) as (p & Hp & _ & Hlabel).
    rewrite Hlabel in Hat. injection Hat as <-.
    apply (proj1 (Forall_forall _ _) Hgen) in Hp.
    apply generated_piece in Hp.
    exact (proj1 (Forall_forall _ _) piece_labels _ Hp).
Qed.

Lemma show_board_layout_witness :
  ∃ b name,
    show_board may24_solution 5 24
    = Ok (""%string :: "Solution layout:"%string :: (String.concat " " <$> b))
    ∧ length <$> b = Z.to_nat <$> ROW_WIDTHS
    ∧ MONTHS !! Z.to_nat (5 - 1) = Some name
    ∧ cell_at b (month_cell 5) = Some (String.substring 0 3 name)
    ∧ cell_at b (day_cell 24) = Some (rjust 3 (pretty 24))
    ∧ (∀ xy, valid_cell xy → xy ≠ month_cell 5 → xy ≠ day_cell 24 →
         ∃ p, p ∈ may24_solution ∧ cell_to_col xy ∈ squares p
              ∧ cell_at b xy = Some (" " +:+ piece p +:+ " ")%string)
    ∧ Forall (Forall (fun s => String.length s = 3%nat)) b.
Proof.
  apply (show_board_layout may24_solution 5 24).
  - lia.
  - lia.
  - apply (bool_decide_unpack _). vm_compute. exact I.
  - vm_compute. reflexivity.
Defined.

(** ** The report of [main] *)

Lemma tags_ordered :
  Forall (fun a =>
    Forall (fun b =>
      (string_lt a b → ¬ string_lt b a)
      ∧ (¬ string_lt a b → ¬ string_lt b a → a = b)
      ∧ Forall (fun c => string_lt a b → string_lt a c ∨ string_lt c b)
               (PIECES.*1))
      (PIECES.*1))
    (PIECES.*1).
Proof. apply (bool_decide_unpack _). vm_compute. exact I. Qed.

Lemma tags_asym (a b : string) :
  a ∈ PIECES.*1 → b ∈ PIECES.*1 → string_lt a b → ¬ string_lt b a.
Proof.
  intros Ha Hb.
  pose proof (proj1 (Forall_forall _ _) tags_ordered a Ha) as H1.
  by destruct (proj1 (Forall_forall _ _) H1 b Hb) as (? & _).
Qed.

Lemma tags_trichotomy (a b : string) :
  a ∈ PIECES.*1 → b ∈ PIECES.*1 → ¬ string_lt a b → ¬ string_lt b a → a = b.
Proof.
  intros Ha Hb.
  pose proof (proj1 (Forall_forall _ _) tags_ordered a Ha) as H1.
  by destruct (proj1 (Forall_forall _ _) H1 b Hb) as (_ & ? & _).
Qed.

Lemma tags_between (a b c : string) :
  a ∈ PIECES.*1 → b ∈ PIECES.*1 → c ∈ PIECES.*1 →
  string_lt a b → string_lt a c ∨ string_lt c b.
Proof.
  intros Ha Hb Hc.
  pose proof (proj1 (Forall_forall _ _) tags_ordered a Ha) as H1.
  destruct (proj1 (Forall_forall _ _) H1 b Hb) as (_ & _ & H2).
  exact (proj1 (Forall_forall _ _) H2 c Hc).
Qed.

Lemma insert_by_piece_perm (p : Placement) (l : list Placement) :
  insert_by_piece p l ≡ₚ p :: l.
Proof.
  induction l as [|q l IH]; [done|]. simpl. case_bool_decide; [|done].
  rewrite IH. apply Permutation_swap.
Qed.

Lemma sorted_by_piece_perm (l : list Placement) : sorted_by_piece l ≡ₚ l.
Proof.
  induction l as [|p l IH]; [done|]. simpl.
  by rewrite insert_by_piece_perm, IH.
Qed.

Lemma insert_by_piece_sorted (p : Placement) (l : list Placement) :
  piece p ∈ PIECES.*1 → Forall (fun q => piece q ∈ PIECES.*1) l →
  StronglySorted (fun x y => ¬ string_lt (piece y) (piece x)) l →
  StronglySorted (fun x y => ¬ string_lt (piece y) (piece x))
                 (insert_by_piece p l).
Proof.
  intros Hp Hall Hsorted. induction l as [|q l IH]; simpl.
  - repeat constructor.
  - apply Forall_cons in Hall as [Hq Hall].
    apply StronglySorted_cons in Hsorted as [Hhd Hsorted].
    case_bool_decide as Hlt.
    + apply StronglySorted_cons. split; [|by apply IH].
      rewrite insert_by_piece_perm. constructor; [|done].
      by apply tags_asym.
    + apply StronglySorted_cons. split.
      * constructor; [done|].
        apply Forall_forall. intros x Hx Hxp.
        pose proof (proj1 (Forall_forall _ _) Hall x Hx) as Hxt.
        pose proof (proj1 (Forall_forall _ _) Hhd x Hx) as Hqx.
        destruct (tags_between (piece x) (piece p) (piece q)); done.
      * apply StronglySorted_cons. by split.
Qed.

Lemma sorted_by_piece_sorted (l : list Placement) :
  Forall (fun q => piece q ∈ PIECES.*1) l →
  StronglySorted (fun x y => ¬ string_lt (piece y) (piece x)) (sorted_by_piece l).
Proof.
  induction l as [|p l IH]; intros Hall; simpl; [constructor|].
  apply Forall_cons in Hall as [Hp Hall].
  apply insert_by_piece_sorted; [done| |by apply IH].
  by rewrite sorted_by_piece_perm.
Qed.

Lemma tags_sorted :
  StronglySorted (fun a b => ¬ string_lt b a) (PIECES.*1).
Proof.
  repeat (apply StronglySorted_cons; split;
          [apply (bool_decide_unpack _); vm_compute; exact I|]).
  constructor.
Qed.

(** Sorting a list that has every tag once gives the tags in the order
    A to H. *)
Lemma sorted_by_piece_tags (l : list Placement) :
  piece <$> l ≡ₚ PIECES.*1 → piece <$> sorted_by_piece l = PIECES.*1.
Proof.
  intros Hperm.
  assert (Hall : Forall (fun q => piece q ∈ PIECES.*1) l).
  { apply Forall_forall. intros q Hq. rewrite <- Hperm.
    apply list_elem_of_fmap. by exists q. }
  apply (StronglySorted_unique_strong (fun a b => ¬ string_lt b a)).
  - intros a b Ha Hb Hab Hba. apply tags_trichotomy; [|done..].
    apply list_elem_of_fmap in Ha as (q & -> & Hq).
    rewrite sorted_by_piece_perm in Hq.
    exact (proj1 (Forall_forall _ _) Hall q Hq).
  - apply (StronglySorted_fmap piece
             (fun x y => ¬ string_lt (piece y) (piece x)));
      [done|by apply sorted_by_piece_sorted].
  - apply tags_sorted.
  - by rewrite sorted_by_piece_perm.
Qed.

(** What a returned solution is made of. *)
Lemma solve_exact_cover_solution (set_order : gset Z → list Z) (fuel : nat)
    (placements : list Placement) (excluded : gset Cell)
    (solution : list Placement) (n : Z) :
  solve_exact_cover set_order fuel placements excluded = Ok (Some solution, n) →
  Forall (fun p => p ∈ placements) solution
  ∧ piece <$> solution ≡ₚ PIECES.*1
  ∧ ⋃ ((fun p => list_to_set (squares p) ∩ board_cols_of excluded) <$> solution)
    = board_cols_of excluded
  ∧ 8 ≤ n.
Proof.
  unfold solve_exact_cover. intros Hrun.
  apply res_bind_Ok in Hrun as (mx & Hmx & Hrun).
  apply res_bind_Ok in Hrun as (ctr & _ & Hrun).
  apply res_bind_Ok in Hrun as ([found st] & Hsearch & Hrun).
  destruct found; [|done].
  apply res_bind_Ok in Hrun as (sols & Hsols & [= <- <-]).
  pose proof (search_counts _ _ _ _ _ _ _ _ _ _ Hsearch) as [Hlen _].
  simpl in Hlen.
  apply search_covers in Hsearch as [Htil Hused]; [|apply tiling_nil].
  simpl in Htil. rewrite Hused in Htil.
  destruct (tiling_pieces _ _ _ _ _ Hmx Htil Hsols) as (Hperm & Hunion & _).
  split_and!; [|done|done|].
  - apply Forall_forall. intros p Hp. apply res_mapM_Ok in Hsols.
    apply list_elem_of_lookup in Hp as [k Hk].
    destruct (Forall2_lookup_r _ _ _ _ _ Hsols Hk) as (r & _ & Hr).
    by apply placement_at_elem in Hr.
  - apply Permutation_length in Hperm. rewrite length_fmap in Hperm.
    apply res_mapM_Ok, Forall2_length in Hsols.
    change (length (PIECES.*1)) with 8%nat in Hperm. lia.
Qed.

Lemma solve_exact_cover_tries_nonneg (set_order : gset Z → list Z) (fuel : nat)
    (placements : list Placement) (excluded : gset Cell)
    (r : option (list Placement)) (n : Z) :
  solve_exact_cover set_order fuel placements excluded = Ok (r, n) → 0 ≤ n.
Proof.
  unfold solve_exact_cover. intros Hrun.
  apply res_bind_Ok in Hrun as (mx & Hmx & Hrun).
  apply res_bind_Ok in Hrun as (ctr & _ & Hrun).
  apply res_bind_Ok in Hrun as ([found st] & Hsearch & Hrun).
  pose proof (search_counts _ _ _ _ _ _ _ _ _ _ Hsearch) as [_ Hmono].
  simpl in Hmono. destruct found.
  - by apply res_bind_Ok in Hrun as (sols & _ & [= _ <-]).
  - by injection Hrun as _ <-.
Qed.

(** X14.  For every date with [1 <= month <= 12] and [1 <= day <= 31],
    the body of [main] raises nothing and reports one of two things.
    Either "No solution" with a tries count that is not negative, and
    then no set of generated placements is an exact cover; or a solution:
    the structured answer has eight entries, for the pieces A to H in this
    order, each one the tag, anchor row and column, rotation and flip of a
    generated placement; the layout has nine lines; and the tries count
    is at least 8. *)
Theorem main_body_report (set_order : gset Z → list Z) (fuel : nat)
    (month day : Z) :
  (∀ s, set_order s ≡ₚ elements s) → (9 ≤ fuel)%nat →
  1 ≤ month ≤ 12 → 1 ≤ day ≤ 31 →
  ∃ r, main_body set_order fuel month day = Ok r
       ∧ match r with
         | NoSolution n =>
             0 ≤ n
             ∧ ¬ ∃ R, exact_cover
                        (generate_placements {[month_cell month; day_cell day]})
                        {[month_cell month; day_cell day]} R
         | Solution structured layout n =>
             e_piece <$> structured = PIECES.*1
             ∧ Forall (fun e => ∃ p,
                         p ∈ generate_placements
                               {[month_cell month; day_cell day]}
                         ∧ e = entry_of p) structured
             ∧ length layout = 9%nat
             ∧ 8 ≤ n
         end.
Proof.
  intros Hperm Hfuel Hm Hd. unfold main_body.
  set (exposed := ({[month_cell month; day_cell day]} : gset Cell)).
  destruct (solve_exact_cover_returns set_order fuel (generate_placements exposed)
              (month_cell month) (day_cell day) Hperm) as [[sol n] Hrun];
    [|done|].
  { apply Forall_forall. intros p. apply generated_piece. }
  fold exposed in Hrun. rewrite Hrun. cbn [mbind res_bind].
  destruct sol as [solution|].
  - destruct (solve_exact_cover_solution _ _ _ _ _ _ Hrun)
      as (Hgen & Hpieces & Hunion & Htries).
    assert (Hcover : ⋃ ((fun p => list_to_set (squares p)) <$> solution)
                     = board_cols_of exposed).
    { etransitivity; [|exact Hunion]. f_equal. apply list_fmap_ext.
      intros i p Hp.
      apply list_elem_of_lookup_2 in Hp.
      apply (proj1 (Forall_forall _ _) Hgen) in Hp.
      apply leibniz_equiv. symmetry. apply subseteq_intersection_1.
      intros c Hc%elem_of_list_to_set. by eapply generated_squares. }
    destruct (board_of_cover solution month day Hm Hd Hgen Hcover)
      as (b & name & Hboard & Hshape & _).
    unfold show_board. rewrite Hboard. cbn [mbind res_bind].
    eexists. split; [done|]. cbn beta iota. split_and!.
    + rewrite <- list_fmap_compose.
      change (e_piece ∘ entry_of) with piece.
      by apply sorted_by_piece_tags.
    + apply Forall_fmap, Forall_forall. intros p Hp. exists p. split; [|done].
      rewrite sorted_by_piece_perm in Hp.
      exact (proj1 (Forall_forall _ _) Hgen p Hp).
    + cbn [length]. rewrite length_fmap.
      unfold well_shaped in Hshape.
      by rewrite <- (length_fmap length b), Hshape.
    + done.
  - eexists. split; [done|]. cbn beta iota. split.
    + by eapply solve_exact_cover_tries_nonneg.
    + intros [R HR]. by eapply solve_exact_cover_None.
Qed.

Lemma main_body_report_witness :
  ∃ r, main_body ascending 9 5 24 = Ok r
       ∧ match r with
         | NoSolution n =>
             0 ≤ n
             ∧ ¬ ∃ R, exact_cover
                        (generate_placements {[month_cell 5; day_cell 24]})
                        {[month_cell 5; day_cell 24]} R
         | Solution structured layout n =>
             e_piece <$> structured = PIECES.*1
             ∧ Forall (fun e => ∃ p,
                         p ∈ generate_placements {[month_cell 5; day_cell 24]}
                         ∧ e = entry_of p) structured
             ∧ length layout = 9%nat
             ∧ 8 ≤ n
         end.
Proof.
  apply (main_body_report ascending 9 5 24).
  - apply ascending_perm.
  - lia.
  - lia.
  - lia.
Defined.
